(** * ovos_plugin_manager/templates/tts.py: the TTS template

    A shallow embedding of [TTSContext] and [TTS] and the properties of the
    SSML filter, the phonetic-spelling pass, viseme derivation, the
    per-namespace cache registry and the synthesis pipeline.

    Python [str] values are lists of characters.  The character type is
    [ascii]: the model covers ASCII text.  Dictionaries are [gmap]s. *)

From Stdlib Require Import Ascii String List Bool Arith Lia.
From stdpp Require Import base option list strings gmap.

Local Open Scope list_scope.

(** ** Python strings *)

Module PyStr.

Abbreviation pystr := (list ascii).

(** A literal. *)
Definition str (s : string) : pystr := list_ascii_of_string s.

(** [s.startswith(p)] *)
Fixpoint startswith (p s : pystr) : bool :=
  match p, s with
  | [], _ => true
  | a :: p', b :: s' => Ascii.eqb a b && startswith p' s'
  | _ :: _, [] => false
  end.

(** [s.endswith(p)] *)
Definition endswith (p s : pystr) : bool := startswith (rev p) (rev s).

(** [sub in s] *)
Fixpoint contains (sub s : pystr) : bool :=
  startswith sub s ||
  match s with
  | [] => false
  | _ :: s' => contains sub s'
  end.

(** [s.replace(old, new)]: every non-overlapping occurrence of [old], found
    from the left, becomes [new].  [skip] counts the characters of an
    occurrence that are still to be passed over. *)
Fixpoint replace_from (old new : pystr) (skip : nat) (s : pystr) : pystr :=
  match s with
  | [] => []
  | c :: s' =>
      match skip with
      | S k => replace_from old new k s'
      | O =>
          if startswith old s
          then new ++ replace_from old new (length old - 1) s'
          else c :: replace_from old new 0 s'
      end
  end.

(** With an empty [old] Python inserts [new] before every character and at
    the end. *)
Definition replace (old new s : pystr) : pystr :=
  match old with
  | [] => new ++ flat_map (fun c => c :: new) s
  | _ :: _ => replace_from old new 0 s
  end.

(** [s.split(sep)] for a one-character separator: always at least one
    piece. *)
Fixpoint split_char (sep : ascii) (s : pystr) : list pystr :=
  match s with
  | [] => [[]]
  | c :: s' =>
      if Ascii.eqb c sep then [] :: split_char sep s'
      else match split_char sep s' with
           | [] => [[c]]
           | p :: ps => (c :: p) :: ps
           end
  end.

(** The position of the first occurrence of [sep], as the text before it and
    the text after it: [s.split(sep, 1)] has two pieces exactly when this is
    [Some]. *)
Fixpoint split_first (sep : pystr) (s : pystr) : option (pystr * pystr) :=
  if startswith sep s then Some ([], drop (length sep) s)
  else match s with
       | [] => None
       | c :: s' =>
           match split_first sep s' with
           | Some (before, after) => Some (c :: before, after)
           | None => None
           end
       end.

(** [s.lstrip(chars)] and [s.rstrip(chars)]: [chars] is a set of
    characters. *)
Fixpoint lstrip (chars : pystr) (s : pystr) : pystr :=
  match s with
  | [] => []
  | c :: s' => if existsb (Ascii.eqb c) chars then lstrip chars s' else s
  end.

Definition rstrip (chars : pystr) (s : pystr) : pystr :=
  rev (lstrip chars (rev s)).

(** [s.lower()] on ASCII text: the letters [A] to [Z] are lowered, every
    other character is kept.  ([str.lower] is Unicode: it also lowers letters
    outside ASCII, which this function leaves as they are.) *)
Definition lower_char (c : ascii) : ascii :=
  let n := nat_of_ascii c in
  if (65 <=? n) && (n <=? 90) then ascii_of_nat (n + 32) else c.

Definition lower (s : pystr) : pystr := map lower_char s.

End PyStr.

Import PyStr.

(** ** Regular expressions used by the module *)

Module Re.

(** [[^>]*>]: the characters before the first [>], when there is one. *)
Fixpoint until_gt (s : pystr) : option pystr :=
  match s with
  | [] => None
  | c :: s' =>
      if Ascii.eqb c ">"%char then Some []
      else match until_gt s' with
           | Some body => Some (c :: body)
           | None => None
           end
  end.

(** [<[^>]*>] matched at the start of [s]: the star is greedy and cannot
    cross a [>], so the match ends at the first [>] after the [<]. *)
Definition match_tag (s : pystr) : option pystr :=
  match s with
  | c :: s' =>
      if Ascii.eqb c "<"%char
      then match until_gt s' with
           | Some body => Some ("<"%char :: body ++ [">"%char])
           | None => None
           end
      else None
  | [] => None
  end.

(** [re.findall('<[^>]*>', s)]: leftmost matches, not overlapping. *)
Fixpoint findall_tags_from (skip : nat) (s : pystr) : list pystr :=
  match s with
  | [] => []
  | _ :: s' =>
      match skip with
      | S k => findall_tags_from k s'
      | O =>
          match match_tag s with
          | Some t => t :: findall_tags_from (length t - 1) s'
          | None => findall_tags_from 0 s'
          end
      end
  end.

Definition findall_tags (s : pystr) : list pystr := findall_tags_from 0 s.

(** [re.sub('<[^>]*>', f, s)] with a replacement computed from the match;
    [re.sub(pattern, '', s)] is the instance [f := fun _ => []]. *)
Fixpoint sub_tags_from (f : pystr -> pystr) (skip : nat) (s : pystr) : pystr :=
  match s with
  | [] => []
  | c :: s' =>
      match skip with
      | S k => sub_tags_from f k s'
      | O =>
          match match_tag s with
          | Some t => f t ++ sub_tags_from f (length t - 1) s'
          | None => c :: sub_tags_from f 0 s'
          end
      end
  end.

Definition sub_tags (f : pystr -> pystr) (s : pystr) : pystr :=
  sub_tags_from f 0 s.

(** [\w] and the class [[\w']] on ASCII text: letters, digits and the
    underscore.  (On a [str] pattern [\w] is Unicode: letters and digits
    outside ASCII are word characters too, which this function does not
    know.  What is proved with it is stated for ASCII text, see [isascii].) *)
Definition is_word_char (c : ascii) : bool :=
  let n := nat_of_ascii c in
  ((48 <=? n) && (n <=? 57)) || ((65 <=? n) && (n <=? 90))
  || ((97 <=? n) && (n <=? 122)) || (n =? 95).

Definition is_spelling_char (c : ascii) : bool :=
  is_word_char c || Ascii.eqb c "'"%char.

(** [re.findall(r"[\w']+", s)]: the maximal runs of such characters.  [cur]
    is the run being read, reversed. *)
Fixpoint findall_words_from (cur : pystr) (s : pystr) : list pystr :=
  match s with
  | [] => match cur with [] => [] | _ :: _ => [rev cur] end
  | c :: s' =>
      if is_spelling_char c then findall_words_from (c :: cur) s'
      else match cur with
           | [] => findall_words_from [] s'
           | _ :: _ => rev cur :: findall_words_from [] s'
           end
  end.

Definition findall_words (s : pystr) : list pystr := findall_words_from [] s.

End Re.

Import Re.

(** ** SSML helpers of [TTS] *)

(** Exceptions the modelled code can raise. *)
Inductive pyerr : Type :=
  | TypeError
  | AttributeError
  | IndexError
  | KeyError
  | ValueError
  | OutOfVocabulary
  | OtherError (code : nat).

Inductive result (A : Type) : Type :=
  | Ok (a : A)
  | Raise (e : pyerr).
Arguments Ok {A} a.
Arguments Raise {A} e.

Definition rbind {A B} (r : result A) (k : A -> result B) : result B :=
  match r with
  | Ok a => k a
  | Raise e => Raise e
  end.

Module SSML.

Definition speak_open : pystr := str "<speak>".
Definition speak_close : pystr := str "</speak>".

(** [TTS.remove_ssml] *)
Definition remove_ssml (text : pystr) : pystr :=
  replace (str "  ") (str " ") (sub_tags (fun _ => []) text).

(** [s.split(sep, 1)[1]] and [s.split(sep, 1)[0]]: the first raises
    [IndexError] when [sep] does not occur, the second is then all of [s]. *)
Definition split1_second (sep s : pystr) : result pystr :=
  match split_first sep s with
  | Some (_, after) => Ok after
  | None => Raise IndexError
  end.

Definition split1_first (sep s : pystr) : pystr :=
  match split_first sep s with
  | Some (before, _) => before
  | None => s
  end.

(** [TTS.format_speak_tags] *)
Definition format_speak_tags (sentence : pystr) (include_tags : bool)
  : result pystr :=
  let to_speak :=
    if negb (contains speak_open sentence) && negb (contains speak_close sentence)
    then speak_open ++ sentence ++ speak_close
    else if negb (contains speak_open sentence)
    then speak_open ++ sentence
    else if negb (contains speak_close sentence)
    then sentence ++ speak_close
    else sentence in
  rbind (if negb (startswith speak_open to_speak)
         then rbind (split1_second speak_open to_speak)
                    (fun rest => Ok (speak_open ++ rest))
         else Ok to_speak)
    (fun to_speak =>
       let to_speak :=
         if negb (endswith speak_close to_speak)
         then split1_first speak_close to_speak ++ speak_close
         else to_speak in
       if bool_decide (to_speak = speak_open ++ speak_close) then Ok []
       else if include_tags then Ok to_speak
       else Ok (rstrip speak_close (lstrip speak_open to_speak))).

(** [any(supported in tag for supported in self.ssml_tags)] *)
Definition supported_tag (ssml_tags : list pystr) (tag : pystr) : bool :=
  existsb (fun supported => contains supported tag) ssml_tags.

(** ["speak" in self.ssml_tags]: list membership. *)
Definition speak_supported (ssml_tags : list pystr) : bool :=
  bool_decide (str "speak" ∈ ssml_tags).

(** One turn of the loop over the matched tags. *)
Definition filter_tag (ssml_tags : list pystr) (modify_tag : pystr -> pystr)
    (utterance tag : pystr) : pystr :=
  if supported_tag ssml_tags tag
  then replace tag (modify_tag tag) utterance
  else replace tag [] utterance.

(** [TTS.validate_ssml].  The value of [format_speak_tags] is computed and
    dropped, as in the source: only an exception of it would be seen. *)
Definition validate_ssml (ssml_tags : list pystr) (modify_tag : pystr -> pystr)
    (utterance : pystr) : result pystr :=
  rbind (if bool_decide (ssml_tags = []) || negb (speak_supported ssml_tags)
         then format_speak_tags utterance false
         else if negb (bool_decide (ssml_tags = [])) && speak_supported ssml_tags
         then format_speak_tags utterance true
         else Ok [])
    (fun _ =>
       if bool_decide (ssml_tags = []) then Ok (remove_ssml utterance)
       else
         let tags := findall_tags utterance in
         let utterance := fold_left (filter_tag ssml_tags modify_tag) tags utterance in
         Ok (replace (str "  ") (str " ") utterance)).

(** [TTS.modify_tag] of the base class. *)
Definition modify_tag_default (tag : pystr) : pystr := tag.

End SSML.

Import SSML.


(** ** Values, sessions and the collaborators outside the module *)

(** The Python values that travel through keyword arguments, configuration
    dictionaries and the dynamically typed calls of the module. *)
Inductive pyval : Type :=
  | VNone
  | VBool (b : bool)
  | VInt (n : nat)
  | VStr (s : pystr)
  | VCache (l : nat)                     (* a [TextToSpeechCache] instance *)
  | VMessage (id : nat)                  (* a bus [Message] *)
  | VSpeakMessage (ident : option pystr) (* [Message("speak", context=...)] *).

Global Instance pyval_eq_dec : EqDecision pyval.
Proof. solve_decision. Defined.

(** Truth value of [v] in a condition. *)
Definition truthy (v : pyval) : bool :=
  match v with
  | VNone => false
  | VBool b => b
  | VInt n => negb (n =? 0)
  | VStr s => match s with [] => false | _ :: _ => true end
  | VCache _ | VMessage _ | VSpeakMessage _ => true
  end.

(** Truth value of an optional string ([None] or a [str]). *)
Definition truthy_str (s : option pystr) : bool :=
  match s with
  | Some (_ :: _) => true
  | _ => false
  end.

Abbreviation pydict := (gmap pystr pyval).

(** [ovos_bus_client.session.Session], as far as the module reads it. *)
Record Session : Type := {
  session_lang : pystr;
  session_plugin_id : pystr;              (* tts_preferences["plugin_id"] *)
  session_tts_config : gmap pystr pystr   (* tts_preferences["config"] *)
}.

(** [posixpath.join(a, *p)] *)
Definition path_join (a : pystr) (p : list pystr) : pystr :=
  fold_left
    (fun path b =>
       if startswith (str "/") b then b
       else if bool_decide (path = []) || endswith (str "/") path then path ++ b
       else path ++ str "/" ++ b)
    p a.

(** Log records of [ovos_utils.log.LOG]. *)
Inductive log_level : Type := LDebug | LInfo | LWarning | LException.

Record log_record : Type := {
  log_lvl : log_level;
  log_text : pystr
}.

(** A metric event handed to [handle_metric]. *)
Record metric : Type := {
  metric_type : pystr;
  metric_fields : list (pystr * pyval)
}.

(** Modelled from the spec: [AudioFile], [PhonemeFile] and
    [TextToSpeechCache] of [ovos_plugin_manager/utils/tts_cache.py], the
    cache store.  A cache maps a sentence fingerprint to an audio artifact
    and an optional phoneme artifact; it hands out new artifact handles
    keyed by fingerprint. *)
Record AudioFile : Type := {
  audio_name : pystr;
  audio_path : pystr
}.

Record PhonemeFile : Type := {
  pho_path : pystr
}.

Record TextToSpeechCache : Type := {
  cache_config : pydict;
  cache_tts_name : pystr;
  cache_audio_ext : pystr;
  cached_sentences : gmap pystr (AudioFile * option PhonemeFile)
}.

(** Modelled from the spec: the constructor [TextToSpeechCache(config, name,
    ext)] starts with no entry. *)
Definition TextToSpeechCache_new (cfg : pydict) (name ext : pystr)
  : TextToSpeechCache :=
  {| cache_config := cfg; cache_tts_name := name; cache_audio_ext := ext;
     cached_sentences := ∅ |}.

(** Modelled from the spec: [fingerprint in cache], the store's
    [contains(fingerprint)]. *)
Definition cache_contains (c : TextToSpeechCache) (sentence_hash : pystr) : bool :=
  bool_decide (is_Some (cached_sentences c !! sentence_hash)).

(** Modelled from the spec: [cache.define_audio_file(fingerprint)] and
    [cache.define_phoneme_file(fingerprint)], the store's new handles. *)
Definition define_audio_file (c : TextToSpeechCache) (sentence_hash : pystr)
  : AudioFile :=
  let name := sentence_hash ++ str "." ++ cache_audio_ext c in
  {| audio_name := name; audio_path := path_join (cache_tts_name c) [name] |}.

Definition define_phoneme_file (c : TextToSpeechCache) (sentence_hash : pystr)
  : PhonemeFile :=
  {| pho_path := path_join (cache_tts_name c) [sentence_hash ++ str ".pho"] |}.

(** What the module takes from outside: the float type and [float()], the
    [VISIMES] table of [ovos_utils], [hash_sentence] of the cache module,
    the session manager and the ambient message of the bus client, and the
    XDG cache directory. *)
Record Externals : Type := {
  float : Type;
  py_float : pystr -> result float;       (* [float(s)], [ValueError] on a bad literal *)
  float_0_2 : float;                      (* [float(0.2)] *)
  VISIMES : gmap pystr pystr;
  hash_sentence : pystr -> pystr;
  SessionManager_get : option pyval -> Session;
  dig_for_message : option pyval;
  get_xdg_cache_save_path : pystr
}.

(** A viseme: mouth-shape code and duration. *)
Definition viseme_t (E : Externals) : Type := (pystr * float E)%type.

(** A G2P plugin. *)
Record G2P (E : Externals) : Type := {
  utterance2visemes : pystr -> pystr -> result (list (viseme_t E));
  utterance2arpa : pystr -> pyval -> result pystr
}.
Arguments utterance2visemes {E} _ _ _.
Arguments utterance2arpa {E} _ _ _.

(** ** Phonetic spellings and visemes *)

(** [TTS._replace_phonetic_spellings] *)
Definition spell_word (spellings : gmap pystr pystr) (sentence word : pystr)
  : pystr :=
  match spellings !! lower word with
  | Some spelled => replace word spelled sentence
  | None => sentence
  end.

Definition _replace_phonetic_spellings (phonetic_spelling : bool)
    (spellings : gmap pystr pystr) (sentence : pystr) : pystr :=
  if phonetic_spelling
  then fold_left (spell_word spellings) (findall_words sentence) sentence
  else sentence.

(** [VISIMES.get(pho, '4')] *)
Definition visime_code (E : Externals) (pho : pystr) : pystr :=
  default (str "4") (VISIMES E !! pho).

(** The loop of [TTS.viseme] over the tokens. *)
Fixpoint viseme_loop (E : Externals) (phones : list pystr)
    (visimes : list (viseme_t E)) : result (list (viseme_t E)) :=
  match phones with
  | [] => Ok visimes
  | token :: phones' =>
      if contains (str ":") token
      then match split_char ":"%char token with
           | [pho; dur] =>
               rbind (py_float E dur)
                 (fun d => viseme_loop E phones' (visimes ++ [(visime_code E pho, d)]))
           | _ => viseme_loop E phones' visimes
           end
      else viseme_loop E phones' (visimes ++ [(visime_code E token, float_0_2 E)])
  end.

(** [TTS.viseme]: [visimes or None]. *)
Definition viseme (E : Externals) (phonemes : option pystr)
  : result (option (list (viseme_t E))) :=
  rbind (match phonemes with
         | Some (c :: s) => viseme_loop E (split_char " "%char (c :: s)) []
         | _ => Ok []
         end)
    (fun visimes =>
       Ok (match visimes with [] => None | _ :: _ => Some visimes end)).

(** ** The process state and the monad of the stateful code *)

(** A playback item: the tuple put on [TTS.queue]. *)
Record playback_item (E : Externals) : Type := {
  item_audio : pystr;                          (* [str(audio_file)] *)
  item_viseme : option (list (viseme_t E));
  item_listen : bool;
  item_tts_id : pystr;
  item_message : pyval
}.
Arguments item_audio {E} _.
Arguments item_viseme {E} _.
Arguments item_listen {E} _.
Arguments item_tts_id {E} _.
Arguments item_message {E} _.

(** One invocation of the synthesis backend [get_tts]. *)
Record backend_call : Type := {
  call_sentence : pystr;
  call_wav_file : pystr;
  call_kwargs : pydict
}.

(** The mutable state of the process: the class attribute
    [TTSContext._caches] with the cache objects it refers to, the class
    attribute [TTS.queue], the phoneme files on disk, and the traces of
    what was logged, measured and asked of the backend. *)
Record world (E : Externals) : Type := {
  _caches : gmap pystr nat;
  heap : gmap nat TextToSpeechCache;
  queue : list (playback_item E);
  pho_files : gmap pystr pystr;
  log : list log_record;
  metrics : list metric;
  backend_calls : list backend_call
}.
Arguments _caches {E} _.
Arguments heap {E} _.
Arguments queue {E} _.
Arguments pho_files {E} _.
Arguments log {E} _.
Arguments metrics {E} _.
Arguments backend_calls {E} _.

(** A computation reads and changes the state and returns or raises; what
    it did before raising stays done. *)
Definition M (E : Externals) (A : Type) : Type :=
  world E -> result A * world E.

Definition ret {E : Externals} {A} (a : A) : M E A := fun w => (Ok a, w).

Definition raise {E : Externals} {A} (e : pyerr) : M E A := fun w => (Raise e, w).

Definition bind {E : Externals} {A B} (m : M E A) (k : A -> M E B) : M E B :=
  fun w =>
    match m w with
    | (Ok a, w') => k a w'
    | (Raise e, w') => (Raise e, w')
    end.

Definition lift {E : Externals} {A} (r : result A) : M E A := fun w => (r, w).

Declare Scope py_scope.
Delimit Scope py_scope with py.
Notation "'let*' x ':=' m 'in' k" := (bind m (fun x => k))
  (at level 10, x pattern, m at level 100, k at level 200) : py_scope.
Notation "m ;;; k" := (bind m (fun _ => k))
  (at level 100, k at level 200, right associativity) : py_scope.
Local Open Scope py_scope.

Definition LOG {E : Externals} (lvl : log_level) (text : pystr) : M E unit :=
  fun w =>
    (Ok tt,
     {| _caches := _caches w; heap := heap w; queue := queue w;
        pho_files := pho_files w;
        log := log w ++ [{| log_lvl := lvl; log_text := text |}];
        metrics := metrics w; backend_calls := backend_calls w |}).

(** The engine: the attributes of a [TTS] instance and the methods a plugin
    overrides. *)
Record TTS (E : Externals) : Type := {
  config : pydict;
  audio_ext : pystr;
  ssml_tags : list pystr;
  phonetic_spelling : bool;
  enable_cache : bool;
  log_timestamps : bool;
  spellings : gmap pystr pystr;
  g2p : option (G2P E);
  get_tts : pystr -> pystr -> pydict -> result (pystr * option pystr);
  get_tts_parameters : list pystr;   (* [inspect.signature(self.get_tts).parameters] *)
  _preprocess_sentence : pystr -> list pystr;
  modify_tag : pystr -> pystr;
  handle_metric : metric -> result unit
}.
Arguments config {E} _.
Arguments audio_ext {E} _.
Arguments ssml_tags {E} _.
Arguments phonetic_spelling {E} _.
Arguments enable_cache {E} _.
Arguments log_timestamps {E} _.
Arguments spellings {E} _.
Arguments g2p {E} _.
Arguments get_tts {E} _ _ _ _.
Arguments get_tts_parameters {E} _.
Arguments _preprocess_sentence {E} _ _.
Arguments modify_tag {E} _ _.
Arguments handle_metric {E} _ _.

(** The property [TTS.lang]: [self.config.get("lang") or 'en-us']. *)
Definition TTS_lang {E : Externals} (self : TTS E) : pyval :=
  match config self !! str "lang" with
  | Some v => if truthy v then v else VStr (str "en-us")
  | None => VStr (str "en-us")
  end.

(** [TTS.add_metric]: the handler runs, a failure of it is logged. *)
Definition add_metric {E : Externals} (self : TTS E) (metadata : metric) : M E unit :=
  fun w =>
    let w1 :=
      {| _caches := _caches w; heap := heap w; queue := queue w;
         pho_files := pho_files w; log := log w;
         metrics := metrics w ++ [metadata];
         backend_calls := backend_calls w |} in
    match handle_metric self metadata with
    | Ok _ =>
        if log_timestamps self
        then LOG LDebug (str "time delta, metric: " ++ metric_type metadata) w1
        else (Ok tt, w1)
    | Raise _ => LOG LException (str "metric handler failed") w1
    end.

Definition metric_of (type : string) : metric :=
  {| metric_type := str type; metric_fields := [] |}.

(** ** [TTSContext] *)

Record TTSContext : Type := {
  session : Session
}.

(** [TTSContext(session)]: [session or SessionManager.get()]. *)
Definition TTSContext_new (E : Externals) (session : option Session)
  : TTSContext :=
  {| session := match session with
                | Some s => s
                | None => SessionManager_get E None
                end |}.

Definition ctxt_voice (ctxt : TTSContext) : pystr :=
  default (str "default") (session_tts_config (session ctxt) !! str "voice").

Definition ctxt_lang (ctxt : TTSContext) : pystr := session_lang (session ctxt).

Definition ctxt_plugin_id (ctxt : TTSContext) : pystr :=
  session_plugin_id (session ctxt).

Definition tts_id (ctxt : TTSContext) : pystr :=
  path_join (ctxt_plugin_id ctxt) [ctxt_voice ctxt; ctxt_lang ctxt].

(** The dictionary [get_cache] falls back to. *)
Definition default_cache_config (E : Externals) (ctxt : TTSContext) : pydict :=
  <[str "min_free_percent" := VInt 75]>
  (<[str "persist_cache" := VBool false]>
  (<[str "persist_thresh" := VInt 1]>
  (<[str "preloaded_cache" :=
       VStr (get_xdg_cache_save_path E ++ str "/" ++ tts_id ctxt)]> ∅))).

(** A new object on the heap. *)
Definition fresh_loc {E : Externals} (w : world E) : nat :=
  fresh (dom (heap w)).

(** [TTSContext.get_cache]: an empty [cache_config] dictionary counts as
    absent. *)
Definition get_cache {E : Externals} (ctxt : TTSContext) (audio_ext : pystr)
    (cache_config : option pydict) : M E nat :=
  fun w =>
    let cache_config :=
      match cache_config with
      | Some c => if bool_decide (c = ∅) then default_cache_config E ctxt else c
      | None => default_cache_config E ctxt
      end in
    let w1 :=
      match _caches w !! tts_id ctxt with
      | Some _ => w
      | None =>
          let l := fresh_loc w in
          {| _caches := <[tts_id ctxt := l]> (_caches w);
             heap := <[l := TextToSpeechCache_new cache_config (tts_id ctxt) audio_ext]>
                       (heap w);
             queue := queue w; pho_files := pho_files w; log := log w;
             metrics := metrics w; backend_calls := backend_calls w |}
      end in
    match _caches w1 !! tts_id ctxt with
    | Some l => (Ok l, w1)
    | None => (Raise KeyError, w1)
    end.

(** Reading an attribute of a cache object. *)
Definition deref {E : Externals} (l : nat) : M E TextToSpeechCache :=
  fun w =>
    match heap w !! l with
    | Some c => (Ok c, w)
    | None => (Raise AttributeError, w)
    end.

(** Modelled from the spec: [pho_file.load()] and [pho_file.save(phonemes)]
    of the cache store read and write the phoneme artifact. *)
Definition pho_load {E : Externals} (f : PhonemeFile) : M E (option pystr) :=
  fun w => (Ok (pho_files w !! pho_path f), w).

Definition pho_save {E : Externals} (f : PhonemeFile) (phonemes : pystr) : M E unit :=
  fun w =>
    (Ok tt,
     {| _caches := _caches w; heap := heap w; queue := queue w;
        pho_files := <[pho_path f := phonemes]> (pho_files w);
        log := log w; metrics := metrics w;
        backend_calls := backend_calls w |}).

(** [TTSContext.get_from_cache] *)
Definition TTSContext_get_from_cache {E : Externals} (ctxt : TTSContext) (sentence : pystr)
    (audio_ext : pystr) (cache_config : option pydict)
  : M E (AudioFile * option pystr) :=
  let sentence_hash := hash_sentence E sentence in
  let* l := get_cache ctxt audio_ext cache_config in
  let* cache := deref l in
  match cached_sentences cache !! sentence_hash with
  | None => raise KeyError
  | Some (audio_file, pho_file) =>
      LOG LInfo (str "Found " ++ audio_name audio_file ++ str " in TTS cache") ;;;
      match pho_file with
      | Some f => let* phonemes := pho_load f in ret (audio_file, phonemes)
      | None => ret (audio_file, None)
      end
  end.

(** ** [TTS]: cache glue, synthesis and the pipeline *)

(** [ovos_utils.log.deprecated]: the wrapper logs the deprecation and calls
    the function with the arguments it was given. *)
Definition deprecated {E : Externals} {A} (message : string) (body : M E A)
  : M E A :=
  LOG LWarning (str message) ;;; body.

(** [TTS.get_from_cache(self, sentence)], called with the positional
    arguments [args] after [self].  The method has the one parameter
    [sentence]: a call with more or fewer arguments is a [TypeError].  (A
    single argument that is not a [str] is outside the model and is given
    the same error.) *)
Definition TTS_get_from_cache {E : Externals} (self : TTS E) (args : list pyval)
  : M E (AudioFile * option pystr) :=
  deprecated
    "get_from_cache has been deprecated, use TTSContext().get_from_cache directly"
    match args with
    | [VStr sentence] =>
        TTSContext_get_from_cache (TTSContext_new E None) sentence
          (audio_ext self) (Some (config self))
    | _ => raise TypeError
    end.

(** [cache.define_phoneme_file(h)] on whatever value [cache] is: an object
    that is not a cache has no such attribute. *)
Definition call_define_phoneme_file {E : Externals} (cache : pyval)
    (sentence_hash : pystr) : M E PhonemeFile :=
  match cache with
  | VCache l => let* c := deref l in ret (define_phoneme_file c sentence_hash)
  | _ => raise AttributeError
  end.

(** [TTS._cache_phonemes(self, sentence, cache=None, phonemes=None,
    sentence_hash=None)] *)
Definition _cache_phonemes {E : Externals} (self : TTS E) (sentence : pystr)
    (cache : pyval) (phonemes : option pystr) (sentence_hash : option pystr)
  : M E (option PhonemeFile) :=
  let sentence_hash :=
    if truthy_str sentence_hash then default [] sentence_hash
    else hash_sentence E sentence in
  let* phonemes :=
    match g2p self with
    | Some plugin =>
        if negb (truthy_str phonemes)
        then match utterance2arpa plugin sentence (TTS_lang self) with
             | Ok p => add_metric self (metric_of "tts.phonemes.g2p") ;;; ret (Some p)
             | Raise _ =>
                 add_metric self (metric_of "tts.phonemes.g2p.error") ;;; ret phonemes
             end
        else ret phonemes
    | None => ret phonemes
    end in
  if truthy_str phonemes
  then
    let* phoneme_file := call_define_phoneme_file cache sentence_hash in
    pho_save phoneme_file (default [] phonemes) ;;;
    ret (Some phoneme_file)
  else ret None.

(** [cache.cached_sentences[sentence_hash] = entry] on the cache object at
    [l]. *)
Definition cache_put {E : Externals} (l : nat) (sentence_hash : pystr)
    (entry : AudioFile * option PhonemeFile) : M E unit :=
  fun w =>
    match heap w !! l with
    | None => (Raise AttributeError, w)
    | Some c =>
        (Ok tt,
         {| _caches := _caches w;
            heap := <[l := {| cache_config := cache_config c;
                              cache_tts_name := cache_tts_name c;
                              cache_audio_ext := cache_audio_ext c;
                              cached_sentences :=
                                <[sentence_hash := entry]> (cached_sentences c) |}]>
                      (heap w);
            queue := queue w; pho_files := pho_files w; log := log w;
            metrics := metrics w; backend_calls := backend_calls w |})
    end.

(** [TTS._cache_sentence] ([audio_file.path] is kept as a string here). *)
Definition _cache_sentence {E : Externals} (self : TTS E) (sentence : pystr)
    (audio_file : AudioFile) (cache : nat) (phonemes : option pystr)
    (sentence_hash : option pystr) : M E unit :=
  let sentence_hash' :=
    if truthy_str sentence_hash then default [] sentence_hash
    else hash_sentence E sentence in
  let* pho_file :=
    _cache_phonemes self sentence (VCache cache) phonemes (Some sentence_hash') in
  cache_put cache sentence_hash' (audio_file, pho_file) ;;;
  add_metric self (metric_of "tts.synth.cached").

(** The call [self.get_tts(sentence, str(audio), **kwargs)], recorded. *)
Definition call_get_tts {E : Externals} (self : TTS E) (sentence wav_file : pystr)
    (kwargs : pydict) : M E (pystr * option pystr) :=
  fun w =>
    (get_tts self sentence wav_file kwargs,
     {| _caches := _caches w; heap := heap w; queue := queue w;
        pho_files := pho_files w; log := log w; metrics := metrics w;
        backend_calls :=
          backend_calls w ++
          [{| call_sentence := sentence; call_wav_file := wav_file;
              call_kwargs := kwargs |}] |}).

(** The keyword arguments [synth] works with after its two assignments. *)
Definition synth_kwargs (ctxt : TTSContext) (kwargs : pydict) : pydict :=
  <[str "voice" := VStr (ctxt_voice ctxt)]>
    (<[str "lang" := VStr (ctxt_lang ctxt)]> kwargs).

(** The dictionary comprehension of [synth] that keeps the parameters of
    [get_tts]. *)
Definition filter_kwargs {E : Externals} (self : TTS E) (kwargs : pydict) : pydict :=
  filter (fun kv => fst kv ∈ get_tts_parameters self
                    ∧ fst kv ∉ [str "sentence"; str "wav_file"]) kwargs.

(** [pho_file.load()] on the value [_cache_phonemes] returned. *)
Definition call_load {E : Externals} (pho_file : option PhonemeFile)
  : M E (option pystr) :=
  match pho_file with
  | Some f => pho_load f
  | None => raise AttributeError
  end.

(** [TTS.synth] *)
Definition synth {E : Externals} (self : TTS E) (sentence : pystr)
    (ctxt : option TTSContext) (kwargs : pydict)
  : M E (AudioFile * option pystr) :=
  add_metric self (metric_of "tts.synth.start") ;;;
  let sentence_hash := hash_sentence E sentence in
  let ctxt := match ctxt with Some c => c | None => TTSContext_new E None end in
  let kwargs := synth_kwargs ctxt kwargs in
  let* cache := get_cache ctxt (audio_ext self) (Some (config self)) in
  let* c := deref cache in
  if enable_cache self && cache_contains c sentence_hash
  then
    let* (audio, phonemes) :=
      TTS_get_from_cache self [VStr sentence; VCache cache] in
    let* phonemes :=
      if negb (truthy_str phonemes)
      then
        (* the second positional argument is the parameter [cache] *)
        let* pho_file :=
          _cache_phonemes self sentence (VStr sentence_hash) None None in
        call_load pho_file
      else ret phonemes in
    add_metric self
      {| metric_type := str "tts.synth.finished";
         metric_fields := [(str "cache", VBool true)] |} ;;;
    ret (audio, phonemes)
  else
    let audio := define_audio_file c sentence_hash in
    let kwargs := filter_kwargs self kwargs in
    let* (path, phonemes) := call_get_tts self sentence (audio_path audio) kwargs in
    let audio := {| audio_name := audio_name audio; audio_path := path |} in
    add_metric self (metric_of "tts.synth.finished") ;;;
    (if enable_cache self
     then _cache_sentence self sentence audio cache phonemes (Some sentence_hash)
     else ret tt) ;;;
    ret (audio, phonemes).

(** [TTS._get_visemes] *)
Definition _get_visemes {E : Externals} (self : TTS E) (phonemes : option pystr)
    (sentence : pystr) (ctxt : TTSContext) : M E (option (list (viseme_t E))) :=
  let* viseme :=
    if truthy_str phonemes then lift (viseme E phonemes)
    else match g2p self with
         | Some plugin =>
             match utterance2visemes plugin sentence (ctxt_lang ctxt) with
             | Ok v => ret (Some v)
             | Raise OutOfVocabulary => ret (Some [])
             | Raise _ =>
                 LOG LException (str "Unexpected failure in G2P plugin") ;;;
                 ret (Some [])
             end
         | None => ret (Some [])
         end in
  (match viseme with
   | Some (_ :: _) => ret tt
   | _ => LOG LDebug (str "no mouth movements available! unknown visemes for "
                      ++ sentence)
   end) ;;;
  ret viseme.

(** [TTS.queue.put(item)] *)
Definition queue_put {E : Externals} (item : playback_item E) : M E unit :=
  fun w =>
    (Ok tt,
     {| _caches := _caches w; heap := heap w; queue := queue w ++ [item];
        pho_files := pho_files w; log := log w; metrics := metrics w;
        backend_calls := backend_calls w |}).

(** The list comprehension of [_execute] that attaches the listen flag. *)
Definition flag_chunks (chunks : list pystr) (listen : bool)
  : list (pystr * bool) :=
  imap (fun i chunk =>
          (chunk, if i =? length chunks - 1 then listen else false)) chunks.

(** [self.synth(sentence, ctxt, **kwargs)] as [_execute] calls it.  [ctxt] is
    passed by position, so a keyword argument of that name is a second value
    for the same parameter: Python raises [TypeError] before the body of
    [synth] runs.  ([kwargs] is what [_execute] collected under [**kwargs]:
    it has no key [self] or [sentence], which name parameters of [_execute]
    itself.) *)
Definition call_synth {E : Externals} (self : TTS E) (sentence : pystr)
    (ctxt : TTSContext) (kwargs : pydict) : M E (AudioFile * option pystr) :=
  match kwargs !! str "ctxt" with
  | Some _ => raise TypeError
  | None => synth self sentence (Some ctxt) kwargs
  end.

(** The loop of [_execute] over the flagged chunks. *)
Fixpoint execute_chunks {E : Externals} (self : TTS E) (ctxt : TTSContext)
    (message : pyval) (kwargs : pydict) (chunks : list (pystr * bool))
  : M E unit :=
  match chunks with
  | [] => ret tt
  | (sentence, l) :: chunks' =>
      let* (audio_file, phonemes) := call_synth self sentence ctxt kwargs in
      let* viseme := _get_visemes self phonemes sentence ctxt in
      queue_put {| item_audio := audio_path audio_file; item_viseme := viseme;
                   item_listen := l; item_tts_id := tts_id ctxt;
                   item_message := message |} ;;;
      add_metric self (metric_of "tts.queued") ;;;
      execute_chunks self ctxt message kwargs chunks'
  end.

(** [kwargs.get("message") or dig_for_message() or Message("speak", ...)] *)
Definition resolve_message (E : Externals) (kwargs : pydict)
    (ident : option pystr) : pyval :=
  match kwargs !! str "message" with
  | Some v => if truthy v then v
              else match dig_for_message E with
                   | Some m => if truthy m then m else VSpeakMessage ident
                   | None => VSpeakMessage ident
                   end
  | None => match dig_for_message E with
            | Some m => if truthy m then m else VSpeakMessage ident
            | None => VSpeakMessage ident
            end
  end.

(** [TTS._execute] (the stopwatch is left out). *)
Definition _execute {E : Externals} (self : TTS E) (sentence : pystr)
    (ident : option pystr) (listen : bool) (kwargs : pydict) : M E unit :=
  let sentence :=
    _replace_phonetic_spellings (phonetic_spelling self) (spellings self) sentence in
  let chunks := _preprocess_sentence self sentence in
  let chunks := flag_chunks chunks listen in
  add_metric self
    {| metric_type := str "tts.preprocessed";
       metric_fields := [(str "n_chunks", VInt (length chunks))] |} ;;;
  let message := resolve_message E kwargs ident in
  let ctxt := TTSContext_new E (Some (SessionManager_get E (Some message))) in
  execute_chunks self ctxt message kwargs chunks.

(** [TTS.execute] *)
Definition execute {E : Externals} (self : TTS E) (sentence : pystr)
    (ident : option pystr) (listen : bool) (kwargs : pydict) : M E unit :=
  let* sentence := lift (validate_ssml (ssml_tags self) (modify_tag self) sentence) in
  add_metric self (metric_of "tts.ssml.validated") ;;;
  _execute self sentence ident listen kwargs.

(** * Notions the properties are stated with *)

(** Predicates used to state the properties of the SSML filter. *)

(** [s] has a [>]. *)
Definition has_gt (s : pystr) : bool :=
  existsb (fun c => Ascii.eqb c ">"%char) s.

Definition has_lt (s : pystr) : bool :=
  existsb (fun c => Ascii.eqb c "<"%char) s.

(** [s] has a [<] with a [>] somewhere after it: a substring [<...>]. *)
Fixpoint has_tag (s : pystr) : bool :=
  match s with
  | [] => false
  | c :: s' => (Ascii.eqb c "<"%char && has_gt s') || has_tag s'
  end.

(** A text without angle brackets. *)
Definition no_angle (s : pystr) : Prop :=
  has_gt s = false /\ has_lt s = false.

(** A tag without a [<] inside: [<body>] where [body] has neither [<] nor
    [>]. *)
Definition simple_tag (t : pystr) : bool :=
  bool_decide (match_tag t = Some t) && negb (has_lt (drop 1 t)).

(** The filter as the specification words it: one pass over the text in
    which each match of [<[^>]*>] with a supported name inside is replaced
    by its transform and every other match is deleted, the text between the
    matches being kept; then doubled spaces are collapsed. *)
Definition SSMLFilter_spec (ssml_tags : list pystr)
    (modify_tag : pystr -> pystr) (utterance : pystr) : pystr :=
  replace (str "  ") (str " ")
    (sub_tags (fun tag => if supported_tag ssml_tags tag then modify_tag tag
                          else [])
       utterance).

(** The text as the scan of the tag pattern cuts it: matched tags and the
    characters between them. *)
Inductive token : Type :=
  | Chr (c : ascii)
  | Tag (t : pystr).

Fixpoint tokenize_from (skip : nat) (s : pystr) : list token :=
  match s with
  | [] => []
  | c :: s' =>
      match skip with
      | S k => tokenize_from k s'
      | O =>
          match match_tag s with
          | Some t => Tag t :: tokenize_from (length t - 1) s'
          | None => Chr c :: tokenize_from 0 s'
          end
      end
  end.

Definition tokenize (s : pystr) : list token := tokenize_from 0 s.

Definition render (tk : token) : pystr :=
  match tk with
  | Chr c => [c]
  | Tag t => t
  end.

Definition flatten (L : list token) : pystr := flat_map render L.

(** What the filter makes of one token. *)
Definition filter_token (ssml_tags : list pystr) (modify_tag : pystr -> pystr)
    (tk : token) : list token :=
  match tk with
  | Chr c => [Chr c]
  | Tag t => if supported_tag ssml_tags t then [Tag (modify_tag t)] else []
  end.

(** Putting [new] in the place of every token [Tag t]. *)
Definition subst_token (t : pystr) (new : list token) (tk : token) : list token :=
  match tk with
  | Chr c => [Chr c]
  | Tag t' => if bool_decide (t' = t) then new else [Tag t']
  end.

(** Token lists as the scan of a text with simple tags produces them: a
    plain [<] has no [>] after it. *)
Fixpoint canonical (L : list token) : Prop :=
  match L with
  | [] => True
  | Chr c :: L' => (c <> "<"%char \/ has_gt (flatten L') = false) /\ canonical L'
  | Tag t :: L' => simple_tag t = true /\ canonical L'
  end.

(** A tag transform that the loop of [validate_ssml] applies as one pass
    would: it sends a supported simple tag to a supported simple tag and
    changes nothing when applied again.  The identity is one. *)
Definition stable_transform (ssml_tags : list pystr)
    (modify_tag : pystr -> pystr) : Prop :=
  forall t, simple_tag t = true -> supported_tag ssml_tags t = true ->
    simple_tag (modify_tag t) = true
    /\ supported_tag ssml_tags (modify_tag t) = true
    /\ modify_tag (modify_tag t) = modify_tag t.

(** A transform that renames tags in a chain. *)
Definition modify_tag_chain (tag : pystr) : pystr :=
  if bool_decide (tag = str "<a speak>") then str "<b speak>"
  else if bool_decide (tag = str "<b speak>") then str "<c speak>"
  else tag.

(** ** The phonetic-spelling pass, word by word *)

(** [s.isascii()]: every character of the text is an ASCII character.  On
    such a text [is_word_char] is Python's [\w] and [lower] is [str.lower]. *)
Definition isascii (s : pystr) : bool :=
  forallb (fun c => nat_of_ascii c <? 128) s.

(** The sentence as [[\w']+] cuts it: words, the characters between them,
    and -- once the pass is under way -- the replacements put in. *)
Inductive wtoken : Type :=
  | WSep (c : ascii)
  | WWord (w : pystr)
  | WRaw (r : pystr).

Definition flush_word (cur : pystr) : list wtoken :=
  match cur with
  | [] => []
  | _ :: _ => [WWord (rev cur)]
  end.

Fixpoint word_tokens_from (cur : pystr) (s : pystr) : list wtoken :=
  match s with
  | [] => flush_word cur
  | c :: s' =>
      if is_spelling_char c then word_tokens_from (c :: cur) s'
      else flush_word cur ++ WSep c :: word_tokens_from [] s'
  end.

Definition word_tokens (s : pystr) : list wtoken := word_tokens_from [] s.

Definition wrender (tk : wtoken) : pystr :=
  match tk with
  | WSep c => [c]
  | WWord w => w
  | WRaw r => r
  end.

Definition wflatten (L : list wtoken) : pystr := flat_map wrender L.

(** The pass as the specification words it: every word whose lowercase
    form is a key of the table is replaced, as it appears, by its phonetic
    spelling; the other words and the text between the words stay. *)
Definition spell_token (spellings : gmap pystr pystr) (tk : wtoken) : wtoken :=
  match tk with
  | WWord w =>
      match spellings !! lower w with
      | Some spelled => WRaw spelled
      | None => WWord w
      end
  | _ => tk
  end.

Definition spell_spec (spellings : gmap pystr pystr) (sentence : pystr) : pystr :=
  wflatten (map (spell_token spellings) (word_tokens sentence)).

(** A sentence on which replacing a text everywhere is replacing a word: no
    word with a spelling is part of another word of the sentence, or of a
    spelling the pass puts in. *)
Definition spelling_safe (spellings : gmap pystr pystr) (sentence : pystr) : bool :=
  let words := findall_words sentence in
  forallb
    (fun w =>
       match spellings !! lower w with
       | None => true
       | Some _ =>
           forallb (fun x => bool_decide (x = w) || negb (contains w x)) words
           && forallb (fun w' => match spellings !! lower w' with
                                 | None => true
                                 | Some spelled => negb (contains w spelled)
                                 end) words
       end)
    words.

(** Replacing the token [WWord w] by [WRaw r]. *)
Definition respell (w r : pystr) (tk : wtoken) : wtoken :=
  match tk with
  | WWord x => if bool_decide (x = w) then WRaw r else WWord x
  | _ => tk
  end.

(** Words and replacements stand between separators. *)
Definition starts_sep (L : list wtoken) : Prop :=
  match L with
  | [] => True
  | WSep _ :: _ => True
  | _ => False
  end.

Fixpoint wcanonical (L : list wtoken) : Prop :=
  match L with
  | [] => True
  | WSep c :: L' => is_spelling_char c = false /\ wcanonical L'
  | _ :: L' => starts_sep L' /\ wcanonical L'
  end.

(** A word: non-empty, of characters of the class [[\w']]. *)
Definition is_word (w : pystr) : Prop :=
  w <> [] /\ forallb is_spelling_char w = true.

Definition words_of (L : list wtoken) : list pystr :=
  omap (fun tk => match tk with WWord w => Some w | _ => None end) L.

(** What follows a word or a replacement: nothing, or a character that is
    not of a word. *)
Definition boundary (rest : pystr) : Prop :=
  match rest with
  | [] => True
  | c :: _ => is_spelling_char c = false
  end.

(** The viseme a well-formed token stands for: a bare phoneme gets the
    default duration, [phoneme:duration] the duration it names. *)
Inductive token_viseme (E : Externals) : pystr -> viseme_t E -> Prop :=
  | bare_token (token : pystr) :
      ":"%char ∉ token ->
      token_viseme E token (visime_code E token, float_0_2 E)
  | timed_token (pho dur : pystr) (d : float E) :
      ":"%char ∉ pho -> ":"%char ∉ dur ->
      py_float E dur = Ok d ->
      token_viseme E (pho ++ ":"%char :: dur) (visime_code E pho, d).

(** ** An engine to run the model on *)

(** Durations as decimal numbers, [mantissa / 10 ^ scale], read from a
    literal of digits with at most one point: a stand-in for floats. *)
Record decimal : Type := {
  mantissa : nat;
  scale : nat
}.

Definition digit_of (c : ascii) : option nat :=
  let n := nat_of_ascii c in
  if (48 <=? n) && (n <=? 57) then Some (n - 48) else None.

Fixpoint read_decimal (seen_point : bool) (acc : decimal) (s : pystr)
  : result decimal :=
  match s with
  | [] => Ok acc
  | c :: s' =>
      if Ascii.eqb c "."%char
      then if seen_point then Raise ValueError else read_decimal true acc s'
      else match digit_of c with
           | Some d =>
               read_decimal seen_point
                 {| mantissa := 10 * mantissa acc + d;
                    scale := if seen_point then S (scale acc) else scale acc |}
                 s'
           | None => Raise ValueError
           end
  end.

Definition decimal_of_str (s : pystr) : result decimal :=
  match s with
  | [] => Raise ValueError
  | _ :: _ => read_decimal false {| mantissa := 0; scale := 0 |} s
  end.

Definition demo_session : Session :=
  {| session_lang := str "en-us";
     session_plugin_id := str "ovos-tts-plugin-demo";
     session_tts_config := ∅ |}.

(** The other session has a voice of its own. *)
Definition other_session : Session :=
  {| session_lang := str "en-us";
     session_plugin_id := str "ovos-tts-plugin-demo";
     session_tts_config := {[ str "voice" := str "amy" ]} |}.

Definition demo_externals : Externals :=
  {| float := decimal;
     py_float := decimal_of_str;
     float_0_2 := {| mantissa := 2; scale := 1 |};
     VISIMES := list_to_map [(str "hh", str "0"); (str "ah", str "0");
                             (str "m", str "4"); (str "f", str "5")];
     hash_sentence := fun sentence => sentence;
     SessionManager_get := fun _ => demo_session;
     dig_for_message := None;
     get_xdg_cache_save_path := str "/tmp" |}.

(** A backend that writes where it is told and reports no phonemes. *)
Definition demo_tts : TTS demo_externals :=
  {| config := ∅;
     audio_ext := str "wav";
     ssml_tags := [str "speak"];
     phonetic_spelling := true;
     enable_cache := true;
     log_timestamps := false;
     spellings := {[ str "ovos" := str "oh voss" ]};
     g2p := None;
     get_tts := fun sentence wav_file kwargs => Ok (wav_file, None);
     get_tts_parameters := [str "sentence"; str "wav_file"; str "lang"];
     _preprocess_sentence := fun sentence => [sentence];
     modify_tag := modify_tag_default;
     handle_metric := fun _ => Ok tt |}.

(** The same engine with a preprocessing step that cuts at full stops. *)
Definition demo_tts_chunks : TTS demo_externals :=
  {| config := config demo_tts;
     audio_ext := audio_ext demo_tts;
     ssml_tags := ssml_tags demo_tts;
     phonetic_spelling := phonetic_spelling demo_tts;
     enable_cache := enable_cache demo_tts;
     log_timestamps := log_timestamps demo_tts;
     spellings := spellings demo_tts;
     g2p := g2p demo_tts;
     get_tts := get_tts demo_tts;
     get_tts_parameters := get_tts_parameters demo_tts;
     _preprocess_sentence := split_char "."%char;
     modify_tag := modify_tag demo_tts;
     handle_metric := handle_metric demo_tts |}.

(** A G2P plugin that fails on every utterance. *)
Definition failing_g2p : G2P demo_externals :=
  {| utterance2visemes := fun _ _ => Raise (OtherError 1);
     utterance2arpa := fun _ _ => Raise (OtherError 1) |}.

Definition demo_tts_g2p : TTS demo_externals :=
  {| config := config demo_tts;
     audio_ext := audio_ext demo_tts;
     ssml_tags := ssml_tags demo_tts;
     phonetic_spelling := phonetic_spelling demo_tts;
     enable_cache := enable_cache demo_tts;
     log_timestamps := log_timestamps demo_tts;
     spellings := spellings demo_tts;
     g2p := Some failing_g2p;
     get_tts := get_tts demo_tts;
     get_tts_parameters := get_tts_parameters demo_tts;
     _preprocess_sentence := _preprocess_sentence demo_tts;
     modify_tag := modify_tag demo_tts;
     handle_metric := handle_metric demo_tts |}.

(** The state of a process that has synthesized nothing yet. *)
Definition empty_world (E : Externals) : world E :=
  {| _caches := ∅; heap := ∅; queue := []; pho_files := ∅; log := [];
     metrics := []; backend_calls := [] |}.

(** The state after one [synth] of ["hello"]. *)
Definition world_after_hello : world demo_externals :=
  (synth demo_tts (str "hello") None ∅ (empty_world demo_externals)).2.

(** Two states that differ in what was logged and measured only. *)
Definition same_effects {E : Externals} (w w' : world E) : Prop :=
  _caches w' = _caches w /\ heap w' = heap w /\ queue w' = queue w
  /\ pho_files w' = pho_files w /\ backend_calls w' = backend_calls w.

(** The records [_get_visemes] can write. *)
Definition no_visemes_record (sentence : pystr) : log_record :=
  {| log_lvl := LDebug;
     log_text := str "no mouth movements available! unknown visemes for "
                 ++ sentence |}.

Definition g2p_failure_record : log_record :=
  {| log_lvl := LException; log_text := str "Unexpected failure in G2P plugin" |}.

(** A computation that neither invokes the backend nor touches the queue. *)
Definition quiet {E : Externals} {A} (m : M E A) : Prop :=
  forall w, backend_calls (m w).2 = backend_calls w /\ queue (m w).2 = queue w.

(** The registry keeps its entries from [w] to [w']. *)
Definition registry_grows {E : Externals} (w w' : world E) : Prop :=
  forall id l, _caches w !! id = Some l -> _caches w' !! id = Some l.

(** A computation under which the registry keeps its entries. *)
Definition keeps_registry {E : Externals} {A} (m : M E A) : Prop :=
  forall w, registry_grows w (m w).2.

(** Every namespace of the registry has its cache object. *)
Definition registry_ok {E : Externals} (w : world E) : Prop :=
  forall id l, _caches w !! id = Some l -> is_Some (heap w !! l).

(** A backend that always synthesizes, with phonemes [viseme] can read. *)
Definition backend_total {E : Externals} (self : TTS E) : Prop :=
  forall sentence wav_file kwargs,
    exists path phonemes v,
      get_tts self sentence wav_file kwargs = Ok (path, phonemes)
      /\ viseme E phonemes = Ok v.

(** The context [synth] resolves. *)
Definition resolve_ctxt (E : Externals) (ctxt : option TTSContext) : TTSContext :=
  match ctxt with
  | Some c => c
  | None => TTSContext_new E None
  end.

(** [item] is the playback item of [chunk]: what [synth] returned for the
    chunk and the visemes derived from it, with the flag of the chunk. *)
Definition item_of_chunk {E : Externals} (self : TTS E) (ctxt : TTSContext)
    (message : pyval) (kwargs : pydict) (chunk : pystr * bool)
    (item : playback_item E) : Prop :=
  item_listen item = chunk.2
  /\ item_tts_id item = tts_id ctxt
  /\ item_message item = message
  /\ exists (wa wb wc : world E) (audio : AudioFile) (phonemes : option pystr),
       call_synth self chunk.1 ctxt kwargs wa = (Ok (audio, phonemes), wb)
       /\ _get_visemes self phonemes chunk.1 ctxt wb = (Ok (item_viseme item), wc)
       /\ item_audio item = audio_path audio.

(** The context [_execute] works in. *)
Definition execute_ctxt (E : Externals) (kwargs : pydict) (ident : option pystr)
  : TTSContext :=
  TTSContext_new E
    (Some (SessionManager_get E (Some (resolve_message E kwargs ident)))).

(** The phonemes [_cache_phonemes] works with once it has asked the G2P
    plugin: those it was given when they are there, without a plugin, or
    when the plugin fails. *)
Definition cached_phonemes {E : Externals} (self : TTS E) (sentence : pystr)
    (phonemes : option pystr) : option pystr :=
  match g2p self with
  | Some plugin =>
      if negb (truthy_str phonemes)
      then match utterance2arpa plugin sentence (TTS_lang self) with
           | Ok p => Some p
           | Raise _ => phonemes
           end
      else phonemes
  | None => phonemes
  end.

(** The cache object [c] with one more entry. *)
Definition cache_with (c : TextToSpeechCache) (sentence_hash : pystr)
    (entry : AudioFile * option PhonemeFile) : TextToSpeechCache :=
  {| cache_config := cache_config c;
     cache_tts_name := cache_tts_name c;
     cache_audio_ext := cache_audio_ext c;
     cached_sentences := <[sentence_hash := entry]> (cached_sentences c) |}.

(** The call [synth] makes to the backend for a sentence, with the cache
    object [c] of the namespace. *)
Definition synth_call {E : Externals} (self : TTS E) (sentence : pystr)
    (ctxt : option TTSContext) (kwargs : pydict) (c : TextToSpeechCache)
  : backend_call :=
  {| call_sentence := sentence;
     call_wav_file := audio_path (define_audio_file c (hash_sentence E sentence));
     call_kwargs := filter_kwargs self (synth_kwargs (resolve_ctxt E ctxt) kwargs) |}.

(** The sentence is in the cache of the namespace of [ctxt]. *)
Definition cached {E : Externals} (w : world E) (ctxt : TTSContext)
    (sentence : pystr) : Prop :=
  exists l c,
    _caches w !! tts_id ctxt = Some l /\ heap w !! l = Some c
    /\ cache_contains c (hash_sentence E sentence) = true.

(** ** Notions of the further properties *)

(** The number of colons of a phoneme token. *)
Definition colons (token : pystr) : nat :=
  length (filter (fun c => c = ":"%char) token).

(** The spelling entries a lookup can reach: those under a key that is its
    own lowercase form. *)
Definition lowercase_keys (spellings : gmap pystr pystr) : gmap pystr pystr :=
  filter (fun kv => lower kv.1 = kv.1) spellings.

(** * Properties *)

(** ** Facts about the string operations *)

Section StrFacts.

(** Induction on the length of a string. *)
Lemma length_ind (P : pystr -> Prop) :
  (forall s, (forall s', length s' < length s -> P s') -> P s) ->
  forall s, P s.
Proof.
  intros H s. remember (length s) as n eqn:Hn.
  revert s Hn. induction (lt_wf n) as [n _ IH]. intros s ->.
  apply H. intros s' Hlt. by eapply IH.
Qed.

Lemma startswith_app (p rest : pystr) : startswith p (p ++ rest) = true.
Proof.
  induction p as [|a p IH]; simpl; [done|].
  by rewrite Ascii.eqb_refl, IH.
Qed.

Lemma startswith_inv (p s : pystr) :
  startswith p s = true -> exists rest, s = p ++ rest.
Proof.
  revert s; induction p as [|a p IH]; intros s H; simpl in *.
  - by exists s.
  - destruct s as [|b s]; [done|].
    apply andb_true_iff in H as [Hab Hps].
    apply Ascii.eqb_eq in Hab as ->.
    destruct (IH _ Hps) as [rest ->]. by exists rest.
Qed.

Lemma startswith_spec (p s : pystr) :
  startswith p s = true <-> exists rest, s = p ++ rest.
Proof.
  split; [apply startswith_inv|]. intros [rest ->]. apply startswith_app.
Qed.

Lemma contains_spec (sub s : pystr) :
  contains sub s = true <-> exists pre post, s = pre ++ sub ++ post.
Proof.
  induction s as [|c s IH]; simpl.
  - rewrite orb_false_r, startswith_spec. split.
    + intros [rest H]. exists [], rest. done.
    + intros (pre & post & H). symmetry in H.
      apply app_eq_nil in H as [-> H]. apply app_eq_nil in H as [-> ->].
      by exists [].
  - rewrite orb_true_iff, startswith_spec, IH. split.
    + intros [[rest H]|(pre & post & H)].
      * exists [], rest. done.
      * exists (c :: pre), post. by rewrite H.
    + intros (pre & post & H). destruct pre as [|c' pre]; simpl in H.
      * left. by exists post.
      * right. injection H as -> ->. by exists pre, post.
Qed.

(** Skipping [k] characters is dropping them. *)
Lemma replace_from_skip (old new : pystr) (k : nat) (s : pystr) :
  replace_from old new k s = replace_from old new 0 (drop k s).
Proof.
  revert k; induction s as [|c s IH]; intros k.
  - by destruct k.
  - destruct k as [|k]; [done|]. simpl. apply IH.
Qed.

Lemma replace_nil (old new : pystr) :
  old <> [] -> replace old new [] = [].
Proof. by destruct old. Qed.

Lemma replace_from_cons (old new : pystr) (c : ascii) (s : pystr) :
  replace_from old new 0 (c :: s)
  = if startswith old (c :: s)
    then new ++ replace_from old new (length old - 1) s
    else c :: replace_from old new 0 s.
Proof. reflexivity. Qed.

Lemma replace_hit (old new rest : pystr) :
  old <> [] ->
  replace old new (old ++ rest) = new ++ replace old new rest.
Proof.
  intros Hne. destruct old as [|a old]; [done|].
  unfold replace.
  pose proof (startswith_app (a :: old) rest) as Hst.
  rewrite <- app_comm_cons in *.
  rewrite replace_from_cons, Hst, replace_from_skip.
  replace (length (a :: old) - 1) with (length old) by (simpl; lia).
  by rewrite drop_app_length.
Qed.

Lemma replace_miss (old new : pystr) (c : ascii) (s : pystr) :
  old <> [] ->
  startswith old (c :: s) = false ->
  replace old new (c :: s) = c :: replace old new s.
Proof.
  intros Hne H. destruct old as [|a old]; [done|].
  unfold replace. by rewrite replace_from_cons, H.
Qed.

End StrFacts.

Local Arguments Ascii.eqb : simpl never.

Section TagFacts.

Lemma until_gt_none (s : pystr) : until_gt s = None <-> has_gt s = false.
Proof.
  induction s as [|c s IH]; simpl; [done|].
  destruct (Ascii.eqb c ">"%char) eqn:Hc; simpl.
  - split; discriminate.
  - rewrite <- IH. destruct (until_gt s); split; congruence.
Qed.

Lemma until_gt_some (s body : pystr) :
  until_gt s = Some body ->
  has_gt body = false /\ exists rest, s = body ++ ">"%char :: rest.
Proof.
  revert body; induction s as [|c s IH]; intros body H; simpl in H; [done|].
  destruct (Ascii.eqb c ">"%char) eqn:Hc.
  - injection H as <-. apply Ascii.eqb_eq in Hc as ->. split; [done|by exists s].
  - destruct (until_gt s) as [b|] eqn:Hb; [|done]. injection H as <-.
    destruct (IH _ eq_refl) as [Hgt [rest ->]]. split.
    + simpl. by rewrite Hc.
    + by exists rest.
Qed.

(** A match of the tag pattern is a prefix of the text, of the shape
    [<body>] with no [>] in [body]. *)
Lemma match_tag_some (s t : pystr) :
  match_tag s = Some t ->
  exists body rest,
    t = "<"%char :: body ++ [">"%char] /\ has_gt body = false /\ s = t ++ rest.
Proof.
  destruct s as [|c s]; simpl; [done|].
  destruct (Ascii.eqb c "<"%char) eqn:Hc; [|done].
  destruct (until_gt s) as [body|] eqn:Hb; [|done].
  intros [= <-]. apply Ascii.eqb_eq in Hc as ->.
  destruct (until_gt_some _ _ Hb) as [Hgt [rest ->]].
  exists body, rest. repeat split; [done|].
  simpl. by rewrite <- app_assoc.
Qed.

Lemma match_tag_none_lt (s : pystr) :
  match_tag ("<"%char :: s) = None -> has_gt s = false.
Proof.
  simpl. destruct (until_gt s) eqn:Hb; [done|]. intros _. by apply until_gt_none.
Qed.

Lemma sub_tags_from_skip (f : pystr -> pystr) (k : nat) (s : pystr) :
  sub_tags_from f k s = sub_tags_from f 0 (drop k s).
Proof.
  revert k; induction s as [|c s IH]; intros k.
  - by destruct k.
  - destruct k as [|k]; [done|]. simpl. apply IH.
Qed.

Lemma sub_tags_hit (f : pystr -> pystr) (t rest : pystr) :
  match_tag (t ++ rest) = Some t ->
  sub_tags f (t ++ rest) = f t ++ sub_tags f rest.
Proof.
  intros H. destruct (match_tag_some _ _ H) as (body & _ & Ht & _ & _).
  unfold sub_tags. destruct t as [|a t]; [done|].
  rewrite <- app_comm_cons in *. simpl. simpl in H. rewrite H.
  rewrite sub_tags_from_skip. simpl. rewrite Nat.sub_0_r.
  by rewrite drop_app_length.
Qed.

Lemma sub_tags_miss (f : pystr -> pystr) (c : ascii) (s : pystr) :
  match_tag (c :: s) = None ->
  sub_tags f (c :: s) = c :: sub_tags f s.
Proof. intros H. unfold sub_tags. simpl. simpl in H. by rewrite H. Qed.

Lemma findall_tags_from_skip (k : nat) (s : pystr) :
  findall_tags_from k s = findall_tags_from 0 (drop k s).
Proof.
  revert k; induction s as [|c s IH]; intros k.
  - by destruct k.
  - destruct k as [|k]; [done|]. simpl. apply IH.
Qed.

Lemma findall_tags_hit (t rest : pystr) :
  match_tag (t ++ rest) = Some t ->
  findall_tags (t ++ rest) = t :: findall_tags rest.
Proof.
  intros H. destruct (match_tag_some _ _ H) as (body & _ & Ht & _ & _).
  unfold findall_tags. destruct t as [|a t]; [done|].
  rewrite <- app_comm_cons in *. simpl. simpl in H. rewrite H.
  rewrite findall_tags_from_skip. simpl. rewrite Nat.sub_0_r.
  by rewrite drop_app_length.
Qed.

Lemma findall_tags_miss (c : ascii) (s : pystr) :
  match_tag (c :: s) = None ->
  findall_tags (c :: s) = findall_tags s.
Proof. intros H. unfold findall_tags. simpl. simpl in H. by rewrite H. Qed.

Lemma has_gt_app (a b : pystr) : has_gt (a ++ b) = has_gt a || has_gt b.
Proof. apply existsb_app. Qed.

(** Deleting the tags leaves no [>] where there was none. *)
Lemma strip_no_gt (s : pystr) :
  has_gt s = false -> has_gt (sub_tags (fun _ => []) s) = false.
Proof.
  induction s as [s IH] using length_ind. intros Hs.
  destruct s as [|c s]; [done|].
  destruct (match_tag (c :: s)) as [t|] eqn:Hm.
  - destruct (match_tag_some _ _ Hm) as (body & rest & -> & _ & Hrest).
    rewrite Hrest in Hs. simpl in Hs. rewrite <- app_assoc in Hs.
    rewrite has_gt_app in Hs. simpl in Hs.
    rewrite orb_true_r in Hs. done.
  - rewrite sub_tags_miss by done. simpl in *.
    apply orb_false_iff in Hs as [-> Hs]. simpl. apply IH; [simpl; lia|done].
Qed.

(** [re.sub('<[^>]*>', '', s)] has no [<...>] left. *)
Lemma strip_no_tag (s : pystr) : has_tag (sub_tags (fun _ => []) s) = false.
Proof.
  induction s as [s IH] using length_ind.
  destruct s as [|c s]; [done|].
  destruct (match_tag (c :: s)) as [t|] eqn:Hm.
  - destruct (match_tag_some _ _ Hm) as (body & rest & Ht & _ & Hrest).
    rewrite Hrest in Hm |- *. rewrite sub_tags_hit by done. simpl.
    apply IH. rewrite Hrest, length_app. subst t. simpl. lia.
  - rewrite sub_tags_miss by done. simpl.
    rewrite IH by (simpl; lia). rewrite orb_false_r.
    destruct (Ascii.eqb c "<"%char) eqn:Hc; [|done]. simpl.
    apply Ascii.eqb_eq in Hc as ->.
    apply strip_no_gt. by apply match_tag_none_lt.
Qed.

(** A replacement of texts without angle brackets neither makes nor breaks a
    [<...>]. *)
Lemma has_gt_plain_app (a b : pystr) :
  no_angle a -> has_gt (a ++ b) = has_gt b.
Proof. intros [H _]. by rewrite has_gt_app, H. Qed.

Lemma has_tag_plain_app (a b : pystr) :
  no_angle a -> has_tag (a ++ b) = has_tag b.
Proof.
  intros [_ H]. induction a as [|c a IH]; simpl in *; [done|].
  apply orb_false_iff in H as [Hc Ha]. rewrite (IH Ha).
  by rewrite Hc.
Qed.

Lemma replace_plain_angles (old new s : pystr) :
  old <> [] -> no_angle old -> no_angle new ->
  has_gt (replace old new s) = has_gt s /\
  has_tag (replace old new s) = has_tag s.
Proof.
  intros Hne Hold Hnew. induction s as [s IH] using length_ind.
  destruct s as [|c s]; [by rewrite replace_nil|].
  destruct (startswith old (c :: s)) eqn:Hst.
  - apply startswith_inv in Hst as [rest Hrest]. rewrite Hrest.
    rewrite replace_hit by done.
    rewrite !has_gt_plain_app, !has_tag_plain_app by done.
    apply IH. rewrite Hrest, length_app. destruct old; [done|simpl; lia].
  - rewrite replace_miss by done. simpl.
    destruct (IH s) as [-> ->]; [simpl; lia|]. done.
Qed.

Lemma has_tag_false_inv (s : pystr) :
  has_tag s = false ->
  forall pre mid post, s <> pre ++ "<"%char :: mid ++ ">"%char :: post.
Proof.
  intros H pre mid post ->. revert H.
  induction pre as [|c pre IH]; simpl.
  - rewrite has_gt_app. simpl. by rewrite orb_true_r.
  - intros H. apply orb_false_iff in H as [_ H]. by apply IH.
Qed.

Lemma has_tag_cons_false (c : ascii) (s : pystr) :
  has_tag (c :: s) = false -> match_tag (c :: s) = None /\ has_tag s = false.
Proof.
  simpl. intros H. apply orb_false_iff in H as [H1 H2]. split; [|done].
  unfold match_tag. destruct (Ascii.eqb c "<"%char); [|done].
  simpl in H1. apply until_gt_none in H1. by rewrite H1.
Qed.

Lemma findall_tags_no_tag (s : pystr) :
  has_tag s = false -> findall_tags s = [].
Proof.
  induction s as [|c s IH]; [done|]. intros H.
  apply has_tag_cons_false in H as [Hm Hs].
  rewrite findall_tags_miss by done. by apply IH.
Qed.

End TagFacts.

Section SpeakTags.

Lemma contains_app_l (sub a b : pystr) :
  contains sub a = true -> contains sub (a ++ b) = true.
Proof.
  rewrite !contains_spec. intros (pre & post & ->).
  exists pre, (post ++ b). by rewrite <- !app_assoc.
Qed.

Lemma split_first_contains (sep s : pystr) :
  contains sep s = true -> exists before after, split_first sep s = Some (before, after).
Proof.
  induction s as [|c s IH]; simpl.
  - rewrite orb_false_r. intros ->. eauto.
  - destruct (startswith sep (c :: s)) eqn:Hst; simpl; [eauto|].
    intros H. destruct (IH H) as (b & a & ->). eauto.
Qed.

(** [format_speak_tags] never raises: the [IndexError] of its [split] is out
    of reach. *)
Lemma format_speak_tags_returns (sentence : pystr) (include_tags : bool) :
  exists r, format_speak_tags sentence include_tags = Ok r.
Proof.
  unfold format_speak_tags. cbv zeta.
  match goal with
  | |- context [startswith speak_open ?t] => set (to_speak := t)
  end.
  assert (Hc : startswith speak_open to_speak = true
               \/ contains speak_open to_speak = true).
  { subst to_speak.
    destruct (contains speak_open sentence) eqn:Ho,
             (contains speak_close sentence) eqn:Hcl; cbn [negb andb].
    - by right.
    - right. by apply contains_app_l.
    - left. apply startswith_app.
    - left. apply startswith_app. }
  assert (Hfirst : exists ts,
    (if negb (startswith speak_open to_speak)
     then rbind (split1_second speak_open to_speak)
            (fun rest => Ok (speak_open ++ rest))
     else Ok to_speak) = Ok ts).
  { destruct (startswith speak_open to_speak) eqn:Hst; cbn [negb]; [eauto|].
    destruct Hc as [Hc|Hc]; [done|].
    unfold split1_second.
    destruct (split_first_contains _ _ Hc) as (b & a & ->). cbn [rbind]. eauto. }
  destruct Hfirst as [ts ->]. cbn [rbind].
  repeat case_match; eauto.
Qed.

(** The value of [format_speak_tags] does not reach the result of
    [validate_ssml]. *)
Lemma validate_ssml_unfold (ssml_tags : list pystr)
    (modify_tag : pystr -> pystr) (utterance : pystr) :
  validate_ssml ssml_tags modify_tag utterance
  = Ok (if bool_decide (ssml_tags = []) then remove_ssml utterance
        else replace (str "  ") (str " ")
               (fold_left (filter_tag ssml_tags modify_tag)
                  (findall_tags utterance) utterance)).
Proof.
  unfold validate_ssml.
  destruct (format_speak_tags_returns utterance false) as [r1 H1].
  destruct (format_speak_tags_returns utterance true) as [r2 H2].
  rewrite H1, H2.
  destruct (bool_decide (ssml_tags = [])), (speak_supported ssml_tags); done.
Qed.

End SpeakTags.

(** C4: with an empty [ssml_tags], [validate_ssml] returns the sentence with
    the tags deleted by [re.sub] and each pair of spaces replaced by one
    space, whatever [modify_tag] is (no tag is processed further); the
    result has no [<] followed by a [>], hence no substring [<...>]; and
    ["Hello <foo>world</foo>"] gives ["Hello world"]. *)
Theorem C4_no_tags_when_unsupported :
  forall (modify_tag : pystr -> pystr) (sentence : pystr),
    (exists result,
       validate_ssml [] modify_tag sentence = Ok result
       /\ result = replace (str "  ") (str " ") (sub_tags (fun _ => []) sentence)
       /\ findall_tags result = []
       /\ forall pre mid post,
            result <> pre ++ "<"%char :: mid ++ ">"%char :: post)
    /\ validate_ssml [] modify_tag (str "Hello <foo>world</foo>")
       = Ok (str "Hello world").
Proof.
  intros modify_tag sentence.
  assert (Htag : has_tag (remove_ssml sentence) = false).
  { unfold remove_ssml.
    destruct (replace_plain_angles (str "  ") (str " ")
                (sub_tags (fun _ => []) sentence)) as [_ ->]; try done.
    apply strip_no_tag. }
  split; [|by rewrite validate_ssml_unfold].
  exists (remove_ssml sentence). split; [by rewrite validate_ssml_unfold|].
  split; [done|]. split.
  - by apply findall_tags_no_tag.
  - by apply has_tag_false_inv.
Qed.

(** C2 on the code: [validate_ssml] calls [format_speak_tags] and drops what
    it returns, so the filter runs on the utterance as given and no [speak]
    wrapper is added: with ["speak"] supported, ["Hi"] comes back as ["Hi"]
    (the helper alone gives ["<speak>Hi</speak>"]), ["Hi</speak>"] keeps its
    lone closing tag and ["<speak>Hi"] its lone opening tag. *)
Theorem C2_speak_wrapper_not_applied :
  (forall (ssml_tags : list pystr) (modify_tag : pystr -> pystr)
          (utterance : pystr),
      ssml_tags <> [] ->
      findall_tags utterance = [] ->
      validate_ssml ssml_tags modify_tag utterance
      = Ok (replace (str "  ") (str " ") utterance))
  /\ format_speak_tags (str "Hi") true = Ok (str "<speak>Hi</speak>")
  /\ validate_ssml [str "speak"] modify_tag_default (str "Hi") = Ok (str "Hi")
  /\ validate_ssml [str "speak"] modify_tag_default (str "Hi</speak>")
     = Ok (str "Hi</speak>")
  /\ validate_ssml [str "speak"] modify_tag_default (str "<speak>Hi")
     = Ok (str "<speak>Hi").
Proof.
  split; [|by vm_compute].
  intros ssml_tags modify_tag utterance Hne Hnotag.
  rewrite validate_ssml_unfold, bool_decide_eq_false_2 by done.
  by rewrite Hnotag.
Qed.

Section Tokens.

Lemma tokenize_from_skip (k : nat) (s : pystr) :
  tokenize_from k s = tokenize_from 0 (drop k s).
Proof.
  revert k; induction s as [|c s IH]; intros k.
  - by destruct k.
  - destruct k as [|k]; [done|]. simpl. apply IH.
Qed.

Lemma tokenize_hit (t rest : pystr) :
  match_tag (t ++ rest) = Some t ->
  tokenize (t ++ rest) = Tag t :: tokenize rest.
Proof.
  intros H. destruct (match_tag_some _ _ H) as (body & _ & Ht & _ & _).
  unfold tokenize. destruct t as [|a t]; [done|].
  rewrite <- app_comm_cons in *. simpl. simpl in H. rewrite H.
  rewrite tokenize_from_skip. simpl. rewrite Nat.sub_0_r.
  by rewrite drop_app_length.
Qed.

Lemma tokenize_miss (c : ascii) (s : pystr) :
  match_tag (c :: s) = None ->
  tokenize (c :: s) = Chr c :: tokenize s.
Proof. intros H. unfold tokenize. simpl. simpl in H. by rewrite H. Qed.

(** An induction principle that follows the scan. *)
Lemma scan_ind (P : pystr -> Prop) :
  P [] ->
  (forall t rest, match_tag (t ++ rest) = Some t -> P rest -> P (t ++ rest)) ->
  (forall c s, match_tag (c :: s) = None -> P s -> P (c :: s)) ->
  forall s, P s.
Proof.
  intros Hnil Hhit Hmiss s. induction s as [s IH] using length_ind.
  destruct s as [|c s]; [done|].
  destruct (match_tag (c :: s)) as [t|] eqn:Hm.
  - destruct (match_tag_some _ _ Hm) as (body & rest & Ht & _ & Hrest).
    rewrite Hrest in Hm |- *. apply Hhit; [done|].
    apply IH. rewrite Hrest, length_app. subst t. simpl. lia.
  - apply Hmiss; [done|]. apply IH. simpl. lia.
Qed.

Lemma flatten_tokenize (s : pystr) : flatten (tokenize s) = s.
Proof.
  induction s as [|t rest Hm IH|c s Hm IH] using scan_ind; [done|..].
  - rewrite tokenize_hit by done. unfold flatten in *. simpl. by rewrite IH.
  - rewrite tokenize_miss by done. unfold flatten in *. simpl. by rewrite IH.
Qed.

Lemma findall_tags_tokenize (s : pystr) :
  findall_tags s
  = omap (fun tk => match tk with Tag t => Some t | Chr _ => None end) (tokenize s).
Proof.
  induction s as [|t rest Hm IH|c s Hm IH] using scan_ind; [done|..].
  - rewrite tokenize_hit, findall_tags_hit by done. simpl. by rewrite IH.
  - rewrite tokenize_miss, findall_tags_miss by done. simpl. by rewrite IH.
Qed.

Lemma sub_tags_tokenize (f : pystr -> pystr) (s : pystr) :
  sub_tags f s
  = flat_map (fun tk => match tk with Tag t => f t | Chr c => [c] end) (tokenize s).
Proof.
  induction s as [|t rest Hm IH|c s Hm IH] using scan_ind; [done|..].
  - rewrite tokenize_hit, sub_tags_hit by done. simpl. by rewrite IH.
  - rewrite tokenize_miss, sub_tags_miss by done. simpl. by rewrite IH.
Qed.

Lemma elem_of_findall_tags (s t : pystr) :
  t ∈ findall_tags s <-> Tag t ∈ tokenize s.
Proof.
  rewrite findall_tags_tokenize, list_elem_of_omap. split.
  - intros (tk & Hin & Htk). destruct tk; [done|]. by injection Htk as ->.
  - intros Hin. by exists (Tag t).
Qed.

(** The shape of a simple tag. *)
Lemma simple_tag_inv (t : pystr) :
  simple_tag t = true ->
  exists body, t = "<"%char :: body ++ [">"%char]
               /\ has_gt body = false /\ has_lt body = false.
Proof.
  unfold simple_tag. intros H. apply andb_true_iff in H as [Hm Hlt].
  apply bool_decide_eq_true in Hm. apply negb_true_iff in Hlt.
  destruct (match_tag_some _ _ Hm) as (body & rest & Ht & Hgt & _).
  exists body. repeat split; [done..|].
  rewrite Ht in Hlt.
  change (drop 1 ("<"%char :: body ++ [">"%char])) with (body ++ [">"%char]) in Hlt.
  unfold has_lt in *. rewrite existsb_app in Hlt.
  by apply orb_false_iff in Hlt as [-> _].
Qed.

Lemma simple_tag_has_gt (t : pystr) : simple_tag t = true -> has_gt t = true.
Proof.
  intros H. destruct (simple_tag_inv _ H) as (body & -> & _ & _).
  simpl. rewrite has_gt_app. simpl. by rewrite !orb_true_r.
Qed.

Lemma simple_tag_nonempty (t : pystr) : simple_tag t = true -> t <> [].
Proof. intros H. by destruct (simple_tag_inv _ H) as (body & -> & _). Qed.

Lemma has_gt_flatten_cons (tk : token) (L : list token) :
  has_gt (flatten (tk :: L)) = has_gt (render tk) || has_gt (flatten L).
Proof. unfold flatten. simpl. apply has_gt_app. Qed.

(** The scan of a text whose tags are simple is canonical. *)
Lemma canonical_tokenize (s : pystr) :
  forallb simple_tag (findall_tags s) = true -> canonical (tokenize s).
Proof.
  induction s as [|t rest Hm IH|c s Hm IH] using scan_ind; [done|..].
  - rewrite findall_tags_hit, tokenize_hit by done. simpl.
    intros H. apply andb_true_iff in H as [Ht Hrest]. auto.
  - rewrite findall_tags_miss, tokenize_miss by done. simpl.
    intros H. split; [|auto].
    destruct (decide (c = "<"%char)) as [->|Hc]; [right|by left].
    rewrite flatten_tokenize. by apply match_tag_none_lt.
Qed.

(** Where a text has no [>] its scan has no tag, and substitution leaves it
    alone. *)
Lemma subst_token_no_gt (t : pystr) (new L : list token) :
  canonical L -> has_gt (flatten L) = false ->
  flat_map (subst_token t new) L = L.
Proof.
  induction L as [|tk L IH]; [done|]. intros Hc Hgt.
  rewrite has_gt_flatten_cons in Hgt. apply orb_false_iff in Hgt as [Hk HL].
  destruct tk as [c|t']; simpl in *.
  - f_equal. apply IH; [tauto|done].
  - destruct Hc as [Ht' _]. apply simple_tag_has_gt in Ht'. congruence.
Qed.

Lemma canonical_subst (t : pystr) (new L : list token) :
  canonical new -> (new = [] \/ exists t', new = [Tag t']) ->
  canonical L -> canonical (flat_map (subst_token t new) L).
Proof.
  intros Hnew Hshape. induction L as [|tk L IH]; [done|]. intros Hc.
  destruct tk as [c|t']; simpl in *.
  - destruct Hc as [Hc HL]. split; [|auto].
    destruct Hc as [Hc|Hc]; [by left|right].
    by rewrite subst_token_no_gt.
  - destruct Hc as [Ht' HL]. case_bool_decide.
    + destruct Hshape as [->|[t'' ->]]; simpl; [auto|].
      split; [|auto]. simpl in Hnew. tauto.
    + simpl. auto.
Qed.

(** A text that starts with one tag starts with no other. *)
Lemma startswith_tag_eq (t t' x : pystr) :
  simple_tag t = true -> simple_tag t' = true ->
  startswith t (t' ++ x) = true -> t = t'.
Proof.
  intros Ht Ht' H.
  destruct (simple_tag_inv _ Ht) as (b & -> & Hb & _).
  destruct (simple_tag_inv _ Ht') as (b' & -> & Hb' & _).
  apply startswith_inv in H as [rest H]. simpl in H. injection H as H.
  rewrite <- !app_assoc in H. simpl in H. f_equal. f_equal.
  clear Ht Ht'. revert b' Hb' H. induction b as [|a b IH]; intros b' Hb' H.
  - destruct b' as [|a' b']; [done|]. simpl in *. injection H as -> _.
    by rewrite Ascii.eqb_refl in Hb'.
  - destruct b' as [|a' b']; simpl in *.
    + injection H as <- _. by rewrite Ascii.eqb_refl in Hb.
    + injection H as -> H. apply orb_false_iff in Hb as [_ Hb].
      apply orb_false_iff in Hb' as [_ Hb']. f_equal. by apply IH.
Qed.

(** [replace] passes over characters that are not [<] when it looks for a
    tag. *)
Lemma replace_pass (t r p x : pystr) :
  simple_tag t = true -> has_lt p = false ->
  replace t r (p ++ x) = p ++ replace t r x.
Proof.
  intros Ht Hp. pose proof (simple_tag_nonempty _ Ht) as Hne.
  destruct (simple_tag_inv _ Ht) as (b & Hb & _).
  induction p as [|c p IH]; [done|]. simpl in *.
  apply orb_false_iff in Hp as [Hc Hp].
  rewrite replace_miss; [by rewrite IH|done|].
  rewrite Hb. simpl. by rewrite Ascii.eqb_sym, Hc.
Qed.

Lemma replace_over_tag (t r t' x : pystr) :
  simple_tag t = true -> simple_tag t' = true -> t' <> t ->
  replace t r (t' ++ x) = t' ++ replace t r x.
Proof.
  intros Ht Ht' Hne.
  destruct (startswith t (t' ++ x)) eqn:Hst.
  { by apply startswith_tag_eq in Hst. }
  destruct (simple_tag_inv _ Ht') as (b' & -> & Hgt & Hlt).
  rewrite <- app_comm_cons in *.
  rewrite replace_miss; [|by apply simple_tag_nonempty|done].
  rewrite <- !app_assoc. rewrite replace_pass; [|done..].
  rewrite (replace_pass t r [">"%char] x) by done.
  simpl. by rewrite <- app_assoc.
Qed.

(** One [replace] of the loop, on tokens. *)
Lemma replace_tokens (t : pystr) (new L : list token) :
  simple_tag t = true -> canonical L ->
  replace t (flatten new) (flatten L)
  = flatten (flat_map (subst_token t new) L).
Proof.
  intros Ht. pose proof (simple_tag_nonempty _ Ht) as Hne.
  induction L as [|tk L IH]; intros Hc.
  - by rewrite replace_nil.
  - destruct tk as [c|t']; simpl in Hc.
    + destruct Hc as [Hc HL].
      change (flatten (Chr c :: L)) with (c :: flatten L).
      rewrite replace_miss; [|done|].
      * simpl. unfold flatten in *. simpl. by rewrite IH.
      * destruct (startswith t (c :: flatten L)) eqn:Hst; [|done].
        apply startswith_inv in Hst as [rest Hst].
        destruct (simple_tag_inv _ Ht) as (b & -> & _ & _).
        simpl in Hst. injection Hst as -> Hst.
        destruct Hc as [Hc|Hc]; [done|].
        rewrite Hst, <- app_assoc, has_gt_app in Hc. simpl in Hc.
        by rewrite orb_true_r in Hc.
    + destruct Hc as [Ht' HL].
      change (flatten (Tag t' :: L)) with (t' ++ flatten L).
      simpl. case_bool_decide as Heq.
      * subst t'. rewrite replace_hit by done. unfold flatten in *.
        rewrite flat_map_app. by rewrite IH.
      * rewrite replace_over_tag by done. unfold flatten in *. simpl.
        by rewrite IH.
Qed.

End Tokens.

Section FilterLoop.

Variable ssml_tags : list pystr.
Variable modify_tag : pystr -> pystr.
Hypothesis Hstable : stable_transform ssml_tags modify_tag.

Lemma flat_map_flat_map {A B C} (f : B -> list C) (g : A -> list B) (l : list A) :
  flat_map f (flat_map g l) = flat_map (fun x => flat_map f (g x)) l.
Proof.
  induction l as [|x l IH]; [done|]. simpl. by rewrite flat_map_app, IH.
Qed.

Lemma flat_map_ext_in {A B} (f g : A -> list B) (l : list A) :
  (forall x, x ∈ l -> f x = g x) -> flat_map f l = flat_map g l.
Proof.
  induction l as [|x l IH]; [done|]. intros H. simpl.
  rewrite (H x) by left. f_equal. apply IH. intros y Hy. apply H. by right.
Qed.

Lemma elem_of_flat_map {A B} (f : A -> list B) (l : list A) (y : B) :
  y ∈ flat_map f l <-> exists x, x ∈ l /\ y ∈ f x.
Proof.
  induction l as [|x l IH]; simpl.
  - split; [by intros ?%elem_of_nil|by intros (? & ?%elem_of_nil & _)].
  - rewrite elem_of_app, IH. split.
    + intros [H|(x' & H1 & H2)]; [exists x; split; [left|done]|].
      exists x'. split; [by right|done].
    + intros (x' & [->|H1]%elem_of_cons & H2); [by left|right; eauto].
Qed.

(** One turn of the loop, on tokens. *)
Lemma filter_tag_tokens (t : pystr) (L : list token) :
  simple_tag t = true -> canonical L ->
  filter_tag ssml_tags modify_tag (flatten L) t
  = flatten (flat_map (subst_token t (filter_token ssml_tags modify_tag (Tag t))) L).
Proof.
  intros Ht HL. rewrite <- replace_tokens by done.
  unfold filter_tag. simpl.
  destruct (supported_tag ssml_tags t); [|done].
  unfold flatten. simpl. by rewrite app_nil_r.
Qed.

(** The loop over the matched tags, on tokens: every tag still to be
    processed is in [ts], every other tag is a supported one the transform
    leaves alone. *)
Lemma filter_loop_tokens (ts : list pystr) (L : list token) :
  Forall (fun t => simple_tag t = true) ts ->
  canonical L ->
  (forall x, Tag x ∈ L ->
     x ∈ ts \/ (supported_tag ssml_tags x = true /\ modify_tag x = x)) ->
  fold_left (filter_tag ssml_tags modify_tag) ts (flatten L)
  = flatten (flat_map (filter_token ssml_tags modify_tag) L).
Proof.
  intros Hts. revert L. induction Hts as [|t ts Ht Hts IH]; intros L HL Htags.
  - simpl. f_equal. symmetry.
    rewrite <- (flat_map_ext_in (fun tk => [tk])).
    { clear. induction L as [|x L IH]; [done|]. simpl. by rewrite IH. }
    intros [c|x] Hin; [done|]. simpl.
    destruct (Htags x Hin) as [?%elem_of_nil|[-> ->]]; done.
  - simpl. rewrite filter_tag_tokens by done.
    set (new := filter_token ssml_tags modify_tag (Tag t)).
    assert (Hnew : canonical new /\ (new = [] \/ exists t', new = [Tag t'])).
    { subst new. simpl. destruct (supported_tag ssml_tags t) eqn:Hs.
      - destruct (Hstable t Ht Hs) as (H1 & _ & _). simpl. split; [done|eauto].
      - simpl. split; [done|by left]. }
    destruct Hnew as [Hnew1 Hnew2].
    rewrite IH.
    + f_equal. rewrite flat_map_flat_map. apply flat_map_ext_in.
      intros [c|x] _; [done|]. simpl. case_bool_decide as Heq; simpl.
      * subst x new. simpl.
        destruct (supported_tag ssml_tags t) eqn:Hs; [|done]. simpl.
        destruct (Hstable t Ht Hs) as (_ & -> & ->). done.
      * by rewrite app_nil_r.
    + by apply canonical_subst.
    + intros x Hx. apply elem_of_flat_map in Hx as ([c|t'] & Hin & Hx).
      * simpl in Hx. apply list_elem_of_singleton in Hx. done.
      * simpl in Hx. case_bool_decide as Heq.
        -- subst t' new. simpl in Hx.
           destruct (supported_tag ssml_tags t) eqn:Hs;
             [|by apply elem_of_nil in Hx].
           apply list_elem_of_singleton in Hx. injection Hx as ->.
           destruct (Hstable t Ht Hs) as (_ & H2 & H3). by right.
        -- apply list_elem_of_singleton in Hx. injection Hx as ->.
           destruct (Htags t' Hin) as [Hin'|Hfix]; [|by right].
           apply elem_of_cons in Hin' as [->|Hin']; [done|by left].
Qed.

(** The loop of [validate_ssml] is the one pass of the specification on a
    text whose tags are simple. *)
Lemma filter_loop_one_pass (utterance : pystr) :
  forallb simple_tag (findall_tags utterance) = true ->
  fold_left (filter_tag ssml_tags modify_tag) (findall_tags utterance) utterance
  = sub_tags (fun tag => if supported_tag ssml_tags tag then modify_tag tag else [])
      utterance.
Proof.
  intros Hsimple.
  pose proof (filter_loop_tokens (findall_tags utterance) (tokenize utterance)) as H.
  rewrite flatten_tokenize in H. rewrite H.
  - rewrite sub_tags_tokenize. unfold flatten. rewrite flat_map_flat_map.
    apply flat_map_ext_in. intros [c|t] _; [done|]. simpl.
    destruct (supported_tag ssml_tags t); [|done]. simpl. by rewrite app_nil_r.
  - apply Forall_forall. intros t Hin. apply list_elem_of_In in Hin.
    rewrite forallb_forall in Hsimple. by apply Hsimple.
  - by apply canonical_tokenize.
  - intros x Hx. left. by apply elem_of_findall_tags.
Qed.

End FilterLoop.

Lemma stable_transform_default (ssml_tags : list pystr) :
  stable_transform ssml_tags modify_tag_default.
Proof. intros t Ht Hs. done. Qed.




(** ** The phonetic-spelling pass *)

Section Words.

Lemma wflatten_app (L1 L2 : list wtoken) :
  wflatten (L1 ++ L2) = wflatten L1 ++ wflatten L2.
Proof. apply flat_map_app. Qed.

Lemma wflatten_flush (cur : pystr) : wflatten (flush_word cur) = rev cur.
Proof. destruct cur; [done|]. unfold wflatten. simpl. by rewrite app_nil_r. Qed.

Lemma wflatten_word_tokens_from (cur s : pystr) :
  wflatten (word_tokens_from cur s) = rev cur ++ s.
Proof.
  revert cur. induction s as [|c s IH]; intros cur; simpl.
  - by rewrite wflatten_flush, app_nil_r.
  - destruct (is_spelling_char c).
    + rewrite IH. simpl. by rewrite <- app_assoc.
    + rewrite wflatten_app, wflatten_flush.
      change (wflatten (WSep c :: ?L)) with (c :: wflatten L).
      by rewrite IH.
Qed.

Lemma wflatten_word_tokens (s : pystr) : wflatten (word_tokens s) = s.
Proof. apply wflatten_word_tokens_from. Qed.

Lemma findall_words_tokens_from (cur s : pystr) :
  findall_words_from cur s = words_of (word_tokens_from cur s).
Proof.
  revert cur. induction s as [|c s IH]; intros cur; simpl.
  - by destruct cur.
  - destruct (is_spelling_char c); [apply IH|].
    unfold words_of. rewrite omap_app. simpl. rewrite IH.
    by destruct cur.
Qed.

Lemma findall_words_tokens (s : pystr) :
  findall_words s = words_of (word_tokens s).
Proof. apply findall_words_tokens_from. Qed.

Lemma elem_of_words_of (L : list wtoken) (w : pystr) :
  w ∈ words_of L <-> WWord w ∈ L.
Proof.
  unfold words_of. rewrite list_elem_of_omap. split.
  - intros (tk & Hin & Htk). destruct tk; try done. by injection Htk as ->.
  - intros Hin. by exists (WWord w).
Qed.

Lemma wcanonical_word_tokens_from (cur s : pystr) :
  wcanonical (word_tokens_from cur s)
  /\ (cur <> [] ->
      match word_tokens_from cur s with
      | WWord _ :: L' => starts_sep L'
      | _ => False
      end).
Proof.
  revert cur. induction s as [|c s IH]; intros cur; simpl.
  - by destruct cur.
  - destruct (is_spelling_char c) eqn:Hc.
    + destruct (IH (c :: cur)) as (H1 & H2). split; [done|].
      intros _. by apply H2.
    + destruct (IH []) as (H1 & _). by destruct cur.
Qed.

Lemma wcanonical_word_tokens (s : pystr) : wcanonical (word_tokens s).
Proof. apply wcanonical_word_tokens_from. Qed.

(** The words of the scan are words. *)
Lemma is_word_tokens_from (cur s w : pystr) :
  forallb is_spelling_char cur = true ->
  WWord w ∈ word_tokens_from cur s -> is_word w.
Proof.
  revert cur. induction s as [|c s IH]; intros cur Hcur; simpl.
  - destruct cur as [|a cur]; simpl; [by intros ?%elem_of_nil|].
    intros Hin. apply list_elem_of_singleton in Hin. injection Hin as ->.
    split.
    + intros Hnil. simpl in Hnil. by destruct (rev cur).
    + rewrite forallb_forall in *. intros x Hx. apply Hcur.
      by apply in_rev.
  - destruct (is_spelling_char c) eqn:Hc.
    + apply IH. simpl. by rewrite Hc.
    + intros Hin. apply elem_of_app in Hin as [Hin|Hin].
      * destruct cur as [|a cur]; simpl in Hin; [by apply elem_of_nil in Hin|].
        apply list_elem_of_singleton in Hin. injection Hin as ->.
        split.
        -- intros Hnil. simpl in Hnil. by destruct (rev cur).
        -- rewrite forallb_forall in *. intros x Hx. apply Hcur.
           by apply in_rev.
      * apply elem_of_cons in Hin as [Hin|Hin]; [done|]. by apply (IH []).
Qed.

Lemma is_word_findall (s w : pystr) : w ∈ findall_words s -> is_word w.
Proof.
  rewrite findall_words_tokens, elem_of_words_of.
  by apply is_word_tokens_from.
Qed.

End Words.

Section Spelling.

(** A word that starts a text made of a block and what follows it either
    sits in the block or runs into what follows. *)
Lemma startswith_block (w b rest : pystr) :
  startswith w (b ++ rest) = true ->
  startswith w b = true
  \/ exists k c rest', rest = c :: rest' /\ w = b ++ c :: k.
Proof.
  revert w. induction b as [|a b IH]; intros w H.
  - destruct w as [|c k]; [by left|]. right.
    destruct rest as [|c' rest']; [done|]. simpl in H.
    apply andb_true_iff in H as [Hc _]. apply Ascii.eqb_eq in Hc as ->.
    by exists k, c', rest'.
  - destruct w as [|c k]; [by left|]. simpl in H.
    apply andb_true_iff in H as [Hc H]. apply Ascii.eqb_eq in Hc as ->.
    destruct (IH _ H) as [Hin|(k' & c' & rest' & -> & ->)].
    + left. simpl. by rewrite Ascii.eqb_refl.
    + right. by exists k', c', rest'.
Qed.

Lemma contains_startswith (w b : pystr) :
  startswith w b = true -> contains w b = true.
Proof. intros H. destruct b; simpl in *; by rewrite H. Qed.

Lemma contains_cons (w b : pystr) (c : ascii) :
  contains w (c :: b) = false -> contains w b = false.
Proof. simpl. intros H. by apply orb_false_iff in H as [_ H]. Qed.

(** [replace] passes over a block that does not hold the word. *)
Lemma replace_pass_block (w r b rest : pystr) :
  is_word w -> contains w b = false -> boundary rest ->
  replace w r (b ++ rest) = b ++ replace w r rest.
Proof.
  intros [Hne Hw] Hb Hrest. induction b as [|a b IH]; [done|].
  rewrite <- app_comm_cons. rewrite replace_miss; [|done|].
  - rewrite IH; [done|]. by apply contains_cons in Hb.
  - destruct (startswith w ((a :: b) ++ rest)) eqn:Hst; [|done].
    apply startswith_block in Hst as [Hin|(k & c & rest' & -> & ->)].
    + apply contains_startswith in Hin. congruence.
    + simpl in Hrest. rewrite forallb_app in Hw.
      apply andb_true_iff in Hw as [_ Hw]. simpl in Hw.
      rewrite Hrest in Hw. done.
Qed.

Lemma replace_pass_sep (w r : pystr) (c : ascii) (rest : pystr) :
  is_word w -> is_spelling_char c = false ->
  replace w r (c :: rest) = c :: replace w r rest.
Proof.
  intros [Hne Hw] Hc. apply replace_miss; [done|].
  destruct w as [|a w]; [done|]. simpl in *.
  destruct (Ascii.eqb a c) eqn:Heq; [|done].
  apply Ascii.eqb_eq in Heq as ->. by rewrite Hc in Hw.
Qed.

Lemma boundary_wflatten (L : list wtoken) :
  wcanonical L -> starts_sep L -> boundary (wflatten L).
Proof.
  destruct L as [|[c|w|r] L]; simpl; [done| |done..]. by intros [Hc _] _.
Qed.

(** One [replace] of the pass, on tokens: the word is in no other block. *)
Lemma replace_wtokens (w r : pystr) (L : list wtoken) :
  is_word w -> wcanonical L ->
  (forall x, WWord x ∈ L -> x <> w -> contains w x = false) ->
  (forall r', WRaw r' ∈ L -> contains w r' = false) ->
  replace w r (wflatten L) = wflatten (map (respell w r) L).
Proof.
  intros Hw. pose proof Hw as [Hne _].
  induction L as [|tk L IH]; intros Hc Hwords Hraws.
  - by rewrite replace_nil.
  - assert (IH' : replace w r (wflatten L) = wflatten (map (respell w r) L)).
    { apply IH.
      - by destruct tk; simpl in Hc; destruct Hc.
      - intros x Hx. apply Hwords. by right.
      - intros r' Hr'. apply Hraws. by right. }
    destruct tk as [c|x|r']; simpl in Hc; destruct Hc as [Hc1 Hc2].
    + change (wflatten (WSep c :: L)) with (c :: wflatten L).
      rewrite replace_pass_sep by done. simpl. unfold wflatten in *. simpl.
      by rewrite IH'.
    + change (wflatten (WWord x :: L)) with (x ++ wflatten L).
      simpl. case_bool_decide as Heq.
      * subst x. rewrite replace_hit by done. unfold wflatten in *. simpl.
        by rewrite IH'.
      * rewrite replace_pass_block; [|done|..].
        -- unfold wflatten in *. simpl. by rewrite IH'.
        -- apply Hwords; [left|done].
        -- by apply boundary_wflatten.
    + change (wflatten (WRaw r' :: L)) with (r' ++ wflatten L).
      rewrite replace_pass_block; [|done|..].
      * unfold wflatten in *. simpl. by rewrite IH'.
      * apply Hraws. left.
      * by apply boundary_wflatten.
Qed.

Lemma wcanonical_respell (w r : pystr) (L : list wtoken) :
  wcanonical L -> wcanonical (map (respell w r) L).
Proof.
  induction L as [|tk L IH]; [done|]. intros Hc.
  assert (Hs : starts_sep L -> starts_sep (map (respell w r) L)).
  { destruct L as [|[c|x|r'] L']; simpl; try done. }
  destruct tk as [c|x|r']; simpl in *.
  - destruct Hc. auto.
  - destruct Hc. case_bool_decide; simpl; auto.
  - destruct Hc. auto.
Qed.

Variable spellings : gmap pystr pystr.

(** The loop of the pass, on tokens.  [words] are the words of the
    sentence; the words still to be processed are [ts]. *)
Lemma spell_loop_tokens (words ts : list pystr) (L : list wtoken) :
  (forall w, w ∈ words -> is_word w) ->
  (forall w spelled, w ∈ words -> spellings !! lower w = Some spelled ->
     (forall x, x ∈ words -> x <> w -> contains w x = false)
     /\ (forall w' spelled', w' ∈ words ->
           spellings !! lower w' = Some spelled' -> contains w spelled' = false)) ->
  ts ⊆ words ->
  wcanonical L ->
  (forall x, WWord x ∈ L ->
     x ∈ words /\ (is_Some (spellings !! lower x) -> x ∈ ts)) ->
  (forall r', WRaw r' ∈ L ->
     exists w', w' ∈ words /\ spellings !! lower w' = Some r') ->
  fold_left (spell_word spellings) ts (wflatten L)
  = wflatten (map (spell_token spellings) L).
Proof.
  intros Hwords Hsafe. revert L.
  induction ts as [|t ts IH]; intros L Hts Hc HW HR.
  - simpl. f_equal. symmetry. rewrite <- (map_id L) at 2.
    apply map_ext_in. intros tk Hin. apply list_elem_of_In in Hin.
    destruct tk as [c|x|r']; [done| |done]. simpl.
    destruct (spellings !! lower x) eqn:Hx; [|done].
    destruct (HW x Hin) as [_ Hx']. exfalso.
    eapply elem_of_nil, Hx'. eauto.
  - assert (Ht : t ∈ words) by (apply Hts; left).
    assert (Hts' : ts ⊆ words) by (intros y Hy; apply Hts; by right).
    simpl. unfold spell_word at 2.
    destruct (spellings !! lower t) as [spelled|] eqn:Hkey.
    + destruct (Hsafe t spelled Ht Hkey) as [Hother Hraw].
      rewrite replace_wtokens.
      * rewrite IH; [|done|by apply wcanonical_respell|..].
        -- f_equal. rewrite map_map. apply map_ext_in. intros tk _.
           destruct tk as [c|x|r']; [done| |done]. simpl.
           case_bool_decide as Heq; [|done]. subst x. simpl. by rewrite Hkey.
        -- intros x Hx. apply list_elem_of_fmap in Hx as (tk & Htk & Hin).
           destruct tk as [c|y|r']; simpl in Htk; [done| |done].
           case_bool_decide as Heq; [done|]. injection Htk as ->.
           destruct (HW y Hin) as [Hy Hyts]. split; [done|].
           intros Hsome. apply Hyts in Hsome.
           apply elem_of_cons in Hsome as [->|Hsome]; done.
        -- intros r' Hr'. apply list_elem_of_fmap in Hr' as (tk & Htk & Hin).
           destruct tk as [c|y|r'']; simpl in Htk; [done| |].
           ++ case_bool_decide as Heq; [|done]. injection Htk as ->.
              by exists t.
           ++ injection Htk as ->. by apply HR.
      * by apply Hwords.
      * done.
      * intros x Hx Hne. apply Hother; [|done]. by apply HW.
      * intros r' Hr'. destruct (HR r' Hr') as (w' & Hw' & Hkey').
        by apply (Hraw w' r').
    + apply IH; [done..| |done].
      intros x Hx. destruct (HW x Hx) as [Hxw Hxts]. split; [done|].
      intros Hsome. pose proof (Hxts Hsome) as Hin.
      apply elem_of_cons in Hin as [->|Hin]; [|done].
      rewrite Hkey in Hsome. by destruct Hsome.
Qed.

(** [spelling_safe], spelled out. *)
Lemma spelling_safe_spec (sentence : pystr) :
  spelling_safe spellings sentence = true ->
  forall w spelled,
    w ∈ findall_words sentence -> spellings !! lower w = Some spelled ->
    (forall x, x ∈ findall_words sentence -> x <> w -> contains w x = false)
    /\ (forall w' spelled', w' ∈ findall_words sentence ->
          spellings !! lower w' = Some spelled' -> contains w spelled' = false).
Proof.
  unfold spelling_safe. intros H w spelled Hw Hkey.
  rewrite forallb_forall in H. apply list_elem_of_In in Hw.
  specialize (H w Hw). rewrite Hkey in H.
  apply andb_true_iff in H as [H1 H2]. rewrite forallb_forall in H1, H2. split.
  - intros x Hx Hne. apply list_elem_of_In in Hx. specialize (H1 x Hx).
    apply orb_true_iff in H1 as [H1|H1].
    + by apply bool_decide_eq_true in H1.
    + by apply negb_true_iff in H1.
  - intros w' spelled' Hw' Hkey'. apply list_elem_of_In in Hw'.
    specialize (H2 w' Hw'). rewrite Hkey' in H2. by apply negb_true_iff in H2.
Qed.

End Spelling.




(** ** Visemes from phonemes *)

(** A decidable fact about closed terms, by evaluation. *)
Ltac by_compute := apply (bool_decide_unpack _); vm_compute; exact I.

Section Viseme.

Variable E : Externals.

Lemma contains_char (c : ascii) (s : pystr) :
  contains [c] s = true <-> c ∈ s.
Proof.
  induction s as [|a s IH]; simpl.
  - split; [done|by intros ?%elem_of_nil].
  - rewrite orb_true_iff, IH, andb_true_r, elem_of_cons.
    rewrite Ascii.eqb_eq. done.
Qed.

Lemma split_char_notin (sep : ascii) (s : pystr) :
  sep ∉ s -> split_char sep s = [s].
Proof.
  induction s as [|c s IH]; [done|]. intros Hnotin.
  apply not_elem_of_cons in Hnotin as [Hc Hs]. simpl.
  destruct (Ascii.eqb c sep) eqn:Heq.
  - apply Ascii.eqb_eq in Heq. congruence.
  - by rewrite IH.
Qed.

Lemma split_char_app (sep : ascii) (a b : pystr) :
  sep ∉ a -> split_char sep (a ++ sep :: b) = a :: split_char sep b.
Proof.
  induction a as [|c a IH]; intros Hnotin; simpl.
  - by rewrite Ascii.eqb_refl.
  - apply not_elem_of_cons in Hnotin as [Hc Ha].
    destruct (Ascii.eqb c sep) eqn:Heq.
    + apply Ascii.eqb_eq in Heq. congruence.
    + by rewrite IH.
Qed.

Lemma split_char_nonempty (sep : ascii) (s : pystr) : split_char sep s <> [].
Proof.
  destruct s as [|c s]; simpl; [done|].
  destruct (Ascii.eqb c sep); [done|]. by destruct (split_char sep s).
Qed.

(** The loop of [viseme] on well-formed tokens. *)
Lemma viseme_loop_tokens (tokens : list pystr) (vs acc : list (viseme_t E)) :
  Forall2 (token_viseme E) tokens vs ->
  viseme_loop E tokens acc = Ok (acc ++ vs).
Proof.
  intros H. revert acc. induction H as [|token v tokens vs Htok _ IH]; intros acc.
  - simpl. by rewrite app_nil_r.
  - cbn [viseme_loop]. destruct Htok as [token Hbare|pho dur d Hpho Hdur Hfloat].
    + destruct (contains (str ":") token) eqn:Hc.
      { apply contains_char in Hc. done. }
      rewrite IH. by rewrite <- app_assoc.
    + destruct (contains (str ":") (pho ++ ":"%char :: dur)) eqn:Hc.
      2:{ apply not_true_iff_false in Hc. exfalso. apply Hc.
          apply contains_char. set_solver. }
      rewrite split_char_app, split_char_notin by done.
      rewrite Hfloat. cbn [rbind]. rewrite IH. by rewrite <- app_assoc.
Qed.

Lemma viseme_well_formed (phonemes : pystr) (visemes : list (viseme_t E)) :
  phonemes <> [] ->
  Forall2 (token_viseme E) (split_char " "%char phonemes) visemes ->
  viseme E (Some phonemes) = Ok (Some visemes).
Proof.
  intros Hne Htokens.
  destruct phonemes as [|c s]; [done|]. unfold viseme.
  rewrite (viseme_loop_tokens _ visemes []) by done. cbn [rbind app].
  destruct visemes; [|done].
  apply Forall2_nil_inv_r in Htokens.
  by apply split_char_nonempty in Htokens.
Qed.

End Viseme.



(** ** The cache registry *)

Section Registry.

Context {E : Externals}.

(** [get_cache] returns what the registry holds for the namespace after
    the call, and keeps every entry the registry had. *)
Lemma get_cache_hit (ctxt : TTSContext) (ext : pystr) (cfg : option pydict)
    (w : world E) (l : nat) :
  _caches w !! tts_id ctxt = Some l ->
  get_cache ctxt ext cfg w = (Ok l, w).
Proof. intros H. unfold get_cache. by rewrite !H. Qed.

Lemma get_cache_miss (ctxt : TTSContext) (ext : pystr) (cfg : option pydict)
    (w : world E) :
  _caches w !! tts_id ctxt = None ->
  exists w1 cfg',
    get_cache ctxt ext cfg w = (Ok (fresh_loc w), w1)
    /\ _caches w1 = <[tts_id ctxt := fresh_loc w]> (_caches w)
    /\ heap w !! fresh_loc w = None
    /\ heap w1
       = <[fresh_loc w := TextToSpeechCache_new cfg' (tts_id ctxt) ext]> (heap w)
    /\ queue w1 = queue w /\ pho_files w1 = pho_files w /\ log w1 = log w
    /\ metrics w1 = metrics w /\ backend_calls w1 = backend_calls w.
Proof.
  intros H. unfold get_cache. rewrite H. cbn [_caches].
  rewrite lookup_insert_eq. eexists _, _. split; [reflexivity|].
  cbn. repeat split.
  apply not_elem_of_dom. unfold fresh_loc. apply is_fresh.
Qed.

Lemma get_cache_returns (ctxt : TTSContext) (ext : pystr) (cfg : option pydict)
    (w : world E) :
  exists l w1,
    get_cache ctxt ext cfg w = (Ok l, w1)
    /\ _caches w1 !! tts_id ctxt = Some l
    /\ (forall id l', _caches w !! id = Some l' -> _caches w1 !! id = Some l')
    /\ queue w1 = queue w /\ pho_files w1 = pho_files w /\ log w1 = log w
    /\ metrics w1 = metrics w /\ backend_calls w1 = backend_calls w.
Proof.
  destruct (_caches w !! tts_id ctxt) as [l|] eqn:Hl.
  - exists l, w. rewrite (get_cache_hit _ _ _ _ _ Hl). by repeat split.
  - destruct (get_cache_miss ctxt ext cfg w Hl)
      as (w1 & cfg' & -> & Hreg & _ & _ & Hrest).
    exists (fresh_loc w), w1. split; [done|]. rewrite Hreg. split.
    { apply lookup_insert_eq. }
    split; [|done].
    intros id l' Hid. rewrite lookup_insert_ne; [done|]. congruence.
Qed.

End Registry.

(** ** Reasoning about the stateful code *)

Section Monad.

Context {E : Externals}.

Lemma bind_ok {A B} (m : M E A) (k : A -> M E B) (w w1 : world E) (a : A) :
  m w = (Ok a, w1) -> bind m k w = k a w1.
Proof. intros H. unfold bind. by rewrite H. Qed.

Lemma bind_raise {A B} (m : M E A) (k : A -> M E B) (w w1 : world E) (e : pyerr) :
  m w = (Raise e, w1) -> bind m k w = (Raise e, w1).
Proof. intros H. unfold bind. by rewrite H. Qed.

(** [add_metric] never raises, whatever the handler does. *)
Lemma add_metric_spec (self : TTS E) (md : metric) (w : world E) :
  exists w', add_metric self md w = (Ok tt, w')
             /\ same_effects w w'
             /\ metrics w' = metrics w ++ [md].
Proof.
  unfold add_metric.
  destruct (handle_metric self md); [destruct (log_timestamps self)|];
    eexists; (split; [reflexivity|]); by repeat split.
Qed.

End Monad.

(** ** Visemes from the G2P plugin *)

(** C7: with no phonemes and a G2P plugin, [_get_visemes] asks the plugin
    for [utterance2visemes] and always returns: the plugin's visemes when it
    answers; no visemes and nothing but the debug record in the log when it
    raises [OutOfVocabulary]; no visemes and an exception record in the log
    when it raises anything else.  The state is otherwise untouched, and the
    chunk whose synthesis gave no phonemes is put on the queue in every
    case. *)
Theorem C7_g2p_failures_yield_no_visemes :
  forall (E : Externals) (self : TTS E) (plugin : G2P E)
         (phonemes : option pystr) (sentence : pystr) (ctxt : TTSContext)
         (w : world E),
    truthy_str phonemes = false ->
    g2p self = Some plugin ->
    exists v w',
      _get_visemes self phonemes sentence ctxt w = (Ok v, w')
      /\ same_effects w w' /\ metrics w' = metrics w
      /\ match utterance2visemes plugin sentence (ctxt_lang ctxt) with
         | Ok [] => v = Some [] /\ log w' = log w ++ [no_visemes_record sentence]
         | Ok (x :: vs) => v = Some (x :: vs) /\ log w' = log w
         | Raise OutOfVocabulary =>
             v = Some [] /\ log w' = log w ++ [no_visemes_record sentence]
         | Raise _ =>
             v = Some []
             /\ log w' = log w ++ [g2p_failure_record; no_visemes_record sentence]
         end
      /\ forall (message : pyval) (kwargs : pydict) (l : bool)
                (audio : AudioFile) (w0 : world E),
           call_synth self sentence ctxt kwargs w0 = (Ok (audio, phonemes), w) ->
           exists w2,
             execute_chunks self ctxt message kwargs [(sentence, l)] w0
             = (Ok tt, w2)
             /\ queue w2
                = queue w ++ [{| item_audio := audio_path audio; item_viseme := v;
                                 item_listen := l; item_tts_id := tts_id ctxt;
                                 item_message := message |}].
Proof.
  intros E self plugin phonemes sentence ctxt w Hpho Hg2p.
  assert (Hv : exists v w',
    _get_visemes self phonemes sentence ctxt w = (Ok v, w')
    /\ same_effects w w' /\ metrics w' = metrics w
    /\ match utterance2visemes plugin sentence (ctxt_lang ctxt) with
       | Ok [] => v = Some [] /\ log w' = log w ++ [no_visemes_record sentence]
       | Ok (x :: vs) => v = Some (x :: vs) /\ log w' = log w
       | Raise OutOfVocabulary =>
           v = Some [] /\ log w' = log w ++ [no_visemes_record sentence]
       | Raise _ =>
           v = Some []
           /\ log w' = log w ++ [g2p_failure_record; no_visemes_record sentence]
       end).
  { unfold _get_visemes. rewrite Hpho, Hg2p.
    destruct (utterance2visemes plugin sentence (ctxt_lang ctxt)) as [[|x vs]|e].
    - eexists _, _. split; [reflexivity|]. by repeat split.
    - eexists _, _. split; [reflexivity|]. by repeat split.
    - destruct e; eexists _, _; (split; [reflexivity|]); repeat split;
        cbn; by rewrite <- ?app_assoc. }
  destruct Hv as (v & w' & Hget & Hsame & Hmet & Hcase).
  exists v, w'. repeat (split; [done|]).
  intros message kwargs l audio w0 Hsynth.
  cbn [execute_chunks]. rewrite (bind_ok _ _ _ _ _ Hsynth). cbn beta iota.
  rewrite (bind_ok _ _ _ _ _ Hget).
  set (item := {| item_audio := audio_path audio |}).
  destruct (add_metric_spec self (metric_of "tts.queued")
              {| _caches := _caches w'; heap := heap w';
                 queue := queue w' ++ [item]; pho_files := pho_files w';
                 log := log w'; metrics := metrics w';
                 backend_calls := backend_calls w' |})
    as (w2 & Hm & (_ & _ & Hq & _) & _).
  exists w2. split.
  - unfold bind at 1. unfold queue_put at 1. unfold bind. by rewrite Hm.
  - rewrite Hq. cbn. destruct Hsame as (_ & _ & -> & _). done.
Qed.

Lemma C7_g2p_failures_yield_no_visemes_witness :
  exists v w',
    _get_visemes demo_tts_g2p None (str "hello") (TTSContext_new demo_externals None)
      (empty_world demo_externals) = (Ok v, w')
    /\ v = Some []
    /\ log w' = [g2p_failure_record; no_visemes_record (str "hello")].
Proof.
  destruct (C7_g2p_failures_yield_no_visemes demo_externals demo_tts_g2p
              failing_g2p None (str "hello") (TTSContext_new demo_externals None)
              (empty_world demo_externals) eq_refl eq_refl)
    as (v & w' & Hrun & _ & _ & Hcase & _).
  exists v, w'. split; [done|]. exact Hcase.
Defined.

(** ** Synthesis and the backend *)

Create HintDb quiet.

Section Quiet.

Context {E : Externals}.

Lemma quiet_ret {A} (a : A) : quiet (ret (E:=E) a).
Proof. done. Qed.

Lemma quiet_raise {A} (e : pyerr) : quiet (raise (E:=E) (A:=A) e).
Proof. done. Qed.

Lemma quiet_lift {A} (r : result A) : quiet (lift (E:=E) r).
Proof. done. Qed.

Lemma quiet_bind {A B} (m : M E A) (k : A -> M E B) :
  quiet m -> (forall a, quiet (k a)) -> quiet (bind m k).
Proof.
  intros Hm Hk w. unfold bind. destruct (Hm w) as [H1 H2].
  destruct (m w) as [[a|e] w1]; simpl in *; [|done].
  destruct (Hk a w1) as [-> ->]. done.
Qed.

Lemma quiet_LOG (lvl : log_level) (text : pystr) : quiet (LOG (E:=E) lvl text).
Proof. done. Qed.

Lemma quiet_add_metric (self : TTS E) (md : metric) : quiet (add_metric self md).
Proof.
  intros w.
  destruct (add_metric_spec self md w) as (w' & -> & (_&_&Hq&_&Hc) & _).
  done.
Qed.

Lemma quiet_get_cache (ctxt : TTSContext) (ext : pystr) (cfg : option pydict) :
  quiet (get_cache (E:=E) ctxt ext cfg).
Proof.
  intros w. destruct (get_cache_returns ctxt ext cfg w)
    as (l & w1 & -> & _ & _ & Hq & _ & _ & _ & Hc). done.
Qed.

Lemma quiet_deref (l : nat) : quiet (deref (E:=E) l).
Proof. intros w. unfold deref. by destruct (heap w !! l). Qed.

Lemma quiet_pho_load (f : PhonemeFile) : quiet (pho_load (E:=E) f).
Proof. done. Qed.

Lemma quiet_pho_save (f : PhonemeFile) (p : pystr) : quiet (pho_save (E:=E) f p).
Proof. done. Qed.

Lemma quiet_cache_put (l : nat) (h : pystr)
    (entry : AudioFile * option PhonemeFile) :
  quiet (cache_put (E:=E) l h entry).
Proof. intros w. unfold cache_put. by destruct (heap w !! l). Qed.

End Quiet.

Hint Resolve quiet_ret quiet_raise quiet_lift quiet_LOG quiet_add_metric
  quiet_get_cache quiet_deref quiet_pho_load quiet_pho_save quiet_cache_put
  : quiet.

Ltac quiet :=
  repeat first
    [ progress auto with quiet
    | apply quiet_bind; [|intros ?]
    | match goal with
      | |- quiet (match ?x with _ => _ end) => destruct x
      | |- quiet (if ?b then _ else _) => destruct b
      | |- quiet (let (_, _) := ?x in _) => destruct x
      end ].

Section Synth.

Context {E : Externals}.

Lemma quiet_TTSContext_get_from_cache (ctxt : TTSContext) (sentence ext : pystr)
    (cfg : option pydict) :
  quiet (TTSContext_get_from_cache (E:=E) ctxt sentence ext cfg).
Proof. unfold TTSContext_get_from_cache. quiet. Qed.

Lemma quiet_TTS_get_from_cache (self : TTS E) (args : list pyval) :
  quiet (TTS_get_from_cache self args).
Proof.
  unfold TTS_get_from_cache, deprecated.
  apply quiet_bind; [auto with quiet|]. intros _.
  repeat case_match; auto using quiet_TTSContext_get_from_cache with quiet.
Qed.

Lemma quiet_cache_phonemes (self : TTS E) (sentence : pystr) (cache : pyval)
    (phonemes sentence_hash : option pystr) :
  quiet (_cache_phonemes self sentence cache phonemes sentence_hash).
Proof. unfold _cache_phonemes, call_define_phoneme_file. quiet. Qed.

Lemma quiet_cache_sentence (self : TTS E) (sentence : pystr)
    (audio : AudioFile) (cache : nat) (phonemes sentence_hash : option pystr) :
  quiet (_cache_sentence self sentence audio cache phonemes sentence_hash).
Proof.
  unfold _cache_sentence.
  apply quiet_bind; [apply quiet_cache_phonemes|]. intros ?. quiet.
Qed.

Lemma quiet_get_visemes (self : TTS E) (phonemes : option pystr)
    (sentence : pystr) (ctxt : TTSContext) :
  quiet (_get_visemes self phonemes sentence ctxt).
Proof. unfold _get_visemes. quiet. Qed.

(** The cache-hit branch of [synth]. *)
Lemma quiet_synth_hit (self : TTS E) (sentence : pystr) (l : nat) :
  quiet
    (let* (audio, phonemes) := TTS_get_from_cache self [VStr sentence; VCache l] in
     let* phonemes :=
       if negb (truthy_str phonemes)
       then
         let* pho_file :=
           _cache_phonemes self sentence (VStr (hash_sentence E sentence)) None None in
         call_load pho_file
       else ret phonemes in
     add_metric self
       {| metric_type := str "tts.synth.finished";
          metric_fields := [(str "cache", VBool true)] |} ;;;
     ret (audio, phonemes)).
Proof.
  apply quiet_bind; [apply quiet_TTS_get_from_cache|].
  intros [a p]. apply quiet_bind.
  - destruct (negb (truthy_str p)); [|auto with quiet].
    apply quiet_bind; [apply quiet_cache_phonemes|].
    intros [f|]; unfold call_load; auto with quiet.
  - intros ?. quiet.
Qed.

(** What follows the backend call in [synth]. *)
Lemma quiet_synth_store (self : TTS E) (sentence : pystr) (audio : AudioFile)
    (l : nat) (phonemes : option pystr) :
  quiet
    (add_metric self (metric_of "tts.synth.finished") ;;;
     (if enable_cache self
      then _cache_sentence self sentence audio l phonemes
             (Some (hash_sentence E sentence))
      else ret tt) ;;;
     ret (audio, phonemes)).
Proof.
  apply quiet_bind; [auto with quiet|]. intros _.
  apply quiet_bind; [|intros _; auto with quiet].
  destruct (enable_cache self); [apply quiet_cache_sentence|auto with quiet].
Qed.

(** What [synth] asks of the backend: nothing, or one call with the
    filtered keyword arguments; the queue is not its business. *)
Lemma synth_backend_calls (self : TTS E) (sentence : pystr)
    (ctxt : option TTSContext) (kwargs : pydict) (w : world E) :
  exists new,
    backend_calls (synth self sentence ctxt kwargs w).2 = backend_calls w ++ new
    /\ queue (synth self sentence ctxt kwargs w).2 = queue w
    /\ (new = []
        \/ exists wav_file,
             new = [{| call_sentence := sentence; call_wav_file := wav_file;
                       call_kwargs :=
                         filter_kwargs self
                           (synth_kwargs (resolve_ctxt E ctxt) kwargs) |}]).
Proof.
  remember (synth self sentence ctxt kwargs w) as r eqn:Hr.
  unfold synth in Hr. fold (resolve_ctxt E ctxt) in Hr.
  set (c := resolve_ctxt E ctxt) in *.
  unfold bind at 1 in Hr.
  destruct (add_metric_spec self (metric_of "tts.synth.start") w)
    as (w1 & Hm & (_&_&Hq1&_&Hc1) & _).
  rewrite Hm in Hr. clear Hm.
  unfold bind at 1 in Hr.
  destruct (quiet_get_cache c (audio_ext self) (Some (config self)) w1) as [Hc2 Hq2].
  destruct (get_cache c (audio_ext self) (Some (config self)) w1) as [[l|e] w2];
    simpl in Hc2, Hq2.
  2:{ subst r. exists []. rewrite app_nil_r. simpl.
      split; [congruence|]. split; [congruence|]. by left. }
  unfold bind at 1 in Hr.
  destruct (quiet_deref l w2) as [Hc3 Hq3].
  destruct (deref l w2) as [[cache|e] w3]; simpl in Hc3, Hq3.
  2:{ subst r. exists []. rewrite app_nil_r. simpl.
      split; [congruence|]. split; [congruence|]. by left. }
  destruct (enable_cache self && cache_contains cache (hash_sentence E sentence)).
  - exists []. rewrite app_nil_r. subst r.
    destruct (quiet_synth_hit self sentence l w3) as [-> ->].
    split; [congruence|]. split; [congruence|]. by left.
  - eexists. unfold bind at 1 in Hr. unfold call_get_tts at 1 in Hr. cbn beta in Hr.
    match type of Hr with
    | context [get_tts self sentence ?a ?b] =>
        destruct (get_tts self sentence a b) as [[path pho]|e]
    end; cbn beta iota in Hr; subst r.
    + match goal with
      | |- context [bind ?m ?k ?w] => destruct (quiet_synth_store self sentence
          {| audio_name := audio_name (define_audio_file cache (hash_sentence E sentence));
             audio_path := path |} l pho w) as [-> ->]
      end.
      simpl. rewrite Hc3, Hc2, Hc1, Hq3, Hq2, Hq1.
      repeat split. right. eexists. reflexivity.
    + simpl. rewrite Hc3, Hc2, Hc1, Hq3, Hq2, Hq1.
      repeat split. right. eexists. reflexivity.
Qed.

End Synth.

(** C10: [synth] sets the entries ["lang"] and ["voice"] of the keyword
    arguments to the language and voice of the resolved context before it
    filters them by the parameters of [get_tts]; whatever the caller gave
    under these keys, every call [synth] makes to the backend carries the
    filtered dictionary, in which ["lang"] and ["voice"], when they are
    there, are the values of the context. *)
Theorem C10_lang_voice_overwritten :
  forall (E : Externals) (self : TTS E) (sentence : pystr)
         (ctxt : option TTSContext) (kwargs : pydict) (w : world E),
    synth_kwargs (resolve_ctxt E ctxt) kwargs !! str "lang"
    = Some (VStr (ctxt_lang (resolve_ctxt E ctxt)))
    /\ synth_kwargs (resolve_ctxt E ctxt) kwargs !! str "voice"
       = Some (VStr (ctxt_voice (resolve_ctxt E ctxt)))
    /\ exists new,
         backend_calls (synth self sentence ctxt kwargs w).2
         = backend_calls w ++ new
         /\ Forall
              (fun call =>
                 call_kwargs call
                 = filter_kwargs self (synth_kwargs (resolve_ctxt E ctxt) kwargs)
                 /\ (forall v, call_kwargs call !! str "lang" = Some v ->
                               v = VStr (ctxt_lang (resolve_ctxt E ctxt)))
                 /\ (forall v, call_kwargs call !! str "voice" = Some v ->
                               v = VStr (ctxt_voice (resolve_ctxt E ctxt))))
              new.
Proof.
  intros E self sentence ctxt kwargs w.
  set (c := resolve_ctxt E ctxt).
  assert (Hlang : synth_kwargs c kwargs !! str "lang" = Some (VStr (ctxt_lang c))).
  { unfold synth_kwargs. rewrite lookup_insert_ne by done.
    apply lookup_insert_eq. }
  assert (Hvoice : synth_kwargs c kwargs !! str "voice" = Some (VStr (ctxt_voice c))).
  { unfold synth_kwargs. apply lookup_insert_eq. }
  split; [done|]. split; [done|].
  destruct (synth_backend_calls self sentence ctxt kwargs w)
    as (new & Hcalls & _ & Hnew).
  exists new. split; [done|].
  destruct Hnew as [->|[wav ->]]; [constructor|].
  constructor; [|constructor]. cbn [call_kwargs]. fold c. split; [done|].
  unfold filter_kwargs. split; intros v Hv;
    apply map_lookup_filter_Some in Hv as [Hv _]; congruence.
Qed.

Section Hit.

Context {E : Externals}.

(** A call of [TTS.get_from_cache] with two arguments. *)
Lemma TTS_get_from_cache_two_args (self : TTS E) (a b : pyval) (w : world E) :
  exists w',
    TTS_get_from_cache self [a; b] w = (Raise TypeError, w')
    /\ same_effects w w' /\ metrics w' = metrics w.
Proof.
  unfold TTS_get_from_cache, deprecated.
  eexists. split.
  - unfold bind, LOG. destruct a; reflexivity.
  - by repeat split.
Qed.

End Hit.

(** C1 on the code: when caching is enabled and the fingerprint of the
    sentence is in the cache of the namespace, [synth] raises [TypeError]:
    it calls [self.get_from_cache(sentence, cache)], and that method takes
    the sentence only.  No cached audio is returned; the backend is not
    invoked, and no phoneme file is written either. *)
Theorem C1_cache_hit_raises_TypeError :
  forall (E : Externals) (self : TTS E) (sentence : pystr)
         (ctxt : option TTSContext) (kwargs : pydict) (w : world E)
         (l : nat) (cache : TextToSpeechCache),
    enable_cache self = true ->
    _caches w !! tts_id (resolve_ctxt E ctxt) = Some l ->
    heap w !! l = Some cache ->
    cache_contains cache (hash_sentence E sentence) = true ->
    exists w',
      synth self sentence ctxt kwargs w = (Raise TypeError, w')
      /\ backend_calls w' = backend_calls w
      /\ heap w' = heap w
      /\ pho_files w' = pho_files w.
Proof.
  intros E self sentence ctxt kwargs w l cache Hen Hreg Hheap Hin.
  unfold synth. fold (resolve_ctxt E ctxt).
  destruct (add_metric_spec self (metric_of "tts.synth.start") w)
    as (w1 & Hm & (Hr1 & Hh1 & _ & Hp1 & Hc1) & _).
  rewrite (bind_ok _ _ _ _ _ Hm).
  rewrite (bind_ok _ _ _ w1 l).
  2:{ apply get_cache_hit. by rewrite Hr1. }
  rewrite (bind_ok _ _ _ w1 cache).
  2:{ unfold deref. by rewrite Hh1, Hheap. }
  rewrite Hen, Hin. cbn [andb].
  destruct (TTS_get_from_cache_two_args self (VStr sentence) (VCache l) w1)
    as (w' & Hget & (_ & Hh2 & _ & Hp2 & Hc2) & _).
  exists w'. split.
  - by apply bind_raise.
  - repeat split; congruence.
Qed.

(** The second [synth] of a sentence: the first one asked the backend and
    filled the cache, the second one raises. *)
Lemma C1_cache_hit_raises_TypeError_witness :
  (synth demo_tts (str "hello") None ∅ (empty_world demo_externals)).1
  = Ok ({| audio_name := str "hello.wav";
           audio_path := str "ovos-tts-plugin-demo/default/en-us/hello.wav" |},
        None)
  /\ length (backend_calls world_after_hello) = 1
  /\ exists w',
       synth demo_tts (str "hello") None ∅ world_after_hello
       = (Raise TypeError, w')
       /\ backend_calls w' = backend_calls world_after_hello
       /\ heap w' = heap world_after_hello
       /\ pho_files w' = pho_files world_after_hello.
Proof.
  split; [by vm_compute|]. split; [by vm_compute|].
  eapply (C1_cache_hit_raises_TypeError demo_externals demo_tts (str "hello")
            None ∅ world_after_hello);
    vm_compute; reflexivity.
Defined.

(** ** The pipeline *)

Section Execute.

Context {E : Externals}.

Lemma flag_chunks_lookup (chunks : list pystr) (listen : bool) (i : nat) :
  flag_chunks chunks listen !! i
  = (fun chunk => (chunk, if i =? length chunks - 1 then listen else false))
      <$> chunks !! i.
Proof. unfold flag_chunks. apply list_lookup_imap. Qed.

Lemma flag_chunks_length (chunks : list pystr) (listen : bool) :
  length (flag_chunks chunks listen) = length chunks.
Proof. unfold flag_chunks. apply length_imap. Qed.

(** The call of [synth] by the loop: refused when the keyword arguments
    name [ctxt], and the call of [synth] otherwise. *)
Lemma call_synth_cases (self : TTS E) (sentence : pystr) (ctxt : TTSContext)
    (kwargs : pydict) (w : world E) :
  (is_Some (kwargs !! str "ctxt")
   /\ call_synth self sentence ctxt kwargs w = (Raise TypeError, w))
  \/ (kwargs !! str "ctxt" = None
      /\ call_synth self sentence ctxt kwargs w
         = synth self sentence (Some ctxt) kwargs w).
Proof.
  unfold call_synth. destruct (kwargs !! str "ctxt") as [v|]; [left|right].
  - split; [by exists v|done].
  - done.
Qed.

Lemma call_synth_ok (self : TTS E) (sentence : pystr) (ctxt : TTSContext)
    (kwargs : pydict) (w w' : world E) (x : AudioFile * option pystr) :
  call_synth self sentence ctxt kwargs w = (Ok x, w') ->
  kwargs !! str "ctxt" = None
  /\ synth self sentence (Some ctxt) kwargs w = (Ok x, w').
Proof.
  destruct (call_synth_cases self sentence ctxt kwargs w) as [[_ ->]|[Hk ->]];
    [done|]. by intros ->.
Qed.

(** The loop puts one item per chunk on the queue, in the order of the
    chunks, up to the chunk at which it raises, if it does. *)
Lemma execute_chunks_queue (self : TTS E) (ctxt : TTSContext) (message : pyval)
    (kwargs : pydict) (chunks : list (pystr * bool)) (w w' : world E)
    (r : result unit) :
  execute_chunks self ctxt message kwargs chunks w = (r, w') ->
  exists items,
    queue w' = queue w ++ items
    /\ Forall2 (item_of_chunk self ctxt message kwargs)
         (take (length items) chunks) items
    /\ (r = Ok tt -> length items = length chunks)
    /\ (forall e, r = Raise e -> length items < length chunks).
Proof.
  revert w. induction chunks as [|[sentence l] chunks IH]; intros w Hrun.
  - injection Hrun as <- <-. exists []. simpl. by rewrite app_nil_r.
  - cbn [execute_chunks] in Hrun.
    assert (Hq1 : queue (call_synth self sentence ctxt kwargs w).2 = queue w).
    { destruct (call_synth_cases self sentence ctxt kwargs w) as [[_ ->]|[_ ->]];
        [done|].
      by destruct (synth_backend_calls self sentence (Some ctxt) kwargs w)
        as (_ & _ & Hq1 & _). }
    unfold bind at 1 in Hrun.
    destruct (call_synth self sentence ctxt kwargs w) as [[[audio pho]|e] w1]
      eqn:Hsynth; simpl in Hq1.
    2:{ injection Hrun as <- <-. exists []. simpl. rewrite app_nil_r.
        repeat split; [done..|]. intros _ _. lia. }
    destruct (quiet_get_visemes self pho sentence ctxt w1) as [_ Hq2].
    unfold bind at 1 in Hrun.
    destruct (_get_visemes self pho sentence ctxt w1) as [[v|e] w2] eqn:Hvis;
      simpl in Hq2.
    2:{ injection Hrun as <- <-. exists []. simpl. rewrite app_nil_r.
        split; [congruence|]. split; [done|]. split; [done|].
        intros _ _. lia. }
    unfold bind at 1 in Hrun. unfold queue_put at 1 in Hrun.
    set (item := {| item_audio := audio_path audio; item_viseme := v;
                    item_listen := l; item_tts_id := tts_id ctxt;
                    item_message := message |}) in *.
    set (w3 := {| _caches := _caches w2; heap := heap w2;
                  queue := queue w2 ++ [item]; pho_files := pho_files w2;
                  log := log w2; metrics := metrics w2;
                  backend_calls := backend_calls w2 |}) in *.
    unfold bind at 1 in Hrun.
    destruct (add_metric_spec self (metric_of "tts.queued") w3)
      as (w4 & Hm & (_ & _ & Hq4 & _) & _).
    rewrite Hm in Hrun.
    destruct (IH w4 Hrun) as (items & Hq & Hitems & Hlen & Hlt).
    exists (item :: items). split; [|split; [|split]].
    + rewrite Hq, Hq4. subst w3. simpl. rewrite Hq2, Hq1.
      by rewrite <- app_assoc.
    + simpl. constructor; [|done]. repeat split. eauto 10.
    + intros Hok. simpl. f_equal. by apply Hlen.
    + intros e He. simpl. specialize (Hlt e He). lia.
Qed.

End Execute.

(** With the cache out of the way and a backend that succeeds the
    pipeline returns. *)
Section Returns.

Context {E : Externals}.

Lemma add_metric_returns (self : TTS E) (md : metric) (w : world E) :
  add_metric self md w = (Ok tt, (add_metric self md w).2).
Proof. by destruct (add_metric_spec self md w) as (w' & -> & _). Qed.

Lemma add_metric_same_effects (self : TTS E) (md : metric) (w : world E) :
  same_effects w (add_metric self md w).2.
Proof. by destruct (add_metric_spec self md w) as (w' & -> & H & _). Qed.

Lemma registry_ok_same_effects (w w' : world E) :
  same_effects w w' -> registry_ok w -> registry_ok w'.
Proof.
  intros (Hr & Hh & _) Hok id l. rewrite Hr, Hh. apply Hok.
Qed.

Lemma get_cache_registry_ok (ctxt : TTSContext) (ext : pystr)
    (cfg : option pydict) (w : world E) :
  registry_ok w ->
  exists l w1 c,
    get_cache ctxt ext cfg w = (Ok l, w1)
    /\ heap w1 !! l = Some c /\ registry_ok w1.
Proof.
  intros Hok. destruct (_caches w !! tts_id ctxt) as [l|] eqn:Hl.
  - destruct (Hok _ _ Hl) as [c Hc]. exists l, w, c.
    by rewrite (get_cache_hit _ _ _ _ _ Hl).
  - destruct (get_cache_miss ctxt ext cfg w Hl)
      as (w1 & cfg' & -> & Hreg & Hfresh & Hheap & _).
    eexists _, w1, _. split; [done|]. rewrite Hheap. split.
    { apply lookup_insert_eq. }
    intros id l'. rewrite Hreg, Hheap.
    destruct (decide (id = tts_id ctxt)) as [->|Hne].
    + rewrite lookup_insert_eq. intros [= <-]. rewrite lookup_insert_eq. eauto.
    + rewrite lookup_insert_ne by done. intros Hid.
      destruct (Hok _ _ Hid) as [c Hc].
      rewrite lookup_insert_ne; [eauto|]. congruence.
Qed.

(** Without the cache [synth] returns what the backend returns. *)
Lemma synth_returns_without_cache (self : TTS E) (sentence : pystr)
    (ctxt : option TTSContext) (kwargs : pydict) (w : world E) :
  enable_cache self = false -> backend_total self -> registry_ok w ->
  exists audio phonemes v w',
    synth self sentence ctxt kwargs w = (Ok (audio, phonemes), w')
    /\ viseme E phonemes = Ok v /\ registry_ok w'.
Proof.
  intros Hen Hback Hok. unfold synth.
  destruct (add_metric_spec self (metric_of "tts.synth.start") w)
    as (w1 & Hm1 & Hsame1 & _).
  rewrite (bind_ok _ _ _ _ _ Hm1).
  destruct (get_cache_registry_ok
              (match ctxt with Some c => c | None => TTSContext_new E None end)
              (audio_ext self) (Some (config self)) w1)
    as (l & w2 & c & Hget & Hheap & Hok2).
  { by eapply registry_ok_same_effects. }
  rewrite (bind_ok _ _ _ _ _ Hget).
  rewrite (bind_ok _ _ _ w2 c) by (unfold deref; by rewrite Hheap).
  rewrite Hen. cbn [andb]. cbn beta iota.
  unfold bind at 1. unfold call_get_tts at 1.
  match goal with
  | |- context [get_tts self sentence ?a ?b] =>
      destruct (Hback sentence a b) as (path & pho & v & Hb & Hv)
  end.
  eexists _, pho, v, _. rewrite Hb. cbn beta iota.
  unfold bind at 1. rewrite add_metric_returns. cbn beta iota.
  split; [reflexivity|]. split; [done|].
  eapply registry_ok_same_effects; [apply add_metric_same_effects|].
  intros id l'. simpl. apply Hok2.
Qed.

(** [_get_visemes] returns when [viseme] reads the phonemes. *)
Lemma get_visemes_returns (self : TTS E) (phonemes : option pystr)
    (sentence : pystr) (ctxt : TTSContext) (w : world E)
    (v : option (list (viseme_t E))) :
  viseme E phonemes = Ok v ->
  exists v' w',
    _get_visemes self phonemes sentence ctxt w = (Ok v', w')
    /\ same_effects w w'.
Proof.
  intros Hv. unfold _get_visemes.
  destruct (truthy_str phonemes).
  - rewrite Hv. destruct v as [[|x vs]|];
      eexists _, _; (split; [reflexivity|]); by repeat split.
  - destruct (g2p self) as [plugin|].
    + destruct (utterance2visemes plugin sentence (ctxt_lang ctxt)) as [[|x vs]|e];
        [..|destruct e];
        eexists _, _; (split; [reflexivity|]); by repeat split.
    + eexists _, _. split; [reflexivity|]. by repeat split.
Qed.

Lemma execute_chunks_returns (self : TTS E) (ctxt : TTSContext) (message : pyval)
    (kwargs : pydict) (chunks : list (pystr * bool)) (w : world E) :
  enable_cache self = false -> backend_total self ->
  kwargs !! str "ctxt" = None -> registry_ok w ->
  exists w', execute_chunks self ctxt message kwargs chunks w = (Ok tt, w').
Proof.
  intros Hen Hback Hkw. revert w.
  induction chunks as [|[sentence l] chunks IH]; intros w Hok; [by eexists|].
  cbn [execute_chunks].
  destruct (synth_returns_without_cache self sentence (Some ctxt) kwargs w)
    as (audio & pho & v & w1 & Hsynth & Hv & Hok1); [done..|].
  assert (Hcall : call_synth self sentence ctxt kwargs w = (Ok (audio, pho), w1)).
  { unfold call_synth. by rewrite Hkw. }
  clear Hsynth. rename Hcall into Hsynth.
  rewrite (bind_ok _ _ _ _ _ Hsynth). cbn beta iota.
  destruct (get_visemes_returns self pho sentence ctxt w1 v Hv)
    as (v' & w2 & Hvis & Hsame2).
  rewrite (bind_ok _ _ _ _ _ Hvis).
  unfold bind at 1. unfold queue_put at 1. cbn beta iota.
  unfold bind at 1. rewrite add_metric_returns. cbn beta iota.
  apply IH.
  eapply registry_ok_same_effects; [apply add_metric_same_effects|].
  intros id l'. simpl.
  eapply (registry_ok_same_effects w1 w2); done.
Qed.

Lemma execute_returns_without_cache (self : TTS E) (sentence : pystr)
    (ident : option pystr) (listen : bool) (kwargs : pydict) (w : world E) :
  enable_cache self = false -> backend_total self ->
  kwargs !! str "ctxt" = None -> registry_ok w ->
  exists w', execute self sentence ident listen kwargs w = (Ok tt, w').
Proof.
  intros Hen Hback Hkw Hok. unfold execute. rewrite validate_ssml_unfold.
  unfold bind at 1. unfold lift. cbn beta iota.
  destruct (add_metric_spec self (metric_of "tts.ssml.validated") w)
    as (w1 & Hm1 & Hsame1 & _).
  rewrite (bind_ok _ _ _ _ _ Hm1).
  unfold _execute.
  unfold bind at 1. rewrite add_metric_returns. cbn beta iota.
  apply execute_chunks_returns; [done..|].
  eapply registry_ok_same_effects; [apply add_metric_same_effects|].
  by eapply registry_ok_same_effects.
Qed.

End Returns.

(** ** What [synth] does to the cache *)

Section CacheGlue.

Context {E : Externals}.

Lemma deref_ok (l : nat) (c : TextToSpeechCache) (w : world E) :
  heap w !! l = Some c -> deref l w = (Ok c, w).
Proof. intros H. unfold deref. by rewrite H. Qed.

(** [_cache_phonemes] on a cache object. *)
Lemma cache_phonemes_spec (self : TTS E) (sentence : pystr) (l : nat)
    (c : TextToSpeechCache) (phonemes sentence_hash : option pystr) (w : world E) :
  heap w !! l = Some c ->
  let h := if truthy_str sentence_hash then default [] sentence_hash
           else hash_sentence E sentence in
  let final := cached_phonemes self sentence phonemes in
  exists w',
    _cache_phonemes self sentence (VCache l) phonemes sentence_hash w
    = (Ok (if truthy_str final then Some (define_phoneme_file c h) else None), w')
    /\ _caches w' = _caches w /\ heap w' = heap w /\ queue w' = queue w
    /\ backend_calls w' = backend_calls w
    /\ pho_files w'
       = if truthy_str final
         then <[pho_path (define_phoneme_file c h) := default [] final]> (pho_files w)
         else pho_files w.
Proof.
  intros Hl h final. unfold _cache_phonemes. fold h.
  assert (Hfirst : exists w1,
    (match g2p self with
     | Some plugin =>
         if negb (truthy_str phonemes)
         then match utterance2arpa plugin sentence (TTS_lang self) with
              | Ok p => add_metric self (metric_of "tts.phonemes.g2p") ;;; ret (Some p)
              | Raise _ =>
                  add_metric self (metric_of "tts.phonemes.g2p.error") ;;; ret phonemes
              end
         else ret phonemes
     | None => ret phonemes
     end) w = (Ok final, w1) /\ same_effects w w1).
  { subst final. unfold cached_phonemes.
    destruct (g2p self) as [plugin|]; [|by eexists].
    destruct (negb (truthy_str phonemes)); [|by eexists].
    destruct (utterance2arpa plugin sentence (TTS_lang self)) as [p|e];
      (eexists; split;
       [rewrite (bind_ok _ _ _ _ _ (add_metric_returns _ _ _)); reflexivity
       |apply add_metric_same_effects]). }
  destruct Hfirst as (w1 & H1 & Hr1 & Hh1 & Hq1 & Hp1 & Hc1).
  rewrite (bind_ok _ _ _ _ _ H1).
  destruct (truthy_str final).
  - unfold call_define_phoneme_file.
    rewrite (bind_ok _ _ _ w1 (define_phoneme_file c h)).
    2:{ rewrite (bind_ok _ _ _ w1 c); [done|]. apply deref_ok. by rewrite Hh1. }
    eexists. split; [reflexivity|]. cbn. by rewrite Hp1.
  - eexists. split; [reflexivity|]. done.
Qed.

(** [_cache_sentence] on a cache object: the entry is stored. *)
Lemma cache_sentence_spec (self : TTS E) (sentence : pystr) (audio : AudioFile)
    (l : nat) (c : TextToSpeechCache) (phonemes sentence_hash : option pystr)
    (w : world E) :
  heap w !! l = Some c ->
  let h := if truthy_str sentence_hash then default [] sentence_hash
           else hash_sentence E sentence in
  let final := cached_phonemes self sentence phonemes in
  let pho_file := if truthy_str final then Some (define_phoneme_file c h) else None in
  exists w',
    _cache_sentence self sentence audio l phonemes sentence_hash w = (Ok tt, w')
    /\ _caches w' = _caches w
    /\ heap w' = <[l := cache_with c h (audio, pho_file)]> (heap w)
    /\ queue w' = queue w /\ backend_calls w' = backend_calls w
    /\ pho_files w'
       = if truthy_str final
         then <[pho_path (define_phoneme_file c h) := default [] final]> (pho_files w)
         else pho_files w.
Proof.
  intros Hl h final pho_file. unfold _cache_sentence. fold h.
  destruct (cache_phonemes_spec self sentence l c phonemes (Some h) w Hl)
    as (w1 & H1 & Hr1 & Hh1 & Hq1 & Hc1 & Hp1).
  assert (Hh : (if truthy_str (Some h) then default [] (Some h)
                else hash_sentence E sentence) = h).
  { subst h. destruct sentence_hash as [[|a s]|]; simpl; try done;
      by destruct (hash_sentence E sentence). }
  rewrite Hh in H1. fold final in H1, Hp1. rewrite Hh in Hp1.
  rewrite (bind_ok _ _ _ _ _ H1). fold pho_file.
  assert (H2 : exists w2,
    cache_put l h (audio, pho_file) w1 = (Ok tt, w2)
    /\ _caches w2 = _caches w1
    /\ heap w2 = <[l := cache_with c h (audio, pho_file)]> (heap w1)
    /\ queue w2 = queue w1 /\ backend_calls w2 = backend_calls w1
    /\ pho_files w2 = pho_files w1).
  { unfold cache_put. rewrite Hh1, Hl. by eexists. }
  destruct H2 as (w2 & H2 & Hr2 & Hh2 & Hq2 & Hc2 & Hp2).
  rewrite (bind_ok _ _ _ _ _ H2).
  exists (add_metric self (metric_of "tts.synth.cached") w2).2.
  split; [apply add_metric_returns|].
  destruct (add_metric_same_effects self (metric_of "tts.synth.cached") w2)
    as (Hr3 & Hh3 & Hq3 & Hp3 & Hc3).
  rewrite Hr3, Hh3, Hq3, Hp3, Hc3, Hr2, Hh2, Hq2, Hc2, Hp2, Hr1, Hh1, Hq1, Hc1.
  done.
Qed.

End CacheGlue.

Section SynthCases.

Context {E : Externals}.

(** The registry before and after the [get_cache] of [synth]. *)
Lemma get_cache_cases (ctxt : TTSContext) (ext : pystr) (cfg : option pydict)
    (w : world E) :
  exists l w1,
    get_cache ctxt ext cfg w = (Ok l, w1)
    /\ _caches w1 !! tts_id ctxt = Some l
    /\ ((_caches w !! tts_id ctxt = Some l /\ w1 = w)
        \/ (_caches w !! tts_id ctxt = None /\ l = fresh_loc w
            /\ heap w !! l = None
            /\ _caches w1 = <[tts_id ctxt := l]> (_caches w)
            /\ exists cfg',
                 heap w1 = <[l := TextToSpeechCache_new cfg' (tts_id ctxt) ext]> (heap w)))
    /\ queue w1 = queue w /\ pho_files w1 = pho_files w
    /\ backend_calls w1 = backend_calls w.
Proof.
  destruct (_caches w !! tts_id ctxt) as [l|] eqn:Hreg.
  - exists l, w. split; [by apply get_cache_hit|]. split; [done|].
    split; [by left|done].
  - destruct (get_cache_miss ctxt ext cfg w Hreg)
      as (w1 & cfg' & Hget & Hr & Hfresh & Hheap & Hq & Hp & _ & _ & Hc).
    exists (fresh_loc w), w1. split; [done|]. split.
    { rewrite Hr. apply lookup_insert_eq. }
    split; [|done]. right. repeat split; try done. by exists cfg'.
Qed.

(** The runs of [synth]: the cache object of the namespace is found or
    made, and then [synth] fails on a cached sentence, or asks the backend
    and stores what it gets. *)
Lemma synth_cases (self : TTS E) (sentence : pystr) (ctxt : option TTSContext)
    (kwargs : pydict) (w : world E) :
  let id := tts_id (resolve_ctxt E ctxt) in
  let h := hash_sentence E sentence in
  exists l w1,
    _caches w1 !! id = Some l
    /\ ((_caches w !! id = Some l /\ _caches w1 = _caches w /\ heap w1 = heap w)
        \/ (_caches w !! id = None /\ l = fresh_loc w /\ heap w !! l = None
            /\ _caches w1 = <[id := l]> (_caches w)
            /\ exists cfg',
                 heap w1
                 = <[l := TextToSpeechCache_new cfg' id (audio_ext self)]> (heap w)))
    /\ queue w1 = queue w /\ pho_files w1 = pho_files w
    /\ backend_calls w1 = backend_calls w
    /\ match heap w1 !! l with
       | None => synth self sentence ctxt kwargs w = (Raise AttributeError, w1)
       | Some c =>
           if enable_cache self && cache_contains c h
           then exists w',
                  synth self sentence ctxt kwargs w = (Raise TypeError, w')
                  /\ same_effects w1 w'
           else
             match get_tts self sentence (call_wav_file (synth_call self sentence ctxt kwargs c))
                     (call_kwargs (synth_call self sentence ctxt kwargs c)) with
             | Raise e =>
                 exists w',
                   synth self sentence ctxt kwargs w = (Raise e, w')
                   /\ _caches w' = _caches w1 /\ heap w' = heap w1
                   /\ queue w' = queue w1 /\ pho_files w' = pho_files w1
                   /\ backend_calls w'
                      = backend_calls w1 ++ [synth_call self sentence ctxt kwargs c]
             | Ok (path, phonemes) =>
                 let audio := {| audio_name := audio_name (define_audio_file c h);
                                 audio_path := path |} in
                 let final := cached_phonemes self sentence phonemes in
                 exists w',
                   synth self sentence ctxt kwargs w = (Ok (audio, phonemes), w')
                   /\ _caches w' = _caches w1 /\ queue w' = queue w1
                   /\ backend_calls w'
                      = backend_calls w1 ++ [synth_call self sentence ctxt kwargs c]
                   /\ if enable_cache self
                      then heap w'
                           = <[l := cache_with c h
                                      (audio,
                                       if truthy_str final
                                       then Some (define_phoneme_file c h) else None)]>
                               (heap w1)
                           /\ pho_files w'
                              = (if truthy_str final
                                 then <[pho_path (define_phoneme_file c h)
                                        := default [] final]> (pho_files w1)
                                 else pho_files w1)
                      else heap w' = heap w1 /\ pho_files w' = pho_files w1
             end
       end.
Proof.
  intros id h.
  set (w0 := (add_metric self (metric_of "tts.synth.start") w).2).
  destruct (add_metric_same_effects self (metric_of "tts.synth.start") w)
    as (Hr0 & Hh0 & Hq0 & Hp0 & Hc0). fold w0 in Hr0, Hh0, Hq0, Hp0, Hc0.
  destruct (get_cache_cases (resolve_ctxt E ctxt) (audio_ext self)
              (Some (config self)) w0)
    as (l & w1 & Hget & Hreg & Hcases & Hq1 & Hp1 & Hc1).
  fold id in Hreg, Hcases.
  assert (Hsyn : forall (B : Type) (k : nat -> M E B),
    (add_metric self (metric_of "tts.synth.start") ;;;
     let* cache := get_cache (resolve_ctxt E ctxt) (audio_ext self)
                     (Some (config self)) in
     k cache) w = k l w1).
  { intros B k.
    rewrite (bind_ok _ _ _ _ _ (add_metric_returns self _ w)). fold w0.
    by rewrite (bind_ok _ _ _ _ _ Hget). }
  exists l, w1. split; [done|]. split.
  { destruct Hcases as [[Hin ->]|(Hnone & -> & Hfresh & Hr & cfg' & Hheap)].
    - left. by rewrite <- Hr0, <- Hh0.
    - assert (Hfl : fresh_loc w0 = fresh_loc w).
      { unfold fresh_loc. by rewrite Hh0. }
      right. rewrite <- Hfl, <- Hr0, <- Hh0.
      split; [done|]. split; [done|]. split; [done|]. split; [done|].
      by exists cfg'. }
  split; [congruence|]. split; [congruence|]. split; [congruence|].
  unfold synth. fold (resolve_ctxt E ctxt). fold h. rewrite Hsyn.
  destruct (heap w1 !! l) as [c|] eqn:Hl.
  2:{ unfold bind, deref. by rewrite Hl. }
  rewrite (bind_ok _ _ _ _ _ (deref_ok l c w1 Hl)).
  destruct (enable_cache self && cache_contains c h) eqn:Hhit.
  { destruct (TTS_get_from_cache_two_args self (VStr sentence) (VCache l) w1)
      as (w' & Hgetc & Hse & _).
    exists w'. split; [by apply bind_raise|done]. }
  unfold synth_call at 1 2. cbn [call_wav_file call_kwargs]. fold h.
  set (wav := audio_path (define_audio_file c h)).
  set (kw := filter_kwargs self (synth_kwargs (resolve_ctxt E ctxt) kwargs)).
  set (w2 := {| _caches := _caches w1; heap := heap w1; queue := queue w1;
                pho_files := pho_files w1; log := log w1; metrics := metrics w1;
                backend_calls :=
                  backend_calls w1 ++
                  [{| call_sentence := sentence; call_wav_file := wav;
                      call_kwargs := kw |}] |}).
  assert (Hcall : call_get_tts self sentence wav kw w1
                  = (get_tts self sentence wav kw, w2)) by done.
  destruct (get_tts self sentence wav kw) as [[path pho]|e] eqn:Hg.
  2:{ exists w2. split; [by apply bind_raise|]. done. }
  cbv zeta. rewrite (bind_ok _ _ _ _ _ Hcall). cbn beta iota.
  set (audio := {| audio_name := audio_name (define_audio_file c h);
                   audio_path := path |}).
  set (w3 := (add_metric self (metric_of "tts.synth.finished") w2).2).
  destruct (add_metric_same_effects self (metric_of "tts.synth.finished") w2)
    as (Hr3 & Hh3 & Hq3 & Hp3 & Hc3). fold w3 in Hr3, Hh3, Hq3, Hp3, Hc3.
  rewrite (bind_ok _ _ _ _ _ (add_metric_returns self _ w2)). fold w3.
  destruct (enable_cache self) eqn:Hen.
  - assert (Hl3 : heap w3 !! l = Some c) by by rewrite Hh3.
    destruct (cache_sentence_spec self sentence audio l c pho (Some h) w3 Hl3)
      as (w4 & H4 & Hr4 & Hh4 & Hq4 & Hc4 & Hp4).
    assert (Hh : (if truthy_str (Some h) then default [] (Some h)
                  else hash_sentence E sentence) = h).
    { simpl. subst h. by destruct (hash_sentence E sentence). }
    rewrite Hh in Hh4, Hp4.
    rewrite (bind_ok _ _ _ _ _ H4).
    exists w4. split; [done|].
    rewrite Hr4, Hq4, Hc4, Hh4, Hp4, Hr3, Hq3, Hc3, Hh3, Hp3. done.
  - exists w3. split; [done|]. rewrite Hr3, Hq3, Hc3, Hh3, Hp3. done.
Qed.

End SynthCases.

Section SynthFacts.

Context {E : Externals}.

Lemma registry_ok_empty : registry_ok (empty_world E).
Proof. intros id l H. simpl in H. by rewrite lookup_empty in H. Qed.

Lemma not_cached_empty (ctxt : TTSContext) (sentence : pystr) :
  ~ cached (empty_world E) ctxt sentence.
Proof. intros (l & c & H & _). simpl in H. by rewrite lookup_empty in H. Qed.

Lemma cache_contains_new (cfg : pydict) (name ext h : pystr) :
  cache_contains (TextToSpeechCache_new cfg name ext) h = false.
Proof.
  unfold cache_contains. apply bool_decide_eq_false. simpl.
  rewrite lookup_empty. by intros [? ?].
Qed.

Lemma cache_contains_with (c : TextToSpeechCache) (h : pystr)
    (entry : AudioFile * option PhonemeFile) :
  cache_contains (cache_with c h entry) h = true.
Proof.
  unfold cache_contains. apply bool_decide_eq_true. simpl.
  rewrite lookup_insert_eq. eauto.
Qed.

(** What a run of [synth] that returns has done. *)
Lemma synth_ok_inv (self : TTS E) (sentence : pystr) (ctxt : option TTSContext)
    (kwargs : pydict) (w w' : world E) (audio : AudioFile)
    (phonemes : option pystr) :
  synth self sentence ctxt kwargs w = (Ok (audio, phonemes), w') ->
  let id := tts_id (resolve_ctxt E ctxt) in
  let h := hash_sentence E sentence in
  let final := cached_phonemes self sentence phonemes in
  exists l c,
    _caches w' !! id = Some l
    /\ (forall l0, _caches w !! id = Some l0 -> l0 = l /\ heap w !! l = Some c)
    /\ (_caches w !! id = None -> cached_sentences c = ∅)
    /\ (enable_cache self = true -> cache_contains c h = false)
    /\ audio_name audio = audio_name (define_audio_file c h)
    /\ get_tts self sentence (call_wav_file (synth_call self sentence ctxt kwargs c))
         (call_kwargs (synth_call self sentence ctxt kwargs c))
       = Ok (audio_path audio, phonemes)
    /\ backend_calls w' = backend_calls w ++ [synth_call self sentence ctxt kwargs c]
    /\ queue w' = queue w
    /\ if enable_cache self
       then heap w' !! l
            = Some (cache_with c h
                      (audio, if truthy_str final
                              then Some (define_phoneme_file c h) else None))
            /\ pho_files w'
               = (if truthy_str final
                  then <[pho_path (define_phoneme_file c h) := default [] final]>
                         (pho_files w)
                  else pho_files w)
       else heap w' !! l = Some c /\ pho_files w' = pho_files w.
Proof.
  intros Hs id h final.
  destruct (synth_cases self sentence ctxt kwargs w)
    as (l & w1 & Hreg & Hcases & Hq1 & Hp1 & Hc1 & Hrun).
  fold id h in Hreg, Hcases, Hrun.
  destruct (heap w1 !! l) as [c|] eqn:Hl; [|congruence].
  destruct (enable_cache self && cache_contains c h) eqn:Hhit.
  { destruct Hrun as (w2 & Hrun & _). congruence. }
  destruct (get_tts self sentence _ _) as [[path pho]|e] eqn:Hg.
  2:{ destruct Hrun as (w2 & Hrun & _). congruence. }
  destruct Hrun as (w2 & Hrun & Hr2 & Hq2 & Hc2 & Hstore).
  rewrite Hs in Hrun. injection Hrun as -> -> <-.
  exists l, c. split; [congruence|]. split.
  { intros l0 Hl0.
    destruct Hcases as [(Hin & _ & Hh)|(Hnone & _)]; [|congruence].
    split; [congruence|]. by rewrite <- Hh. }
  split.
  { intros Hnone.
    destruct Hcases as [(Hin & _)|(_ & _ & _ & _ & cfg' & Hh)]; [congruence|].
    rewrite Hh, lookup_insert_eq in Hl. by injection Hl as <-. }
  split.
  { intros Hen. by rewrite Hen in Hhit. }
  split; [done|]. split; [done|]. split; [congruence|]. split; [congruence|].
  fold final in Hstore. destruct (enable_cache self).
  - destruct Hstore as [-> ->]. split; [apply lookup_insert_eq|].
    by rewrite Hp1.
  - destruct Hstore as [-> ->]. by rewrite Hp1.
Qed.

(** [synth] on a sentence that is in the cache, with caching enabled. *)
Lemma synth_cached_raises (self : TTS E) (sentence : pystr)
    (ctxt : option TTSContext) (kwargs : pydict) (w : world E) :
  enable_cache self = true ->
  cached w (resolve_ctxt E ctxt) sentence ->
  exists w',
    synth self sentence ctxt kwargs w = (Raise TypeError, w')
    /\ same_effects w w'.
Proof.
  intros Hen (l0 & c0 & Hreg0 & Hheap0 & Hin).
  destruct (synth_cases self sentence ctxt kwargs w)
    as (l & w1 & Hreg & Hcases & Hq1 & Hp1 & Hc1 & Hrun).
  destruct Hcases as [(Hl & Hr & Hh)|(Hnone & _)]; [|congruence].
  assert (l = l0) as -> by congruence.
  rewrite Hh, Hheap0, Hen, Hin in Hrun. cbn [andb] in Hrun.
  destruct Hrun as (w' & Hrun & Hr' & Hh' & Hq' & Hp' & Hc').
  exists w'. split; [done|]. repeat split; congruence.
Qed.

End SynthFacts.

(** ** The loop and the cache *)

Section CachedChunks.

Context {E : Externals}.

Lemma cached_same_effects (w w' : world E) (ctxt : TTSContext)
    (sentence : pystr) :
  same_effects w w' -> cached w ctxt sentence -> cached w' ctxt sentence.
Proof.
  intros (Hr & Hh & _) (l & c & Hl & Hc & Hin). exists l, c. by rewrite Hr, Hh.
Qed.

Lemma cached_same_store (w w' : world E) (ctxt : TTSContext) (sentence : pystr) :
  _caches w' = _caches w -> heap w' = heap w ->
  cached w ctxt sentence -> cached w' ctxt sentence.
Proof.
  intros Hr Hh (l & c & Hl & Hc & Hin). exists l, c. by rewrite Hr, Hh.
Qed.

(** An entry stays in the cache object when another one is stored. *)
Lemma cache_contains_with_mono (c : TextToSpeechCache) (h h0 : pystr)
    (entry : AudioFile * option PhonemeFile) :
  cache_contains c h0 = true -> cache_contains (cache_with c h entry) h0 = true.
Proof.
  unfold cache_contains. rewrite !bool_decide_eq_true. simpl. intros Hs.
  destruct (decide (h = h0)) as [->|Hne].
  - rewrite lookup_insert_eq. eauto.
  - by rewrite lookup_insert_ne.
Qed.

Lemma get_visemes_same_effects (self : TTS E) (phonemes : option pystr)
    (sentence : pystr) (ctxt : TTSContext) (w : world E) :
  same_effects w (_get_visemes self phonemes sentence ctxt w).2.
Proof.
  unfold _get_visemes. destruct (truthy_str phonemes).
  - unfold bind, lift. destruct (viseme E phonemes) as [[[|x vs]|]|e];
      by repeat split.
  - destruct (g2p self) as [plugin|].
    + destruct (utterance2visemes plugin sentence (ctxt_lang ctxt))
        as [[|x vs]|e]; [..|destruct e]; by repeat split.
    + by repeat split.
Qed.

(** What is in a cache stays there under [synth], whatever [synth] is asked
    and however it ends. *)
Lemma synth_keeps_cached (self : TTS E) (sentence : pystr)
    (ctxt : option TTSContext) (kwargs : pydict) (w : world E)
    (ctxt0 : TTSContext) (s0 : pystr) :
  cached w ctxt0 s0 -> cached (synth self sentence ctxt kwargs w).2 ctxt0 s0.
Proof.
  intros (l0 & c0 & Hl0 & Hc0 & Hin0).
  destruct (synth_cases self sentence ctxt kwargs w)
    as (l & w1 & Hreg & Hcases & _ & _ & _ & Hrun).
  assert (H1 : _caches w1 !! tts_id ctxt0 = Some l0 /\ heap w1 !! l0 = Some c0).
  { destruct Hcases as [(_ & Hr & Hh)|(Hnone & Hl & Hfresh & Hr & cfg' & Hh)].
    - by rewrite Hr, Hh.
    - rewrite Hr, Hh. subst l. split.
      + rewrite lookup_insert_ne; [done|]. congruence.
      + rewrite lookup_insert_ne; [done|]. congruence. }
  destruct H1 as [Hl1 Hc1].
  destruct (heap w1 !! l) as [c|] eqn:Hl.
  2:{ rewrite Hrun. by exists l0, c0. }
  destruct (enable_cache self && cache_contains c _).
  { destruct Hrun as (w' & -> & Hr & Hh & _). exists l0, c0. simpl.
    by rewrite Hr, Hh. }
  destruct (get_tts self sentence _ _) as [[path pho]|e].
  2:{ destruct Hrun as (w' & -> & Hr & Hh & _). exists l0, c0. simpl.
      by rewrite Hr, Hh. }
  destruct Hrun as (w' & -> & Hr & _ & _ & Hstore). simpl.
  destruct (enable_cache self).
  - destruct Hstore as [Hh _]. destruct (decide (l0 = l)) as [->|Hne].
    + eexists l, _. rewrite Hr, Hh, lookup_insert_eq.
      split; [done|]. split; [done|].
      apply cache_contains_with_mono. congruence.
    + exists l0, c0. rewrite Hr, Hh, lookup_insert_ne by done. done.
  - destruct Hstore as [Hh _]. exists l0, c0. by rewrite Hr, Hh.
Qed.

Lemma call_synth_keeps_cached (self : TTS E) (sentence : pystr)
    (ctxt : TTSContext) (kwargs : pydict) (w : world E)
    (ctxt0 : TTSContext) (s0 : pystr) :
  cached w ctxt0 s0 -> cached (call_synth self sentence ctxt kwargs w).2 ctxt0 s0.
Proof.
  intros Hc.
  destruct (call_synth_cases self sentence ctxt kwargs w) as [[_ ->]|[_ ->]];
    [done|]. by apply synth_keeps_cached.
Qed.

(** With caching enabled a [synth] that returns has stored the sentence. *)
Lemma synth_ok_cached (self : TTS E) (sentence : pystr)
    (ctxt : option TTSContext) (kwargs : pydict) (w w' : world E)
    (x : AudioFile * option pystr) :
  enable_cache self = true ->
  synth self sentence ctxt kwargs w = (Ok x, w') ->
  cached w' (resolve_ctxt E ctxt) sentence.
Proof.
  intros Hen Hs. destruct x as [audio pho].
  destruct (synth_ok_inv _ _ _ _ _ _ _ _ Hs)
    as (l & c & Hreg & _ & _ & _ & _ & _ & _ & _ & Hstore).
  rewrite Hen in Hstore. destruct Hstore as [Hh _].
  eexists l, _. split; [done|]. split; [done|]. apply cache_contains_with.
Qed.

(** ... and the sentence was not in the cache before. *)
Lemma synth_ok_not_cached (self : TTS E) (sentence : pystr)
    (ctxt : option TTSContext) (kwargs : pydict) (w w' : world E)
    (x : AudioFile * option pystr) :
  enable_cache self = true ->
  synth self sentence ctxt kwargs w = (Ok x, w') ->
  ~ cached w (resolve_ctxt E ctxt) sentence.
Proof.
  intros Hen Hs Hc.
  destruct (synth_cached_raises self sentence ctxt kwargs w Hen Hc)
    as (w2 & Hr & _).
  congruence.
Qed.

(** One round of the loop: it stops at [synth] or at [_get_visemes], or it
    goes on with the other chunks and the same caches. *)
Lemma execute_chunks_cons (self : TTS E) (ctxt : TTSContext) (message : pyval)
    (kwargs : pydict) (sentence : pystr) (l : bool)
    (chunks : list (pystr * bool)) (w w' : world E) (r : result unit) :
  execute_chunks self ctxt message kwargs ((sentence, l) :: chunks) w = (r, w') ->
  (exists e,
     r = Raise e
     /\ (call_synth self sentence ctxt kwargs w = (Raise e, w')
         \/ exists audio pho w1,
              call_synth self sentence ctxt kwargs w = (Ok (audio, pho), w1)
              /\ _get_visemes self pho sentence ctxt w1 = (Raise e, w')))
  \/ exists audio pho w1 v w2 w3,
       call_synth self sentence ctxt kwargs w = (Ok (audio, pho), w1)
       /\ _get_visemes self pho sentence ctxt w1 = (Ok v, w2)
       /\ _caches w3 = _caches w2 /\ heap w3 = heap w2
       /\ execute_chunks self ctxt message kwargs chunks w3 = (r, w').
Proof.
  cbn [execute_chunks]. intros Hrun.
  unfold bind at 1 in Hrun.
  destruct (call_synth self sentence ctxt kwargs w) as [[[audio pho]|e] w1]
    eqn:Hsynth.
  2:{ injection Hrun as <- <-. left. exists e. split; [done|]. by left. }
  unfold bind at 1 in Hrun.
  destruct (_get_visemes self pho sentence ctxt w1) as [[v|e] w2] eqn:Hvis.
  2:{ injection Hrun as <- <-. left. exists e. split; [done|]. right.
      by exists audio, pho, w1. }
  unfold bind at 1 in Hrun. unfold queue_put at 1 in Hrun.
  unfold bind at 1 in Hrun.
  match type of Hrun with
  | context [add_metric self ?md ?w3] =>
      destruct (add_metric_spec self md w3) as (w4 & Hm & (Hr4 & Hh4 & _) & _)
  end.
  rewrite Hm in Hrun.
  right. exists audio, pho, w1, v, w2, w4. by repeat split.
Qed.

(** What is in a cache stays there under the loop. *)
Lemma execute_chunks_keeps_cached (self : TTS E) (ctxt : TTSContext)
    (message : pyval) (kwargs : pydict) (chunks : list (pystr * bool))
    (w w' : world E) (r : result unit) (ctxt0 : TTSContext) (s0 : pystr) :
  execute_chunks self ctxt message kwargs chunks w = (r, w') ->
  cached w ctxt0 s0 -> cached w' ctxt0 s0.
Proof.
  revert w. induction chunks as [|[sentence l] chunks IH]; intros w Hrun Hc.
  { by injection Hrun as <- <-. }
  pose proof (call_synth_keeps_cached self sentence ctxt kwargs w ctxt0 s0 Hc)
    as Hc1.
  apply execute_chunks_cons in Hrun
      as [(e & -> & [Hs|(audio & pho & w1 & Hs & Hv)])
         |(audio & pho & w1 & v & w2 & w3 & Hs & Hv & Hr3 & Hh3 & Hrun)];
    rewrite Hs in Hc1; simpl in Hc1; [done|..].
  - pose proof (get_visemes_same_effects self pho sentence ctxt w1) as Hse.
    rewrite Hv in Hse. by eapply cached_same_effects.
  - pose proof (get_visemes_same_effects self pho sentence ctxt w1) as Hse.
    rewrite Hv in Hse. apply (IH w3 Hrun).
    apply (cached_same_store w2); [done..|]. by eapply cached_same_effects.
Qed.

(** With caching enabled the loop returns only on chunks that differ from
    one another, none of which is in the cache. *)
Lemma execute_chunks_ok_fresh (self : TTS E) (ctxt : TTSContext)
    (message : pyval) (kwargs : pydict) (chunks : list (pystr * bool))
    (w w' : world E) :
  enable_cache self = true ->
  execute_chunks self ctxt message kwargs chunks w = (Ok tt, w') ->
  NoDup chunks.*1 /\ forall s, s ∈ chunks.*1 -> ~ cached w ctxt s.
Proof.
  intros Hen. revert w.
  induction chunks as [|[sentence l] chunks IH]; intros w Hrun.
  { split; [constructor|]. by intros s ?%elem_of_nil. }
  apply execute_chunks_cons in Hrun
      as [(e & He & _)
         |(audio & pho & w1 & v & w2 & w3 & Hs & Hv & Hr3 & Hh3 & Hrun)];
    [done|].
  destruct (IH w3 Hrun) as [Hnd Hfresh].
  pose proof (get_visemes_same_effects self pho sentence ctxt w1) as Hse.
  rewrite Hv in Hse. simpl in Hse.
  assert (Hstep : forall s, cached w1 ctxt s -> cached w3 ctxt s).
  { intros s Hc. apply (cached_same_store w2); [done..|].
    by eapply cached_same_effects. }
  pose proof (call_synth_ok _ _ _ _ _ _ _ Hs) as [_ Hsynth].
  pose proof (synth_ok_cached _ _ _ _ _ _ _ Hen Hsynth) as Hin.
  pose proof (synth_ok_not_cached _ _ _ _ _ _ _ Hen Hsynth) as Hout.
  simpl in Hin, Hout. split.
  - simpl. constructor; [|done]. intros Hel.
    by apply (Hfresh sentence Hel), Hstep.
  - intros s Hel. simpl in Hel. apply elem_of_cons in Hel as [->|Hel]; [done|].
    intros Hc. apply (Hfresh s Hel), Hstep.
    pose proof (call_synth_keeps_cached self sentence ctxt kwargs w ctxt s Hc)
      as Hc1.
    by rewrite Hs in Hc1.
Qed.

(** The loop is given a keyword argument named [ctxt]: the first call of
    [synth] is refused. *)
Lemma execute_chunks_ctxt_keyword (self : TTS E) (ctxt : TTSContext)
    (message : pyval) (kwargs : pydict) (chunks : list (pystr * bool))
    (w : world E) :
  is_Some (kwargs !! str "ctxt") -> chunks <> [] ->
  execute_chunks self ctxt message kwargs chunks w = (Raise TypeError, w).
Proof.
  intros [v Hv] Hne. destruct chunks as [|[sentence l] chunks]; [done|].
  cbn [execute_chunks]. unfold bind at 1. unfold call_synth. by rewrite Hv.
Qed.

Lemma registry_ok_insert (w w' : world E) (l : nat) (c : TextToSpeechCache) :
  _caches w' = _caches w -> heap w' = <[l := c]> (heap w) ->
  registry_ok w -> registry_ok w'.
Proof.
  intros Hr Hh Hok id l' Hid. rewrite Hr in Hid. rewrite Hh.
  apply lookup_insert_is_Some'. right. by eapply Hok.
Qed.

(** With a backend that always synthesizes, the call of [synth] by the
    loop returns phonemes [viseme] can read, or it raises [TypeError]. *)
Lemma call_synth_outcome (self : TTS E) (sentence : pystr) (ctxt : TTSContext)
    (kwargs : pydict) (w : world E) :
  backend_total self -> registry_ok w ->
  (exists audio pho v w',
     call_synth self sentence ctxt kwargs w = (Ok (audio, pho), w')
     /\ viseme E pho = Ok v /\ registry_ok w')
  \/ exists w', call_synth self sentence ctxt kwargs w = (Raise TypeError, w').
Proof.
  intros Hback Hok.
  destruct (call_synth_cases self sentence ctxt kwargs w) as [[_ ->]|[_ ->]];
    [right; by eexists|].
  destruct (synth_cases self sentence (Some ctxt) kwargs w)
    as (l & w1 & Hreg & Hcases & _ & _ & _ & Hrun).
  assert (Hok1 : registry_ok w1).
  { destruct Hcases as [(_ & Hr & Hh)|(Hnone & Hl & Hfresh & Hr & cfg' & Hh)].
    - intros id l'. rewrite Hr, Hh. apply Hok.
    - intros id l'. rewrite Hr, Hh. intros Hid.
      apply lookup_insert_is_Some'.
      destruct (decide (id = tts_id (resolve_ctxt E (Some ctxt)))) as [->|Hne].
      + rewrite lookup_insert_eq in Hid. left. congruence.
      + rewrite lookup_insert_ne in Hid by done. right. by eapply Hok. }
  destruct (Hok1 _ _ Hreg) as [c Hc]. rewrite Hc in Hrun.
  destruct (enable_cache self && cache_contains c _).
  { destruct Hrun as (w' & Hrun & _). right. by exists w'. }
  match type of Hrun with
  | context [get_tts self sentence ?a ?b] =>
      destruct (Hback sentence a b) as (path & pho & v & Hb & Hv)
  end.
  rewrite Hb in Hrun. destruct Hrun as (w' & Hrun & Hr & _ & _ & Hstore).
  left. eexists _, pho, v, w'. split; [done|]. split; [done|].
  destruct (enable_cache self).
  - destruct Hstore as [Hh _]. by eapply registry_ok_insert.
  - destruct Hstore as [Hh _]. intros id l'. rewrite Hr, Hh. apply Hok1.
Qed.

(** With such a backend the loop returns or raises [TypeError]. *)
Lemma execute_chunks_outcome (self : TTS E) (ctxt : TTSContext)
    (message : pyval) (kwargs : pydict) (chunks : list (pystr * bool))
    (w w' : world E) (r : result unit) :
  backend_total self -> registry_ok w ->
  execute_chunks self ctxt message kwargs chunks w = (r, w') ->
  r = Ok tt \/ r = Raise TypeError.
Proof.
  intros Hback. revert w.
  induction chunks as [|[sentence l] chunks IH]; intros w Hok Hrun.
  { injection Hrun as <- <-. by left. }
  destruct (call_synth_outcome self sentence ctxt kwargs w Hback Hok)
    as [(audio0 & pho0 & v0 & w0 & Hs0 & Hv0 & Hok0)|(w0 & Hs0)];
    apply execute_chunks_cons in Hrun
      as [(e & -> & [Hs|(audio & pho & w1 & Hs & Hv)])
         |(audio & pho & w1 & v & w2 & w3 & Hs & Hv & Hr3 & Hh3 & Hrun)];
    rewrite Hs0 in Hs; try done.
  - injection Hs as <- <- <-.
    destruct (get_visemes_returns self pho0 sentence ctxt w0 v0 Hv0)
      as (v' & w2 & Hvis & _).
    congruence.
  - injection Hs as <- <- <-.
    pose proof (get_visemes_same_effects self pho0 sentence ctxt w0) as Hse.
    rewrite Hv in Hse. simpl in Hse.
    apply (IH w3); [|done].
    intros id l'. rewrite Hr3, Hh3.
    by apply (registry_ok_same_effects w0 w2).
  - injection Hs as <-. by right.
Qed.

Lemma flag_chunks_fst (chunks : list pystr) (listen : bool) :
  (flag_chunks chunks listen).*1 = chunks.
Proof.
  apply list_eq. intros i.
  rewrite list_lookup_fmap, flag_chunks_lookup.
  by destruct (chunks !! i).
Qed.

End CachedChunks.

(** C3 on the code: [execute] puts the playback items of the chunks on the
    queue in the order of the chunks, the item at position [i] made from
    chunk [i], with the caller's [listen] at the last of the [n] positions
    and [false] at every other one -- but it puts [n] items there only when
    it returns.  With caching enabled, as it is by default, it does not
    return when a chunk occurs twice in the sentence or is in the cache of
    the namespace already: [synth] raises on the cache hit ([TypeError] when
    the backend is one that always synthesizes) and fewer than [n] items are
    queued.  A keyword argument named [ctxt] ends the call with [TypeError]
    before the first chunk.  With caching disabled, a backend that always
    synthesizes and no such keyword, [execute] returns. *)
Theorem C3_cached_chunk_stops_the_queue :
  forall (E : Externals) (self : TTS E) (sentence : pystr)
         (ident : option pystr) (listen : bool) (kwargs : pydict)
         (w w' : world E) (r : result unit),
    execute self sentence ident listen kwargs w = (r, w') ->
    exists (validated : pystr) (items : list (playback_item E)),
      let chunks :=
        _preprocess_sentence self
          (_replace_phonetic_spellings (phonetic_spelling self) (spellings self)
             validated) in
      let ctxt := execute_ctxt E kwargs ident in
      validate_ssml (ssml_tags self) (modify_tag self) sentence = Ok validated
      /\ queue w' = queue w ++ items
      /\ (enable_cache self = true ->
          (exists i j chunk,
             i < j /\ chunks !! i = Some chunk /\ chunks !! j = Some chunk)
          \/ (exists chunk, chunk ∈ chunks /\ cached w ctxt chunk) ->
          exists e,
            r = Raise e /\ length items < length chunks
            /\ (backend_total self -> registry_ok w -> e = TypeError))
      /\ (is_Some (kwargs !! str "ctxt") -> chunks <> [] ->
          r = Raise TypeError /\ items = [])
      /\ (r = Ok tt -> length items = length chunks)
      /\ (forall e, r = Raise e -> length items < length chunks)
      /\ (enable_cache self = false -> backend_total self -> registry_ok w ->
          kwargs !! str "ctxt" = None -> r = Ok tt)
      /\ forall i item,
           items !! i = Some item ->
           item_listen item = (if i =? length chunks - 1 then listen else false)
           /\ exists chunk,
                chunks !! i = Some chunk
                /\ item_of_chunk self ctxt (resolve_message E kwargs ident) kwargs
                     (chunk, item_listen item) item.
Proof.
  intros E self sentence ident listen kwargs w w' r Hrun.
  assert (Hreturns : enable_cache self = false -> backend_total self ->
                     registry_ok w -> kwargs !! str "ctxt" = None -> r = Ok tt).
  { intros Hen Hback Hok Hkw.
    destruct (execute_returns_without_cache self sentence ident listen kwargs w
                Hen Hback Hkw Hok) as [w'' Hret].
    congruence. }
  unfold execute in Hrun. rewrite validate_ssml_unfold in Hrun.
  set (validated := if bool_decide (ssml_tags self = []) then _ else _) in *.
  exists validated.
  unfold bind at 1 in Hrun. unfold lift in Hrun. cbn beta iota in Hrun.
  unfold bind at 1 in Hrun.
  destruct (add_metric_spec self (metric_of "tts.ssml.validated") w)
    as (w1 & Hm1 & Hse1 & _).
  rewrite Hm1 in Hrun.
  unfold _execute in Hrun. fold (execute_ctxt E kwargs ident) in Hrun.
  set (chunks := _preprocess_sentence self _) in *.
  set (ctxt := execute_ctxt E kwargs ident) in *.
  unfold bind at 1 in Hrun.
  match type of Hrun with
  | context [add_metric self ?md w1] =>
      destruct (add_metric_spec self md w1) as (w2 & Hm2 & Hse2 & _)
  end.
  rewrite Hm2 in Hrun.
  assert (Hq2 : queue w2 = queue w).
  { destruct Hse1 as (_ & _ & Hq1 & _), Hse2 as (_ & _ & Hq2 & _). congruence. }
  assert (Hok2 : registry_ok w -> registry_ok w2).
  { intros Hok. by do 2 (eapply registry_ok_same_effects; [eassumption|]). }
  assert (Hc2 : forall s, cached w ctxt s -> cached w2 ctxt s).
  { intros s Hc. by do 2 (eapply cached_same_effects; [eassumption|]). }
  pose proof Hrun as Hrun'.
  apply execute_chunks_queue in Hrun as (items & Hq & Hitems & Hlen & Hlt).
  rewrite flag_chunks_length in Hlen, Hlt.
  exists items. cbv zeta. fold chunks ctxt.
  split; [by rewrite validate_ssml_unfold|].
  split; [congruence|]. split.
  { intros Hen Hdup.
    assert (Hnot : r <> Ok tt).
    { intros ->.
      destruct (execute_chunks_ok_fresh _ _ _ _ _ _ _ Hen Hrun') as [Hnd Hfresh].
      rewrite flag_chunks_fst in Hnd, Hfresh.
      destruct Hdup as [(i & j & chunk & Hij & Hi & Hj)|(chunk & Hel & Hc)].
      - pose proof (NoDup_lookup _ _ _ _ Hnd Hi Hj). lia.
      - by apply (Hfresh chunk Hel), Hc2. }
    destruct r as [[]|e]; [done|].
    exists e. split; [done|]. split; [by apply (Hlt e)|].
    intros Hback Hok.
    destruct (execute_chunks_outcome _ _ _ _ _ _ _ _ Hback (Hok2 Hok) Hrun')
      as [?|?]; congruence. }
  split.
  { intros Hkw Hne.
    rewrite execute_chunks_ctxt_keyword in Hrun'; [|done|].
    2:{ intros Hnil. apply Hne. by rewrite <- (flag_chunks_fst chunks listen),
          Hnil. }
    injection Hrun' as <- <-. split; [done|].
    apply (app_inv_head (queue w2)). by rewrite app_nil_r. }
  split; [done|]. split; [done|]. split; [done|].
  intros i item Hi.
  destruct (Forall2_lookup_r _ _ _ _ _ Hitems Hi) as ([chunk flag] & Hc & Hitem).
  apply lookup_take_Some in Hc as [Hc _].
  rewrite flag_chunks_lookup in Hc.
  destruct (chunks !! i) as [chunk'|] eqn:Hci; [|done].
  simpl in Hc. injection Hc as -> <-.
  pose proof Hitem as (Hflag & _). simpl in Hflag.
  split; [done|].
  exists chunk. split; [done|]. by rewrite Hflag.
Qed.

(** The sentence ["one.one"] is cut into the chunk ["one"] twice: the first
    is synthesized and queued, the second is found in the cache and
    [execute] raises [TypeError] with one item on the queue.  And a sentence
    that has been spoken cannot be spoken again: the second [execute] of
    ["hello"] raises with nothing more on the queue. *)
Lemma C3_cached_chunk_stops_the_queue_witness :
  _preprocess_sentence demo_tts_chunks
    (_replace_phonetic_spellings true (spellings demo_tts_chunks) (str "one.one"))
  = [str "one"; str "one"]
  /\ (execute demo_tts_chunks (str "one.one") None true ∅
        (empty_world demo_externals)).1 = Raise TypeError
  /\ length (queue (execute demo_tts_chunks (str "one.one") None true ∅
                      (empty_world demo_externals)).2) = 1
  /\ (execute demo_tts (str "hello") None false ∅
        (empty_world demo_externals)).1 = Ok tt
  /\ (execute demo_tts (str "hello") None false ∅
        (execute demo_tts (str "hello") None false ∅
           (empty_world demo_externals)).2).1 = Raise TypeError
  /\ length (queue (execute demo_tts (str "hello") None false ∅
                      (execute demo_tts (str "hello") None false ∅
                         (empty_world demo_externals)).2).2) = 1.
Proof.
  split; [vm_compute; reflexivity|]. split.
  { destruct (C3_cached_chunk_stops_the_queue demo_externals demo_tts_chunks
                (str "one.one") None true ∅ (empty_world demo_externals)
                (execute demo_tts_chunks (str "one.one") None true ∅
                   (empty_world demo_externals)).2
                (execute demo_tts_chunks (str "one.one") None true ∅
                   (empty_world demo_externals)).1)
      as (validated & items & Hval & _ & Hbug & _).
    { apply surjective_pairing. }
    vm_compute in Hval. injection Hval as <-.
    destruct (Hbug eq_refl) as (e & He & _ & Herr).
    { left. exists 0, 1, (str "one"). split; [lia|].
      split; vm_compute; reflexivity. }
    rewrite He. f_equal. apply Herr.
    - intros s wav kw. eexists wav, None, _. split; reflexivity.
    - apply registry_ok_empty. }
  repeat split; vm_compute; reflexivity.
Defined.

(** ** The registry under the pipeline *)

Create HintDb registry.

Section KeepsRegistry.

Context {E : Externals}.

Lemma keeps_registry_ret {A} (a : A) : keeps_registry (ret (E:=E) a).
Proof. by intros w id l. Qed.

Lemma keeps_registry_raise {A} (e : pyerr) :
  keeps_registry (raise (E:=E) (A:=A) e).
Proof. by intros w id l. Qed.

Lemma keeps_registry_lift {A} (r : result A) : keeps_registry (lift (E:=E) r).
Proof. by intros w id l. Qed.

Lemma keeps_registry_bind {A B} (m : M E A) (k : A -> M E B) :
  keeps_registry m -> (forall a, keeps_registry (k a)) ->
  keeps_registry (bind m k).
Proof.
  intros Hm Hk w id l Hid. unfold bind. specialize (Hm w id l Hid).
  destruct (m w) as [[a|e] w1]; simpl in *; [|done].
  by apply Hk.
Qed.

Lemma keeps_registry_LOG (lvl : log_level) (text : pystr) :
  keeps_registry (LOG (E:=E) lvl text).
Proof. by intros w id l. Qed.

Lemma keeps_registry_add_metric (self : TTS E) (md : metric) :
  keeps_registry (add_metric self md).
Proof.
  intros w id l Hid.
  destruct (add_metric_spec self md w) as (w' & -> & (Hr&_) & _).
  simpl. by rewrite Hr.
Qed.

Lemma keeps_registry_get_cache (ctxt : TTSContext) (ext : pystr)
    (cfg : option pydict) : keeps_registry (get_cache (E:=E) ctxt ext cfg).
Proof.
  intros w id l Hid. destruct (get_cache_returns ctxt ext cfg w)
    as (l' & w1 & -> & _ & Hkeep & _). by apply Hkeep.
Qed.

Lemma keeps_registry_deref (l : nat) : keeps_registry (deref (E:=E) l).
Proof. intros w id l' Hid. unfold deref. by destruct (heap w !! l). Qed.

Lemma keeps_registry_pho_load (f : PhonemeFile) :
  keeps_registry (pho_load (E:=E) f).
Proof. by intros w id l. Qed.

Lemma keeps_registry_pho_save (f : PhonemeFile) (p : pystr) :
  keeps_registry (pho_save (E:=E) f p).
Proof. by intros w id l. Qed.

Lemma keeps_registry_cache_put (l : nat) (h : pystr)
    (entry : AudioFile * option PhonemeFile) :
  keeps_registry (cache_put (E:=E) l h entry).
Proof. intros w id l' Hid. unfold cache_put. by destruct (heap w !! l). Qed.

Lemma keeps_registry_call_get_tts (self : TTS E) (sentence wav_file : pystr)
    (kwargs : pydict) :
  keeps_registry (call_get_tts self sentence wav_file kwargs).
Proof. by intros w id l. Qed.

Lemma keeps_registry_queue_put (item : playback_item E) :
  keeps_registry (queue_put item).
Proof. by intros w id l. Qed.

End KeepsRegistry.

Hint Resolve keeps_registry_ret keeps_registry_raise keeps_registry_lift
  keeps_registry_LOG keeps_registry_add_metric keeps_registry_get_cache
  keeps_registry_deref keeps_registry_pho_load keeps_registry_pho_save
  keeps_registry_cache_put keeps_registry_call_get_tts
  keeps_registry_queue_put : registry.

Ltac keeps_registry :=
  repeat first
    [ progress auto with registry
    | apply keeps_registry_bind; [|intros ?]
    | match goal with
      | |- keeps_registry (match ?x with _ => _ end) => destruct x
      | |- keeps_registry (if ?b then _ else _) => destruct b
      | |- keeps_registry (let (_, _) := ?x in _) => destruct x
      end ].

Section PipelineRegistry.

Context {E : Externals}.

Lemma keeps_registry_TTS_get_from_cache (self : TTS E) (args : list pyval) :
  keeps_registry (TTS_get_from_cache self args).
Proof.
  unfold TTS_get_from_cache, deprecated, TTSContext_get_from_cache.
  apply keeps_registry_bind; [auto with registry|]. intros _.
  repeat case_match; keeps_registry.
Qed.

Lemma keeps_registry_cache_phonemes (self : TTS E) (sentence : pystr)
    (cache : pyval) (phonemes sentence_hash : option pystr) :
  keeps_registry (_cache_phonemes self sentence cache phonemes sentence_hash).
Proof. unfold _cache_phonemes, call_define_phoneme_file. keeps_registry. Qed.

Lemma keeps_registry_cache_sentence (self : TTS E) (sentence : pystr)
    (audio : AudioFile) (cache : nat) (phonemes sentence_hash : option pystr) :
  keeps_registry
    (_cache_sentence self sentence audio cache phonemes sentence_hash).
Proof.
  unfold _cache_sentence.
  apply keeps_registry_bind; [apply keeps_registry_cache_phonemes|].
  intros ?. keeps_registry.
Qed.

Lemma keeps_registry_synth (self : TTS E) (sentence : pystr)
    (ctxt : option TTSContext) (kwargs : pydict) :
  keeps_registry (synth self sentence ctxt kwargs).
Proof.
  unfold synth.
  apply keeps_registry_bind; [auto with registry|]. intros _.
  apply keeps_registry_bind; [auto with registry|]. intros cache.
  apply keeps_registry_bind; [auto with registry|]. intros c.
  destruct (enable_cache self && cache_contains c _).
  - apply keeps_registry_bind; [apply keeps_registry_TTS_get_from_cache|].
    intros [audio pho]. apply keeps_registry_bind.
    + destruct (negb (truthy_str pho)); [|auto with registry].
      apply keeps_registry_bind; [apply keeps_registry_cache_phonemes|].
      intros [f|]; unfold call_load; auto with registry.
    + intros ?. keeps_registry.
  - apply keeps_registry_bind; [auto with registry|]. intros [path pho].
    apply keeps_registry_bind; [auto with registry|]. intros _.
    apply keeps_registry_bind; [|intros _; auto with registry].
    destruct (enable_cache self);
      [apply keeps_registry_cache_sentence|auto with registry].
Qed.

Lemma keeps_registry_get_visemes (self : TTS E) (phonemes : option pystr)
    (sentence : pystr) (ctxt : TTSContext) :
  keeps_registry (_get_visemes self phonemes sentence ctxt).
Proof. unfold _get_visemes. keeps_registry. Qed.

Lemma keeps_registry_execute_chunks (self : TTS E) (ctxt : TTSContext)
    (message : pyval) (kwargs : pydict) (chunks : list (pystr * bool)) :
  keeps_registry (execute_chunks self ctxt message kwargs chunks).
Proof.
  induction chunks as [|[sentence l] chunks IH]; [apply keeps_registry_ret|].
  cbn [execute_chunks].
  apply keeps_registry_bind.
  { unfold call_synth. destruct (kwargs !! str "ctxt");
      [apply keeps_registry_raise|apply keeps_registry_synth]. }
  intros [audio pho].
  apply keeps_registry_bind; [apply keeps_registry_get_visemes|]. intros v.
  apply keeps_registry_bind; [auto with registry|]. intros _.
  apply keeps_registry_bind; [auto with registry|]. intros _. apply IH.
Qed.

Lemma keeps_registry_execute (self : TTS E) (sentence : pystr)
    (ident : option pystr) (listen : bool) (kwargs : pydict) :
  keeps_registry (execute self sentence ident listen kwargs).
Proof.
  unfold execute, _execute.
  apply keeps_registry_bind; [auto with registry|]. intros validated.
  apply keeps_registry_bind; [auto with registry|]. intros _.
  apply keeps_registry_bind; [auto with registry|]. intros _.
  apply keeps_registry_execute_chunks.
Qed.

End PipelineRegistry.

(** C9: the first [get_cache] of a namespace makes the cache instance and
    stores it in [TTSContext._caches] under the namespace (a new object when
    the registry had none); every later [get_cache] for a context with the
    same plugin, voice and language -- whatever extension and configuration
    it is given, and with a [get_cache] for any other context, a [synth] or
    an [execute] in between -- returns that same instance and leaves the
    state as it is. *)
Theorem C9_get_cache_one_instance_per_namespace :
  forall (E : Externals) (ctxt ctxt' other : TTSContext)
         (ext ext' ext'' : pystr) (cfg cfg' cfg'' : option pydict) (w : world E),
    ctxt_plugin_id ctxt' = ctxt_plugin_id ctxt ->
    ctxt_voice ctxt' = ctxt_voice ctxt ->
    ctxt_lang ctxt' = ctxt_lang ctxt ->
    exists l w1,
      get_cache ctxt ext cfg w = (Ok l, w1)
      /\ _caches w1 !! tts_id ctxt = Some l
      /\ (_caches w !! tts_id ctxt = None ->
          heap w !! l = None /\ is_Some (heap w1 !! l))
      /\ get_cache ctxt' ext' cfg' w1 = (Ok l, w1)
      /\ (exists l2 w2,
            get_cache other ext'' cfg'' w1 = (Ok l2, w2)
            /\ get_cache ctxt' ext' cfg' w2 = (Ok l, w2))
      /\ (forall (self : TTS E) (sentence : pystr) (kwargs : pydict),
            get_cache ctxt' ext' cfg'
              (synth self sentence (Some other) kwargs w1).2
            = (Ok l, (synth self sentence (Some other) kwargs w1).2))
      /\ (forall (self : TTS E) (sentence : pystr) (ident : option pystr)
                 (listen : bool) (kwargs : pydict),
            get_cache ctxt' ext' cfg'
              (execute self sentence ident listen kwargs w1).2
            = (Ok l, (execute self sentence ident listen kwargs w1).2)).
Proof.
  intros E ctxt ctxt' other ext ext' ext'' cfg cfg' cfg'' w Hp Hv Hl.
  assert (Hid : tts_id ctxt' = tts_id ctxt).
  { unfold tts_id. by rewrite Hp, Hv, Hl. }
  destruct (get_cache_returns ctxt ext cfg w) as (l & w1 & Hget & Hreg & Hkeep & _).
  exists l, w1. split; [done|]. split; [done|]. split.
  { intros Hnone.
    destruct (get_cache_miss ctxt ext cfg w Hnone)
      as (w1' & c & Hget' & _ & Hfresh & Hheap & _).
    rewrite Hget in Hget'. injection Hget' as -> ->.
    split; [done|]. rewrite Hheap, lookup_insert_eq. eauto. }
  split.
  { apply get_cache_hit. by rewrite Hid. }
  split; [|split].
  - destruct (get_cache_returns other ext'' cfg'' w1)
      as (l2 & w2 & Hget2 & _ & Hkeep2 & _).
    exists l2, w2. split; [done|].
    apply get_cache_hit. rewrite Hid. by apply Hkeep2.
  - intros self sentence kwargs. apply get_cache_hit. rewrite Hid.
    by apply keeps_registry_synth.
  - intros self sentence ident listen kwargs. apply get_cache_hit. rewrite Hid.
    by apply keeps_registry_execute.
Qed.

Lemma C9_get_cache_one_instance_per_namespace_witness :
  exists l w1,
    get_cache {| session := demo_session |} (str "wav") None
      (empty_world demo_externals) = (Ok l, w1)
    /\ _caches w1 !! tts_id {| session := demo_session |} = Some l
    /\ get_cache {| session := demo_session |} (str "mp3") (Some ∅) w1 = (Ok l, w1).
Proof.
  destruct (C9_get_cache_one_instance_per_namespace demo_externals
              {| session := demo_session |} {| session := demo_session |}
              {| session := other_session |}
              (str "wav") (str "mp3") (str "wav") None (Some ∅) None
              (empty_world demo_externals) eq_refl eq_refl eq_refl)
    as (l & w1 & H1 & H2 & _ & H3 & _).
  by exists l, w1.
Defined.

(** * Further properties *)

(** ** The speak wrapper *)

Section SpeakWrapper.

Lemma endswith_app (p x : pystr) : endswith p (x ++ p) = true.
Proof. unfold endswith. rewrite rev_app_distr. apply startswith_app. Qed.

Lemma endswith_inv (p s : pystr) :
  endswith p s = true -> exists pre, s = pre ++ p.
Proof.
  unfold endswith. intros H. apply startswith_inv in H as [rest H].
  exists (rev rest).
  rewrite <- (rev_involutive s), H, rev_app_distr. by rewrite rev_involutive.
Qed.

Lemma contains_endswith (p s : pystr) :
  endswith p s = true -> contains p s = true.
Proof.
  intros H. apply endswith_inv in H as [pre ->].
  apply contains_spec. exists pre, []. by rewrite app_nil_r.
Qed.

Lemma split_first_spec (sep s before after : pystr) :
  split_first sep s = Some (before, after) -> s = before ++ sep ++ after.
Proof.
  revert before after. induction s as [|c s IH]; intros before after; simpl.
  - destruct (startswith sep []) eqn:Hst; [|done].
    intros [= <- <-]. apply startswith_inv in Hst as [rest Hrest].
    symmetry in Hrest. apply app_eq_nil in Hrest as [-> ->]. done.
  - destruct (startswith sep (c :: s)) eqn:Hst.
    + intros [= <- <-]. apply startswith_inv in Hst as [rest Hrest].
      rewrite Hrest at 2. rewrite drop_app_length. by rewrite Hrest.
    + destruct (split_first sep s) as [[b a]|]; [|done].
      intros [= <- <-]. by rewrite (IH b a eq_refl).
Qed.

(** The first [</speak>] of a text that begins with [<speak>] lies behind
    that tag. *)
Lemma split_first_close_behind_open (rest : pystr) :
  split_first speak_close (speak_open ++ rest)
  = match split_first speak_close rest with
    | Some (before, after) => Some (speak_open ++ before, after)
    | None => None
    end.
Proof.
  change (speak_open ++ rest)
    with ("<"%char :: "s"%char :: "p"%char :: "e"%char :: "a"%char
          :: "k"%char :: ">"%char :: rest).
  cbn [split_first startswith speak_close str list_ascii_of_string].
  repeat match goal with
  | |- context [Ascii.eqb ?a ?b] =>
      let v := eval vm_compute in (Ascii.eqb a b) in
      change (Ascii.eqb a b) with v
  end.
  cbn [andb].
  destruct (split_first _ rest) as [[b a]|]; reflexivity.
Qed.

(** What [format_speak_tags] computes before it decides on the tags: a text
    between [<speak>] and [</speak>]. *)
Lemma format_speak_tags_shape (sentence : pystr) (include_tags : bool) :
  exists t,
    startswith speak_open t = true /\ endswith speak_close t = true
    /\ format_speak_tags sentence include_tags
       = Ok (if bool_decide (t = speak_open ++ speak_close) then []
             else if include_tags then t
             else rstrip speak_close (lstrip speak_open t)).
Proof.
  unfold format_speak_tags. cbv zeta.
  match goal with
  | |- context [startswith speak_open ?t] => set (to_speak := t)
  end.
  assert (Hc : startswith speak_open to_speak = true
               \/ contains speak_open to_speak = true).
  { subst to_speak.
    destruct (contains speak_open sentence) eqn:Ho,
             (contains speak_close sentence) eqn:Hcl; cbn [negb andb].
    - by right.
    - right. by apply contains_app_l.
    - left. apply startswith_app.
    - left. apply startswith_app. }
  assert (Hfirst : exists ts,
    (if negb (startswith speak_open to_speak)
     then rbind (split1_second speak_open to_speak)
            (fun rest => Ok (speak_open ++ rest))
     else Ok to_speak) = Ok ts
    /\ startswith speak_open ts = true).
  { destruct (startswith speak_open to_speak) eqn:Hst; cbn [negb]; [eauto|].
    destruct Hc as [Hc|Hc]; [done|].
    unfold split1_second.
    destruct (split_first_contains _ _ Hc) as (b & a & ->). cbn [rbind].
    eexists. split; [done|]. apply startswith_app. }
  destruct Hfirst as (ts & -> & Hts). cbn [rbind].
  match goal with
  | |- context [bool_decide (?t = _)] => set (t2 := t)
  end.
  exists t2. split; [|split].
  - subst t2. destruct (endswith speak_close ts) eqn:He; cbn [negb]; [done|].
    apply startswith_inv in Hts as [rest ->].
    unfold split1_first. rewrite split_first_close_behind_open.
    destruct (split_first speak_close rest) as [[b a]|];
      rewrite <- app_assoc; apply startswith_app.
  - subst t2. destruct (endswith speak_close ts) eqn:He; cbn [negb]; [done|].
    apply endswith_app.
  - by repeat case_match.
Qed.

Lemma lstrip_head (chars s : pystr) (c : ascii) :
  head (lstrip chars s) = Some c -> c ∉ chars.
Proof.
  induction s as [|a s IH]; simpl; [done|].
  destruct (existsb (Ascii.eqb a) chars) eqn:Hex; [done|].
  simpl. intros [= <-] Hin.
  assert (existsb (Ascii.eqb a) chars = true); [|congruence].
  apply existsb_exists. exists a. split; [by apply list_elem_of_In|].
  apply Ascii.eqb_refl.
Qed.

Lemma lstrip_suffix (chars s : pystr) :
  exists pre, s = pre ++ lstrip chars s /\ Forall (fun c => c ∈ chars) pre.
Proof.
  induction s as [|a s IH]; simpl; [by exists []|].
  destruct (existsb (Ascii.eqb a) chars) eqn:Hex; [|by exists []].
  destruct IH as (pre & Hs & Hpre). exists (a :: pre). split.
  - simpl. by rewrite <- Hs.
  - constructor; [|done].
    apply existsb_exists in Hex as (x & Hx & Heq).
    apply Ascii.eqb_eq in Heq as ->. by apply list_elem_of_In.
Qed.

Lemma last_rev (s : pystr) : last (rev s) = head s.
Proof. destruct s as [|a s]; [done|]. simpl. apply last_snoc. Qed.

Lemma rstrip_last (chars s : pystr) (c : ascii) :
  last (rstrip chars s) = Some c -> c ∉ chars.
Proof.
  unfold rstrip. rewrite last_rev. apply lstrip_head.
Qed.

Lemma rstrip_prefix (chars s : pystr) :
  exists post, s = rstrip chars s ++ post /\ Forall (fun c => c ∈ chars) post.
Proof.
  unfold rstrip. destruct (lstrip_suffix chars (rev s)) as (pre & Hs & Hpre).
  exists (rev pre). split.
  - rewrite <- rev_app_distr, <- Hs. by rewrite rev_involutive.
  - by apply Forall_rev.
Qed.

(** A text that begins with [<speak>] and ends with [</speak>] has the two
    tags one after the other: they cannot overlap. *)
Lemma speak_tags_apart (rest pre : pystr) :
  speak_open ++ rest = pre ++ speak_close ->
  exists body, rest = body ++ speak_close.
Proof.
  intros H. unfold speak_open, speak_close, str in H.
  do 7 (destruct pre as [|? pre];
        [cbn [list_ascii_of_string app] in H; discriminate H|]).
  cbn [list_ascii_of_string app] in H.
  exists pre. by injection H.
Qed.

Lemma speak_wrapped_inv (t : pystr) :
  startswith speak_open t = true -> endswith speak_close t = true ->
  exists body, t = speak_open ++ body ++ speak_close.
Proof.
  intros Hs He.
  apply startswith_inv in Hs as [rest ->].
  apply endswith_inv in He as [pre Hpre].
  destruct (speak_tags_apart _ _ Hpre) as [body ->]. by exists body.
Qed.

End SpeakWrapper.


Section SpeakTrim.

Lemma rbind_assoc {A B C} (r : result A) (f : A -> result B) (g : B -> result C) :
  rbind (rbind r f) g = rbind r (fun a => rbind (f a) g).
Proof. by destruct r. Qed.

(** Without the tags the result is the tagged result stripped. *)
Lemma format_speak_tags_untagged (sentence : pystr) :
  format_speak_tags sentence false
  = rbind (format_speak_tags sentence true)
      (fun r => Ok (rstrip speak_close (lstrip speak_open r))).
Proof.
  unfold format_speak_tags. cbv zeta.
  match goal with
  | |- rbind ?m _ = _ => destruct m as [ts|e]; [|done]
  end.
  cbn [rbind]. by case_bool_decide.
Qed.

(** A tagged result is returned as it is. *)
Lemma format_speak_tags_fixed (r : pystr) :
  r = [] \/ (exists body, body <> [] /\ r = speak_open ++ body ++ speak_close) ->
  format_speak_tags r true = Ok r.
Proof.
  intros [->|(body & Hne & ->)]; [by vm_compute|].
  unfold format_speak_tags. cbv zeta.
  assert (Ho : contains speak_open (speak_open ++ body ++ speak_close) = true).
  { apply contains_startswith, startswith_app. }
  assert (Hc : contains speak_close (speak_open ++ body ++ speak_close) = true).
  { apply contains_endswith. rewrite (app_assoc speak_open). apply endswith_app. }
  rewrite Ho, Hc. cbn [negb andb].
  rewrite startswith_app. cbn [negb rbind].
  rewrite (app_assoc speak_open body), endswith_app. cbn [negb].
  rewrite <- app_assoc. case_bool_decide as Heq; [|done].
  apply app_inv_head in Heq.
  rewrite <- (app_nil_l speak_close) in Heq at 2.
  by apply app_inv_tail in Heq.
Qed.

Lemma has_lt_false (s : pystr) : has_lt s = false <-> "<"%char ∉ s.
Proof.
  unfold has_lt. rewrite <- not_true_iff_false, existsb_exists. split.
  - intros H Hin. apply H. exists "<"%char. split; [by apply list_elem_of_In|].
    apply Ascii.eqb_refl.
  - intros H (c & Hin & Heq). apply Ascii.eqb_eq in Heq as ->.
    by apply H, list_elem_of_In.
Qed.

(** The first occurrence of a text that begins with [<], behind a text
    without [<]. *)
Lemma split_first_skip (sep pre x : pystr) :
  has_lt pre = false ->
  split_first ("<"%char :: sep) (pre ++ x)
  = match split_first ("<"%char :: sep) x with
    | Some (before, after) => Some (pre ++ before, after)
    | None => None
    end.
Proof.
  induction pre as [|c pre IH]; intros Hpre.
  - simpl. by destruct (split_first _ x) as [[??]|].
  - simpl in Hpre. apply orb_false_iff in Hpre as [Hc Hpre].
    rewrite <- app_comm_cons. cbn [split_first startswith].
    rewrite Ascii.eqb_sym, Hc. cbn [andb].
    rewrite (IH Hpre). by destruct (split_first _ x) as [[??]|].
Qed.

Lemma split_first_hit (sep x : pystr) :
  split_first sep (sep ++ x) = Some ([], x).
Proof.
  destruct sep as [|a sep]; [by destruct x|].
  rewrite <- app_comm_cons. unfold split_first; fold split_first.
  rewrite app_comm_cons, startswith_app. by rewrite drop_app_length.
Qed.

Lemma startswith_lookup (p s : pystr) (i : nat) (c : ascii) :
  startswith p s = true -> p !! i = Some c -> s !! i = Some c.
Proof.
  intros H Hp. apply startswith_inv in H as [rest ->].
  by apply lookup_app_l_Some.
Qed.

(** Behind [</speak>] and some more text without [<], a text does not end
    with [</speak>]. *)
Lemma endswith_close_behind (x post : pystr) :
  post <> [] -> has_lt post = false ->
  endswith speak_close (x ++ speak_close ++ post) = false.
Proof.
  intros Hne Hpost. apply not_true_iff_false. intros He.
  apply endswith_inv in He as [y Hy].
  assert (Hlen : length x + length post = length y).
  { apply (f_equal length) in Hy. rewrite !length_app in Hy. lia. }
  assert (Hlt : (x ++ speak_close ++ post) !! length y = Some "<"%char).
  { rewrite Hy. rewrite lookup_app_r by lia. by rewrite Nat.sub_diag. }
  rewrite lookup_app_r in Hlt by lia.
  replace (length y - length x) with (length post) in Hlt by lia.
  destruct (decide (length post < length speak_close)) as [Hshort|Hlong].
  - rewrite lookup_app_l in Hlt by done.
    change (length speak_close) with 8 in Hshort.
    destruct post as [|? post]; [done|]. simpl in Hshort, Hlt.
    do 7 (destruct post as [|? post]; [by vm_compute in Hlt|]).
    simpl in Hshort. lia.
  - rewrite lookup_app_r in Hlt by lia.
    apply has_lt_false in Hpost. apply Hpost.
    by eapply list_elem_of_lookup_2.
Qed.

End SpeakTrim.

(** X2: a text that [format_speak_tags] returned with the tags is returned
    unchanged when it is formatted again, and formatting it without the tags
    gives what formatting the sentence without the tags gives. *)
Theorem X2_format_speak_tags_again :
  forall (sentence : pystr) (include_tags : bool),
    rbind (format_speak_tags sentence true)
      (fun r => format_speak_tags r include_tags)
    = format_speak_tags sentence include_tags.
Proof.
  intros sentence include_tags.
  assert (Htrue : rbind (format_speak_tags sentence true)
                    (fun r => format_speak_tags r true)
                  = format_speak_tags sentence true).
  { destruct (format_speak_tags_shape sentence true) as (t & Hs & He & Heq).
    rewrite Heq. cbn [rbind]. apply format_speak_tags_fixed.
    case_bool_decide as Ht; [by left|]. right.
    destruct (speak_wrapped_inv t Hs He) as [body ->].
    exists body. split; [|done]. by intros ->. }
  destruct include_tags; [done|].
  rewrite (format_speak_tags_untagged sentence).
  rewrite <- Htrue at 2. rewrite rbind_assoc.
  destruct (format_speak_tags sentence true) as [r|e]; [|done].
  cbn [rbind]. apply format_speak_tags_untagged.
Qed.

(** X3: a sentence with neither [<speak>] nor [</speak>] in it is returned
    between the two tags; the empty sentence stays empty. *)
Theorem X3_format_speak_tags_wraps :
  forall sentence : pystr,
    contains speak_open sentence = false ->
    contains speak_close sentence = false ->
    format_speak_tags sentence true
    = Ok (if bool_decide (sentence = []) then []
          else speak_open ++ sentence ++ speak_close).
Proof.
  intros sentence Ho Hc.
  unfold format_speak_tags. cbv zeta. rewrite Ho, Hc. cbn [negb andb].
  rewrite startswith_app. cbn [negb rbind].
  rewrite (app_assoc speak_open sentence), endswith_app. cbn [negb].
  rewrite <- app_assoc.
  case_bool_decide as Heq; case_bool_decide as Hs; try done.
  - apply app_inv_head in Heq.
    rewrite <- (app_nil_l speak_close) in Heq at 2.
    by apply app_inv_tail in Heq.
  - by subst.
Qed.

Lemma X3_format_speak_tags_wraps_witness :
  format_speak_tags (str "Hello world") true
  = Ok (str "<speak>Hello world</speak>").
Proof.
  apply (X3_format_speak_tags_wraps (str "Hello world")); reflexivity.
Defined.

(** X4: text outside the speak tags is removed: of a sentence
    [pre <speak> body </speak> post] whose parts have no [<], what is
    returned is [<speak> body </speak>], and the empty string when the body
    is empty. *)
Theorem X4_format_speak_tags_trims :
  forall pre body post : pystr,
    has_lt pre = false -> has_lt body = false -> has_lt post = false ->
    format_speak_tags (pre ++ speak_open ++ body ++ speak_close ++ post) true
    = Ok (if bool_decide (body = []) then []
          else speak_open ++ body ++ speak_close).
Proof.
  intros pre body post Hpre Hbody Hpost.
  set (s := pre ++ speak_open ++ body ++ speak_close ++ post).
  assert (Ho : contains speak_open s = true).
  { apply contains_spec. by exists pre, (body ++ speak_close ++ post). }
  assert (Hc : contains speak_close s = true).
  { apply contains_spec. exists (pre ++ speak_open ++ body), post.
    subst s. by rewrite <- !app_assoc. }
  unfold format_speak_tags. cbv zeta. rewrite Ho, Hc. cbn [negb andb].
  assert (H1 : (if negb (startswith speak_open s)
                then rbind (split1_second speak_open s)
                       (fun rest => Ok (speak_open ++ rest))
                else Ok s)
               = Ok (speak_open ++ body ++ speak_close ++ post)).
  { destruct (startswith speak_open s) eqn:Hst; cbn [negb].
    - destruct pre as [|c pre]; [done|].
      simpl in Hpre. apply orb_false_iff in Hpre as [Hcl _].
      subst s. rewrite <- app_comm_cons in Hst.
      change speak_open with ("<"%char :: str "speak>") in Hst at 1.
      cbn [startswith] in Hst. rewrite Ascii.eqb_sym, Hcl in Hst. done.
    - unfold split1_second. subst s.
      change speak_open with ("<"%char :: str "speak>") at 1.
      rewrite split_first_skip by done.
      change ("<"%char :: str "speak>") with speak_open.
      by rewrite split_first_hit. }
  rewrite H1. cbn [rbind].
  assert (H2 : (if negb (endswith speak_close
                           (speak_open ++ body ++ speak_close ++ post))
                then split1_first speak_close
                       (speak_open ++ body ++ speak_close ++ post) ++ speak_close
                else speak_open ++ body ++ speak_close ++ post)
               = speak_open ++ body ++ speak_close).
  { destruct post as [|c post].
    - rewrite !app_nil_r. rewrite (app_assoc speak_open body), endswith_app.
      by rewrite <- app_assoc.
    - rewrite (app_assoc speak_open body).
      rewrite endswith_close_behind by done. cbn [negb].
      rewrite <- app_assoc. unfold split1_first.
      rewrite split_first_close_behind_open.
      change speak_close with ("<"%char :: str "/speak>") at 1.
      rewrite split_first_skip by done.
      change ("<"%char :: str "/speak>") with speak_close.
      rewrite split_first_hit. by rewrite app_nil_r, <- app_assoc. }
  rewrite H2.
  case_bool_decide as Heq; case_bool_decide as Hb; try done.
  - apply app_inv_head in Heq.
    rewrite <- (app_nil_l speak_close) in Heq at 2.
    by apply app_inv_tail in Heq.
  - by subst.
Qed.

Lemma X4_format_speak_tags_trims_witness :
  format_speak_tags (str "Say: <speak>Hello world</speak> (done)") true
  = Ok (str "<speak>Hello world</speak>").
Proof.
  apply (X4_format_speak_tags_trims (str "Say: ") (str "Hello world")
           (str " (done)")); reflexivity.
Defined.

(** X5: without the tags, [format_speak_tags] strips characters, not tags:
    from the tagged text it removes the leading characters that are one of
    [<speak>] and the trailing characters that are one of [</speak>].  The
    result never begins or ends with such a character, and words of these
    letters at the ends of the sentence are lost. *)
Theorem X5_format_speak_tags_strips_characters :
  forall sentence : pystr,
    exists tagged r pre post,
      format_speak_tags sentence true = Ok tagged
      /\ format_speak_tags sentence false = Ok r
      /\ tagged = pre ++ r ++ post
      /\ Forall (fun c => c ∈ speak_open) pre
      /\ Forall (fun c => c ∈ speak_close) post
      /\ (forall c, head r = Some c -> c ∉ speak_open)
      /\ (forall c, last r = Some c -> c ∉ speak_close)
      /\ format_speak_tags (str "speak up") false = Ok (str " u").
Proof.
  intros sentence.
  destruct (format_speak_tags_returns sentence true) as [tagged Ht].
  pose proof (format_speak_tags_untagged sentence) as Hu.
  rewrite Ht in Hu. cbn [rbind] in Hu.
  destruct (lstrip_suffix speak_open tagged) as (pre & Hpre & Hpre').
  destruct (rstrip_prefix speak_close (lstrip speak_open tagged))
    as (post & Hpost & Hpost').
  exists tagged, (rstrip speak_close (lstrip speak_open tagged)), pre, post.
  split; [done|]. split; [done|]. split.
  { rewrite Hpre at 1. by rewrite <- Hpost. }
  split; [done|]. split; [done|]. split; [|split].
  - intros c Hc. apply (lstrip_head speak_open tagged).
    rewrite Hpost. destruct (rstrip _ _); [done|]. done.
  - apply rstrip_last.
  - by vm_compute.
Qed.

(** ** What the tag filter leaves alone *)

Section FilterBounds.

Lemma flat_map_singleton (s : pystr) : flat_map (fun c => [c]) s = s.
Proof. induction s as [|c s IH]; simpl; congruence. Qed.

(** Replacing a text by itself changes nothing. *)
Lemma replace_same (t s : pystr) : replace t t s = s.
Proof.
  destruct t as [|a t]; [apply flat_map_singleton|].
  induction s as [s IH] using length_ind.
  destruct s as [|c s]; [by apply replace_nil|].
  destruct (startswith (a :: t) (c :: s)) eqn:Hst.
  - apply startswith_inv in Hst as [rest Hrest]. rewrite Hrest.
    rewrite replace_hit by done. f_equal.
    apply IH. rewrite Hrest, length_app. simpl. lia.
  - rewrite replace_miss by done. f_equal.
    apply IH. simpl. lia.
Qed.

(** Replacing a text by a part of it only takes characters away. *)
Lemma replace_sublist (old new s : pystr) :
  new `sublist_of` old -> replace old new s `sublist_of` s.
Proof.
  intros Hsub. destruct old as [|a old].
  - apply sublist_nil_r in Hsub as ->. simpl. by rewrite flat_map_singleton.
  - induction s as [s IH] using length_ind.
    destruct s as [|c s]; [by rewrite replace_nil|].
    destruct (startswith (a :: old) (c :: s)) eqn:Hst.
    + apply startswith_inv in Hst as [rest Hrest]. rewrite Hrest.
      rewrite replace_hit by done. apply sublist_app; [done|].
      apply IH. rewrite Hrest, length_app. simpl. lia.
    + rewrite replace_miss by done. apply sublist_skip.
      apply IH. simpl. lia.
Qed.

Lemma one_space_of_two : str " " `sublist_of` str "  ".
Proof.
  change (str " " `sublist_of` " "%char :: str " "). apply sublist_skip, sublist_nil_l.
Qed.

Lemma sub_tags_sublist (f : pystr -> pystr) (s : pystr) :
  (forall t, f t `sublist_of` t) -> sub_tags f s `sublist_of` s.
Proof.
  intros Hf. induction s as [|t rest Hm IH|c s Hm IH] using scan_ind.
  - done.
  - rewrite sub_tags_hit by done. by apply sublist_app.
  - rewrite sub_tags_miss by done. by apply sublist_skip.
Qed.

Lemma filter_loop_sublist (ssml_tags : list pystr) (modify_tag : pystr -> pystr)
    (tags : list pystr) (utterance : pystr) :
  (forall tag, modify_tag tag `sublist_of` tag) ->
  fold_left (filter_tag ssml_tags modify_tag) tags utterance
  `sublist_of` utterance.
Proof.
  intros Hm. revert utterance.
  induction tags as [|tag tags IH]; intros utterance; [done|].
  cbn [fold_left]. etrans; [apply IH|].
  unfold filter_tag. destruct (supported_tag ssml_tags tag).
  - by apply replace_sublist.
  - apply replace_sublist, sublist_nil_l.
Qed.

Lemma filter_loop_unchanged (ssml_tags : list pystr) (modify_tag : pystr -> pystr)
    (tags : list pystr) (utterance : pystr) :
  Forall (fun tag => supported_tag ssml_tags tag = true /\ modify_tag tag = tag)
    tags ->
  fold_left (filter_tag ssml_tags modify_tag) tags utterance = utterance.
Proof.
  induction 1 as [|tag tags [Hs Hm] _ IH]; [done|].
  cbn [fold_left]. unfold filter_tag at 2. by rewrite Hs, Hm, replace_same.
Qed.

End FilterBounds.

(** X6: with a tag transform that only takes characters away from a tag
    (the default changes nothing), [validate_ssml] only takes characters
    away from the utterance: what it returns is the utterance with some
    characters left out, in the same order, whatever tags the engine
    supports. *)
Theorem X6_validate_ssml_only_deletes :
  forall (ssml_tags : list pystr) (modify_tag : pystr -> pystr)
         (utterance : pystr),
    (forall tag, modify_tag tag `sublist_of` tag) ->
    exists r,
      validate_ssml ssml_tags modify_tag utterance = Ok r
      /\ r `sublist_of` utterance
      /\ length r <= length utterance.
Proof.
  intros ssml_tags modify_tag utterance Hm.
  rewrite validate_ssml_unfold. eexists. split; [done|].
  match goal with |- ?P /\ _ => assert (Hsub : P) end.
  { case_bool_decide.
    - unfold remove_ssml. etrans.
      + apply replace_sublist, one_space_of_two.
      + apply sub_tags_sublist. intros t. apply sublist_nil_l.
    - etrans.
      + apply replace_sublist, one_space_of_two.
      + by apply filter_loop_sublist. }
  split; [done|]. by apply sublist_length.
Qed.

Lemma X6_validate_ssml_only_deletes_witness :
  exists r,
    validate_ssml [str "speak"] modify_tag_default
      (str "<speak>Hello  <b>big</b> world</speak>") = Ok r
    /\ r `sublist_of` str "<speak>Hello  <b>big</b> world</speak>"
    /\ length r <= 38.
Proof.
  apply (X6_validate_ssml_only_deletes [str "speak"] modify_tag_default
           (str "<speak>Hello  <b>big</b> world</speak>")).
  intros tag. reflexivity.
Defined.

(** X7: when the engine supports tags and every tag matched in the
    utterance is a supported one that the transform leaves as it is,
    [validate_ssml] changes nothing but the doubled spaces, however the
    tags are nested. *)
Theorem X7_validate_ssml_keeps_supported_text :
  forall (ssml_tags : list pystr) (modify_tag : pystr -> pystr)
         (utterance : pystr),
    ssml_tags <> [] ->
    Forall (fun tag => supported_tag ssml_tags tag = true /\ modify_tag tag = tag)
      (findall_tags utterance) ->
    validate_ssml ssml_tags modify_tag utterance
    = Ok (replace (str "  ") (str " ") utterance).
Proof.
  intros ssml_tags modify_tag utterance Hne Htags.
  rewrite validate_ssml_unfold.
  case_bool_decide; [done|]. by rewrite filter_loop_unchanged.
Qed.

Lemma X7_validate_ssml_keeps_supported_text_witness :
  validate_ssml [str "speak"; str "prosody"] modify_tag_default
    (str "<speak><prosody rate=<speak>>Hi  there</prosody></speak>")
  = Ok (str "<speak><prosody rate=<speak>>Hi there</prosody></speak>").
Proof.
  apply (X7_validate_ssml_keeps_supported_text [str "speak"; str "prosody"]
           modify_tag_default
           (str "<speak><prosody rate=<speak>>Hi  there</prosody></speak>")).
  - done.
  - by vm_compute; repeat constructor.
Defined.

(** ** Keys of the spelling table *)

Section SpellingKeys.

Lemma lower_char_idemp (c : ascii) : lower_char (lower_char c) = lower_char c.
Proof. destruct c as [[] [] [] [] [] [] [] []]; reflexivity. Qed.

Lemma lower_idemp (s : pystr) : lower (lower s) = lower s.
Proof.
  unfold lower. rewrite map_map. apply map_ext. intros c. apply lower_char_idemp.
Qed.

Lemma lookup_lowercase_keys (spellings : gmap pystr pystr) (word : pystr) :
  lowercase_keys spellings !! lower word = spellings !! lower word.
Proof.
  unfold lowercase_keys.
  destruct (spellings !! lower word) as [v|] eqn:Hl.
  - apply map_lookup_filter_Some. split; [done|]. simpl. apply lower_idemp.
  - apply map_lookup_filter_None. by left.
Qed.

End SpellingKeys.

(** X8: the pass looks a word up under its lowercase form only, so an entry
    of the spelling table whose key has an uppercase letter is never used:
    on a sentence of ASCII characters the pass gives the same text with and
    without such entries. *)
Theorem X8_spellings_uppercase_keys_unused :
  forall (phonetic_spelling : bool) (spellings : gmap pystr pystr)
         (sentence : pystr),
    isascii sentence = true ->
    _replace_phonetic_spellings phonetic_spelling spellings sentence
    = _replace_phonetic_spellings phonetic_spelling (lowercase_keys spellings)
        sentence
    /\ forall key spelled,
         lower key <> key ->
         _replace_phonetic_spellings phonetic_spelling
           (<[key := spelled]> spellings) sentence
         = _replace_phonetic_spellings phonetic_spelling spellings sentence.
Proof.
  assert (Hpass : forall b spellings sentence,
    _replace_phonetic_spellings b spellings sentence
    = _replace_phonetic_spellings b (lowercase_keys spellings) sentence).
  { intros b spellings sentence. unfold _replace_phonetic_spellings.
    destruct b; [|done].
    generalize (findall_words sentence) as words. intros words.
    revert sentence. induction words as [|w words IH]; intros sentence; [done|].
    cbn [fold_left]. rewrite IH. f_equal.
    unfold spell_word. by rewrite lookup_lowercase_keys. }
  intros b spellings sentence _. split; [apply Hpass|].
  intros key spelled Hkey.
  rewrite (Hpass b (<[key := spelled]> spellings)), (Hpass b spellings).
  f_equal. unfold lowercase_keys.
  rewrite map_filter_insert_False by done.
  apply map_filter_delete_not. intros v _. done.
Qed.

Lemma X8_spellings_uppercase_keys_unused_witness :
  _replace_phonetic_spellings true
    (<[str "OVOS" := str "x"]> {[ str "ovos" := str "oh voss" ]})
    (str "OVOS rocks")
  = str "oh voss rocks".
Proof.
  rewrite (proj2 (X8_spellings_uppercase_keys_unused true
                    {[ str "ovos" := str "oh voss" ]} (str "OVOS rocks")
                    eq_refl)
             (str "OVOS") (str "x")).
  - by vm_compute.
  - by vm_compute.
Defined.

(** ** Phoneme tokens that [viseme] does not read *)

Section VisemeTokens.

Variable E : Externals.

Lemma colons_zero (token : pystr) : colons token = 0 <-> ":"%char ∉ token.
Proof.
  unfold colons. induction token as [|c token IH]; simpl.
  - split; [|done]. intros _. apply not_elem_of_nil.
  - rewrite not_elem_of_cons. destruct (decide (c = ":"%char)) as [->|Hne].
    + rewrite filter_cons_True by done. simpl. split; [done|]. by intros [? _].
    + rewrite filter_cons_False by done. rewrite IH. split; [|by intros [_ ?]].
      intros H. split; [congruence|done].
Qed.

Lemma split_char_length (sep : ascii) (s : pystr) :
  length (split_char sep s) = S (length (filter (fun c => c = sep) s)).
Proof.
  induction s as [|c s IH]; [done|]. cbn [split_char].
  destruct (Ascii.eqb c sep) eqn:Heq.
  - apply Ascii.eqb_eq in Heq as ->. rewrite filter_cons_True by done.
    simpl. by rewrite IH.
  - apply Ascii.eqb_neq in Heq. rewrite filter_cons_False by done.
    rewrite <- IH. by destruct (split_char sep s).
Qed.

Lemma split_char_one (sep : ascii) (s b : pystr) :
  split_char sep s = [b] -> s = b /\ sep ∉ b.
Proof.
  intros H. assert (Hz : length (filter (fun c => c = sep) s) = 0).
  { pose proof (split_char_length sep s) as Hl. rewrite H in Hl. simpl in Hl. lia. }
  assert (Hnot : sep ∉ s).
  { intros Hin. apply length_zero_iff_nil in Hz.
    assert (Hs : sep ∈ filter (fun c => c = sep) s) by by apply list_elem_of_filter.
    rewrite Hz in Hs. by apply elem_of_nil in Hs. }
  rewrite split_char_notin in H by done. injection H as <-. done.
Qed.

Lemma split_char_two (sep : ascii) (s a b : pystr) :
  split_char sep s = [a; b] -> s = a ++ sep :: b /\ (sep ∉ a) /\ (sep ∉ b).
Proof.
  revert a. induction s as [|c s IH]; intros a; [done|]. cbn [split_char].
  destruct (Ascii.eqb c sep) eqn:Heq.
  - apply Ascii.eqb_eq in Heq as ->. intros [= <- H].
    apply split_char_one in H as [-> Hb]. split; [done|].
    split; [apply not_elem_of_nil|done].
  - apply Ascii.eqb_neq in Heq.
    destruct (split_char sep s) as [|p ps] eqn:Hsp; [done|].
    intros [= <- ->]. destruct (IH p eq_refl) as (-> & Hp & Hb).
    split; [done|]. split; [|done].
    apply not_elem_of_cons. split; [congruence|done].
Qed.

Lemma colons_timed (pho dur : pystr) :
  ":"%char ∉ pho -> ":"%char ∉ dur -> colons (pho ++ ":"%char :: dur) = 1.
Proof.
  intros Hp Hd. apply colons_zero in Hp, Hd. unfold colons in *.
  rewrite filter_app, filter_cons_True by done.
  rewrite length_app. simpl. lia.
Qed.

(** When the loop returns, it has added the visemes of the tokens with at
    most one colon. *)
Lemma viseme_loop_ok (tokens : list pystr) (acc vs : list (viseme_t E)) :
  viseme_loop E tokens acc = Ok vs ->
  exists new,
    vs = acc ++ new
    /\ Forall2 (token_viseme E) (filter (fun t => colons t <= 1) tokens) new.
Proof.
  revert acc. induction tokens as [|token tokens IH]; intros acc; cbn [viseme_loop].
  - intros [= <-]. exists []. rewrite app_nil_r. split; [done|]. constructor.
  - destruct (contains (str ":") token) eqn:Hc.
    + pose proof (split_char_length ":"%char token) as Hlen.
      fold (colons token) in Hlen.
      assert (Hin : colons token <> 0).
      { rewrite colons_zero. intros Hn. by apply contains_char in Hc. }
      destruct (split_char ":"%char token) as [|pho [|dur [|x rest]]] eqn:Hsp;
        simpl in Hlen.
      * lia.
      * lia.
      * apply split_char_two in Hsp as (-> & Hp & Hd).
        destruct (py_float E dur) as [d|e] eqn:Hf; cbn [rbind]; [|done].
        intros H. destruct (IH _ H) as (new & -> & Hnew).
        exists ((visime_code E pho, d) :: new). rewrite <- app_assoc.
        split; [done|]. rewrite filter_cons_True by lia.
        constructor; [|done]. by apply timed_token.
      * intros H. destruct (IH _ H) as (new & -> & Hnew).
        exists new. split; [done|]. by rewrite filter_cons_False by lia.
    + assert (Hn : ":"%char ∉ token).
      { intros Hin. apply contains_char in Hin. unfold str in Hc. simpl in Hc.
        congruence. }
      intros H. destruct (IH _ H) as (new & -> & Hnew).
      exists ((visime_code E token, float_0_2 E) :: new). rewrite <- app_assoc.
      split; [done|].
      rewrite filter_cons_True by (apply colons_zero in Hn; lia).
      constructor; [|done]. by apply bare_token.
Qed.

(** The loop raises exactly the error of [float()] on the duration of a
    token [pho:dur]. *)
Lemma viseme_loop_raises (tokens : list pystr) (acc : list (viseme_t E))
    (e : pyerr) :
  viseme_loop E tokens acc = Raise e ->
  exists pho dur,
    (pho ++ ":"%char :: dur ∈ tokens) /\ (":"%char ∉ pho) /\ (":"%char ∉ dur)
    /\ py_float E dur = Raise e.
Proof.
  revert acc. induction tokens as [|token tokens IH]; intros acc; cbn [viseme_loop];
    [done|].
  assert (Hrest : forall acc', viseme_loop E tokens acc' = Raise e ->
    exists pho dur,
      (pho ++ ":"%char :: dur ∈ token :: tokens) /\ (":"%char ∉ pho)
      /\ (":"%char ∉ dur) /\ py_float E dur = Raise e).
  { intros acc' H. destruct (IH _ H) as (pho & dur & Hin & ?).
    exists pho, dur. split; [by right|done]. }
  destruct (contains (str ":") token); [|by apply Hrest].
  destruct (split_char ":"%char token) as [|pho [|dur [|x rest]]] eqn:Hsp;
    try by apply Hrest.
  apply split_char_two in Hsp as (-> & Hp & Hd).
  destruct (py_float E dur) as [d|e'] eqn:Hf; cbn [rbind]; [by apply Hrest|].
  intros [= ->]. exists pho, dur. split; [by left|done].
Qed.

Lemma viseme_loop_bad_duration (tokens : list pystr) (acc : list (viseme_t E))
    (pho dur : pystr) (e : pyerr) :
  pho ++ ":"%char :: dur ∈ tokens -> ":"%char ∉ pho -> ":"%char ∉ dur ->
  py_float E dur = Raise e ->
  exists e', viseme_loop E tokens acc = Raise e'.
Proof.
  intros Hin Hp Hd Hf. revert acc.
  induction tokens as [|token tokens IH]; intros acc; [by apply elem_of_nil in Hin|].
  cbn [viseme_loop]. apply elem_of_cons in Hin as [<-|Hin].
  - assert (Hc : contains (str ":") (pho ++ ":"%char :: dur) = true).
    { apply (contains_char ":"%char). apply elem_of_app. right. by left. }
    rewrite Hc, split_char_app, split_char_notin by done.
    rewrite Hf. cbn [rbind]. eauto.
  - destruct (contains (str ":") token); [|by apply IH].
    destruct (split_char ":"%char token) as [|p [|d [|x rest]]]; try by apply IH.
    destruct (py_float E d) as [?|e']; cbn [rbind]; [by apply IH|eauto].
Qed.

End VisemeTokens.

(** X9: when [viseme] returns for a phoneme string, the visemes are those
    of the tokens that have at most one colon, in order: a token with two
    colons or more is passed over without a word. *)
Theorem X9_viseme_skips_malformed_tokens :
  forall (E : Externals) (phonemes : pystr) (v : option (list (viseme_t E))),
    phonemes <> [] ->
    viseme E (Some phonemes) = Ok v ->
    Forall2 (token_viseme E)
      (filter (fun token => colons token <= 1) (split_char " "%char phonemes))
      (default [] v)
    /\ length (default [] v) <= length (split_char " "%char phonemes).
Proof.
  intros E phonemes v Hne Hv.
  destruct phonemes as [|c s]; [done|]. unfold viseme in Hv.
  destruct (viseme_loop E (split_char " "%char (c :: s)) []) as [vs|e] eqn:Hl;
    cbn [rbind] in Hv; [|done].
  apply viseme_loop_ok in Hl as (new & -> & Hnew). simpl in Hv.
  assert (Hd : default [] v = new).
  { injection Hv as <-. by destruct new. }
  rewrite Hd. split; [done|].
  rewrite <- (Forall2_length _ _ _ Hnew). apply length_filter.
Qed.

Lemma X9_viseme_skips_malformed_tokens_witness :
  Forall2 (token_viseme demo_externals)
    (filter (fun token => colons token <= 1)
       (split_char " "%char (str "hh:0.1 AH:0.2:x m")))
    [(str "0", {| mantissa := 1; scale := 1 |});
     (str "4", {| mantissa := 2; scale := 1 |})].
Proof.
  apply (X9_viseme_skips_malformed_tokens demo_externals
           (str "hh:0.1 AH:0.2:x m")
           (Some [(str "0", {| mantissa := 1; scale := 1 |});
                  (str "4", {| mantissa := 2; scale := 1 |})])).
  - done.
  - by vm_compute.
Defined.

(** X10: [viseme] raises exactly when some token [pho:dur] has a duration
    that [float()] rejects, and what it raises is an error of [float()] on
    such a duration: one bad duration and no viseme is returned. *)
Theorem X10_viseme_bad_duration_raises :
  forall (E : Externals) (phonemes : pystr),
    (forall e,
       viseme E (Some phonemes) = Raise e ->
       exists pho dur,
         (pho ++ ":"%char :: dur ∈ split_char " "%char phonemes)
         /\ (":"%char ∉ pho) /\ (":"%char ∉ dur)
         /\ py_float E dur = Raise e)
    /\ (forall pho dur e,
          pho ++ ":"%char :: dur ∈ split_char " "%char phonemes ->
          ":"%char ∉ pho -> ":"%char ∉ dur ->
          py_float E dur = Raise e ->
          exists e', viseme E (Some phonemes) = Raise e').
Proof.
  intros E phonemes. split.
  - intros e Hv. destruct phonemes as [|c s]; [done|]. unfold viseme in Hv.
    destruct (viseme_loop E (split_char " "%char (c :: s)) []) as [vs|e'] eqn:Hl;
      cbn [rbind] in Hv; [done|].
    injection Hv as ->. by eapply viseme_loop_raises.
  - intros pho dur e Hin Hp Hd Hf. destruct phonemes as [|c s].
    + simpl in Hin. apply list_elem_of_singleton in Hin. by destruct pho.
    + unfold viseme.
      destruct (viseme_loop_bad_duration E _ [] pho dur e Hin Hp Hd Hf)
        as [e' ->].
      by exists e'.
Qed.

Lemma X10_viseme_bad_duration_raises_witness :
  exists e', viseme demo_externals (Some (str "HH:0.1 AH:fast")) = Raise e'.
Proof.
  apply (proj2 (X10_viseme_bad_duration_raises demo_externals
                  (str "HH:0.1 AH:fast"))
           (str "AH") (str "fast") ValueError).
  - by_compute.
  - by_compute.
  - by_compute.
  - by vm_compute.
Defined.



(** X12: what [synth] has stored can be read back.  After a [synth] that
    returned with caching enabled, [TTSContext.get_from_cache] for the same
    context and sentence returns the audio file [synth] returned, with the
    phonemes of the backend when it gave some (otherwise those of the G2P
    plugin, if it produced any); it changes nothing but the log. *)
Theorem X12_synth_result_can_be_read_back :
  forall (E : Externals) (self : TTS E) (sentence : pystr)
         (ctxt : option TTSContext) (kwargs : pydict) (w w' : world E)
         (audio : AudioFile) (phonemes : option pystr)
         (ext : pystr) (cfg : option pydict),
    enable_cache self = true ->
    synth self sentence ctxt kwargs w = (Ok (audio, phonemes), w') ->
    exists p w'',
      TTSContext_get_from_cache (resolve_ctxt E ctxt) sentence ext cfg w'
      = (Ok (audio, p), w'')
      /\ same_effects w' w''
      /\ p = (if truthy_str (cached_phonemes self sentence phonemes)
              then cached_phonemes self sentence phonemes else None)
      /\ (truthy_str phonemes = true -> p = phonemes).
Proof.
  intros E self sentence ctxt kwargs w w' audio phonemes ext cfg Hen Hs.
  destruct (synth_ok_inv self sentence ctxt kwargs w w' audio phonemes Hs)
    as (l & c & Hreg & _ & _ & _ & _ & _ & _ & _ & Hstore).
  rewrite Hen in Hstore. destruct Hstore as [Hheap Hpho].
  set (final := cached_phonemes self sentence phonemes) in *.
  set (h := hash_sentence E sentence) in *.
  unfold TTSContext_get_from_cache. fold h.
  rewrite (bind_ok _ _ _ _ _ (get_cache_hit _ ext cfg w' l Hreg)).
  rewrite (bind_ok _ _ _ _ _ (deref_ok l _ w' Hheap)).
  cbn [cache_with cached_sentences]. rewrite lookup_insert_eq.
  assert (Htruthy : truthy_str phonemes = true -> final = phonemes).
  { intros Ht. subst final. unfold cached_phonemes.
    destruct (g2p self); [|done]. by rewrite Ht. }
  destruct (truthy_str final) eqn:Hf.
  - destruct final as [[|a p]|] eqn:Hfinal; try done.
    eexists (Some (a :: p)), _. split.
    { unfold bind at 1. unfold LOG at 1. cbn beta iota.
      unfold bind, pho_load, ret. cbn [pho_files]. rewrite Hpho.
      cbn [default]. rewrite lookup_insert_eq. reflexivity. }
    split; [by repeat split|]. split; [done|]. done.
  - eexists None, _. split.
    { unfold bind at 1. unfold LOG at 1. cbn beta iota. reflexivity. }
    split; [by repeat split|]. split; [done|].
    intros Ht. rewrite (Htruthy Ht) in Hf. congruence.
Qed.

Lemma X12_synth_result_can_be_read_back_witness :
  exists p w'',
    TTSContext_get_from_cache (resolve_ctxt demo_externals None) (str "hello")
      (str "mp3") None world_after_hello
    = (Ok ({| audio_name := str "hello.wav";
              audio_path := str "ovos-tts-plugin-demo/default/en-us/hello.wav" |},
           p), w'')
    /\ same_effects world_after_hello w''.
Proof.
  destruct (X12_synth_result_can_be_read_back demo_externals demo_tts
              (str "hello") None ∅ (empty_world demo_externals) world_after_hello
              {| audio_name := str "hello.wav";
                 audio_path := str "ovos-tts-plugin-demo/default/en-us/hello.wav" |}
              None (str "mp3") None)
    as (p & w'' & Hget & Hse & _).
  - reflexivity.
  - vm_compute. reflexivity.
  - exists p, w''. split; [exact Hget|exact Hse].
Defined.
